(** * ns-cloud: the asynchronous remote-operation protocol

    A shallow embedding of the cloud services of the NativeScript cloud
    extension:

    - [CloudService] (the abstract base class): the status poller
      [waitForServerOperationToFinish], the result downloader
      [downloadServerResults] and the soft-timeout fetcher
      [getTransformedServerResult];
    - [CloudPublishService]: [publishToItunesConnect], [publishToGooglePlay],
      [publishCore] and the error classifiers built on regular expressions;
    - [CloudCodesignService]: [generateCodesignFiles] and its artifact filter.
    - the publish commands: [canExecute] and [executeCore] of
      [CloudPublishAndroid] and [CloudPublishIos].

    JavaScript strings are modelled as [string] (code units below 256),
    thrown [Error] objects as records with optional dynamic properties,
    promises by their completion, and timers by an explicit clock and a
    trace of events. The callback of an interval timer is an [async]
    function: the timer goes on firing while callbacks are suspended at an
    [await]. The two timers are modelled by an event loop whose steps, the
    firings and the ends of the awaited operations, come in the order a
    schedule gives; what is proved for every schedule holds however long
    the requests and the log emissions take. *)

From Stdlib Require Import String Ascii List ZArith Lia Bool Arith PeanoNat Sorted.
Import ListNotations.
Local Open Scope string_scope.

(** ** JavaScript values *)

Module Js.

(** An [Error] object. Besides [message], the services attach dynamic
    properties to errors before throwing them; an absent property is
    [None]. *)
Record Error := mkError {
  message : string;
  stderr : option string;
  stdout : option string;
  teamNames : option (list string);
  packagePaths : option (list string);
  buildId : option string;
  cloudOperationId : option string
}.

(** [new Error(msg)] *)
Definition newError (msg : string) : Error :=
  mkError msg None None None None None None.

Definition set_stderr (v : string) (e : Error) : Error :=
  mkError (message e) (Some v) (stdout e) (teamNames e) (packagePaths e)
          (buildId e) (cloudOperationId e).
Definition set_stdout (v : string) (e : Error) : Error :=
  mkError (message e) (stderr e) (Some v) (teamNames e) (packagePaths e)
          (buildId e) (cloudOperationId e).
Definition set_teamNames (v : list string) (e : Error) : Error :=
  mkError (message e) (stderr e) (stdout e) (Some v) (packagePaths e)
          (buildId e) (cloudOperationId e).
Definition set_packagePaths (v : list string) (e : Error) : Error :=
  mkError (message e) (stderr e) (stdout e) (teamNames e) (Some v)
          (buildId e) (cloudOperationId e).
Definition set_buildId (v : string) (e : Error) : Error :=
  mkError (message e) (stderr e) (stdout e) (teamNames e) (packagePaths e)
          (Some v) (cloudOperationId e).
Definition set_cloudOperationId (v : string) (e : Error) : Error :=
  mkError (message e) (stderr e) (stdout e) (teamNames e) (packagePaths e)
          (buildId e) (Some v).

(** How an [async] function ends: it returns, it throws, or its promise
    never settles. *)
Inductive Completion (A : Type) : Type :=
| Return (a : A)
| Throw (e : Error)
| Pending.
Arguments Return {A} a.
Arguments Throw {A} e.
Arguments Pending {A}.

(** Truthiness of a string and of a number. *)
Definition truthyString (s : string) : bool :=
  match s with EmptyString => false | _ => true end.
Definition truthyNumber (n : Z) : bool := negb (n =? 0)%Z.

(** [s.indexOf(target) > -1], which is what [_.includes] does on a string. *)
Fixpoint includes (s target : string) : bool :=
  String.prefix target s ||
  match s with
  | EmptyString => false
  | String _ s' => includes s' target
  end.

(** [array.join(sep)] *)
Fixpoint join (sep : string) (l : list string) : string :=
  match l with
  | [] => ""
  | [x] => x
  | x :: rest => x ++ sep ++ join sep rest
  end.

(** The tail of a string from index [n] on. *)
Fixpoint skip (n : nat) (s : string) : string :=
  match n, s with
  | O, _ => s
  | S k, String _ s' => skip k s'
  | S _, EmptyString => EmptyString
  end.

End Js.
Import Js.

(** ** The part of lodash the services use *)

Module Lodash.

Definition includesValue (x : string) (l : list string) : bool :=
  existsb (String.eqb x) l.

(** [baseUniq]: walk the array and keep a value when it is not yet among
    the kept ones. *)
Fixpoint baseUniq (result : list string) (array : list string) : list string :=
  match array with
  | [] => result
  | value :: rest =>
      if includesValue value result then baseUniq result rest
      else baseUniq (result ++ [value]) rest
  end.

(** [_.uniq(array)]; a [null] array ([None]) gives the empty array. *)
Definition uniq (array : option (list string)) : list string :=
  match array with
  | Some l => baseUniq [] l
  | None => []
  end.

(** The position of the first occurrence of [x] in [l]. *)
Fixpoint firstIndex (x : string) (l : list string) : nat :=
  match l with
  | [] => 0
  | y :: rest => if String.eqb x y then 0 else S (firstIndex x rest)
  end.

(** What [baseUniq] has kept of the part of the array it has walked
    through: the values seen, each once, in the order of their first
    occurrences. *)
Definition Kept (seen kept : list string) : Prop :=
  (forall x, In x kept <-> In x seen)
  /\ Sorted.StronglySorted lt (map (fun x => firstIndex x seen) kept).

End Lodash.

(** ** Regular expressions

    The fragment of JavaScript regular expressions the publish service is
    written in: literal characters, a greedy run of digits and a greedy run
    of arbitrary characters of one line, possibly as a capturing group,
    matched by backtracking. *)

Module RegExp.

Inductive Node : Type :=
| Lit (c : ascii)     (* a literal or escaped character *)
| DigitPlus           (* one or more digits, greedy *)
| DotStar             (* any run of non-terminator characters, greedy *)
| GroupDotStar.       (* the same, as a capturing group *)

Definition Pattern := list Node.

Definition lits (s : string) : Pattern := map Lit (list_ascii_of_string s).

(** The dot matches every character but a line terminator. *)
Definition isLineTerminator (c : ascii) : bool :=
  Ascii.eqb c "010"%char || Ascii.eqb c "013"%char.

(** The digit class. *)
Definition isDigit (c : ascii) : bool :=
  let n := nat_of_ascii c in ((48 <=? n) && (n <=? 57))%nat.

(** The state of a match: the captures so far and the input left. *)
Definition Matched : Type := (list string * string)%type.

Definition capture (text : string) (m : option Matched) : option (string * Matched) :=
  match m with
  | Some r => Some (text, r)
  | None => None
  end.

(** The greedy quantifiers, each followed by the rest [k] of the pattern:
    a quantifier first takes as much as it can and gives characters back
    while the rest of the pattern fails. *)
Fixpoint plusDigits (k : string -> option Matched) (s : string) : option Matched :=
  match s with
  | String c s' =>
      if isDigit c then
        match plusDigits k s' with
        | Some r => Some r
        | None => k s'
        end
      else None
  | EmptyString => None
  end.

Fixpoint starDot (k : string -> option Matched) (s : string) : option Matched :=
  match s with
  | String c s' =>
      if isLineTerminator c then k s
      else match starDot k s' with
           | Some r => Some r
           | None => k s
           end
  | EmptyString => k s
  end.

Fixpoint starDotGroup (k : string -> option Matched) (s : string)
  : option (string * Matched) :=
  match s with
  | String c s' =>
      if isLineTerminator c then capture "" (k s)
      else match starDotGroup k s' with
           | Some (text, r) => Some (String c text, r)
           | None => capture "" (k s)
           end
  | EmptyString => capture "" (k s)
  end.

(** Match pattern [p] at the start of [s]. *)
Fixpoint matchHere (p : Pattern) (s : string) {struct p} : option Matched :=
  match p with
  | [] => Some ([], s)
  | Lit c :: p' =>
      match s with
      | String c' s' => if Ascii.eqb c c' then matchHere p' s' else None
      | EmptyString => None
      end
  | DigitPlus :: p' => plusDigits (matchHere p') s
  | DotStar :: p' => starDot (matchHere p') s
  | GroupDotStar :: p' =>
      match starDotGroup (matchHere p') s with
      | Some (text, (caps, rest)) => Some (text :: caps, rest)
      | None => None
      end
  end.

(** The leftmost position at or after index [i] where the pattern
    matches; [s] is the input from index [i] on. *)
Fixpoint search (p : Pattern) (s : string) (i : nat) : option (nat * Matched) :=
  match matchHere p s with
  | Some m => Some (i, m)
  | None =>
      match s with
      | EmptyString => None
      | String _ s' => search p s' (S i)
      end
  end.

(** The array [exec] returns: [m[0]] is [match0], [m[1]], ... are
    [groups]. *)
Record ExecResult := mkExec {
  index : nat;
  match0 : string;
  groups : list string
}.

(** [regex.exec(str)] for a regular expression with the [g] flag, whose
    [lastIndex] is passed in and returned. *)
Definition exec (p : Pattern) (str : string) (lastIndex : nat)
  : option ExecResult * nat :=
  if (String.length str <? lastIndex)%nat then (None, 0)
  else
    match search p (skip lastIndex str) lastIndex with
    | None => (None, 0)
    | Some (i, (caps, rest)) =>
        let e := String.length str - String.length rest in
        (Some (mkExec i (substring i (e - i) str) caps), e)
    end.

(** [str.match(regex)] for a regular expression with the [g] flag:
    [lastIndex] starts at 0, every [m[0]] is collected, and an empty match
    moves [lastIndex] one further. [fuel] bounds the number of [exec]
    calls. *)
Fixpoint matchLoop (fuel : nat) (p : Pattern) (str : string) (lastIndex : nat)
  : list string :=
  match fuel with
  | O => []
  | S fuel' =>
      match exec p str lastIndex with
      | (None, _) => []
      | (Some m, e) =>
          match0 m ::
            matchLoop fuel' p str
              (match match0 m with EmptyString => S e | _ => e end)
      end
  end.

(** [str.match(regex)]: [null] when nothing matches. Every iteration moves
    [lastIndex] forward, and [exec] past the end of the string finds
    nothing, so [length str + 2] calls are enough. *)
Definition matchGlobal (p : Pattern) (str : string) : option (list string) :=
  match matchLoop (String.length str + 2) p str 0 with
  | [] => None
  | l => Some l
  end.

(** The lines of a text, split at the line feeds. *)
Fixpoint linesFrom (current : string) (s : string) : list string :=
  match s with
  | EmptyString => [current]
  | String c s' =>
      if Ascii.eqb c "010"%char then current :: linesFrom "" s'
      else linesFrom (current ++ String c "") s'
  end.

Definition lines (s : string) : list string := linesFrom "" s.

(** No character of [s] is a line terminator. *)
Fixpoint oneLine (s : string) : bool :=
  match s with
  | EmptyString => true
  | String c s' => negb (isLineTerminator c) && oneLine s'
  end.

(** [s] is empty or begins with a line terminator. *)
Definition atLineEnd (s : string) : bool :=
  match s with
  | EmptyString => true
  | String c _ => isLineTerminator c
  end.

(** A continuation that never gives back more input than it was given. *)
Definition Shrinks (k : string -> option Matched) : Prop :=
  forall s r, k s = Some r -> String.length (snd r) <= String.length s.

End RegExp.

(** ** What the services take from Node and from the extension's constants *)

(** Node's [os.EOL], [path.join], [path.basename] and
    [String.prototype.toLowerCase]. *)
Class Runtime := {
  EOL : string;
  path_join : list string -> string;
  basename : string -> string;
  toLowerCase : string -> string
}.

(** The constants module of the extension ([lib/constants]), of which the
    services use the default Android track, two artifact dispositions and the
    name of the directory of the codesign files. *)
Class Constants := {
  DEFAULT_ANDROID_PUBLISH_TRACK : string;
  DISPOSITIONS_CERTIFICATE : string;
  DISPOSITIONS_PROVISION : string;
  CODESIGN_FILES_DIR_NAME : string
}.

(** ** The objects exchanged with the server *)

Module Server.

(** [IServerResponse]: where the status, the logs and the result of an
    operation are to be read. *)
Record IServerResponse := mkResponse {
  statusUrl : string;
  outputUrl : string;
  resultUrl : string
}.

Record IServerItem := mkItem {
  disposition : string;
  filename : string;
  fullPath : string;
  platform : string;
  extension : string
}.

(** [IBuildServerResult], which extends [IServerResult] by [buildItems]. *)
Record IBuildServerResult := mkResult {
  errors : string;
  code : Z;
  stdout : string;
  stderr : string;
  buildItems : list IServerItem
}.

Record IOutputDirectoryOptions := mkOutputOptions {
  projectDir : string;
  outputPlatform : string;
  emulator : bool
}.

End Server.
Import Server.

(** ** promise-retry

    [promiseRetry(fn, options)] of the [promise-retry] package, on top of
    [retry]: [fn] is attempted once and, while it asks for a retry,
    attempted again after each of the timeouts computed from the options,
    so [retries] counts the attempts after the first one. With the
    defaults the service leaves in place ([factor] 2, no upper bound, no
    randomization) the timeout before retry [i] is [minTimeout * 2^i]. *)

Module PromiseRetry.

Record Options := mkOptions {
  retries : nat;
  minTimeout : Z
}.

Definition factor : Z := 2.

Definition createTimeout (attempt : nat) (opts : Options) : Z :=
  (minTimeout opts * factor ^ Z.of_nat attempt)%Z.

(** One timeout per retry, in ascending order. *)
Definition timeouts (opts : Options) : list Z :=
  map (fun i => createTimeout i opts) (seq 0 (retries opts)).

Section Operation.
Context {S A : Type}.
(** The attempted function, which ends in a value or in a call of
    [retry] with an error, and the passing of time. *)
Variable fn : S -> S * (Js.Error + A).
Variable sleep : Z -> S -> S.

(** [fn] is run; when it fails and a timeout is left, it is run again
    after that timeout; when none is left, the promise is rejected with
    the error of the last attempt. *)
Fixpoint attempt (remaining : list Z) (s : S) : S * (Js.Error + A) :=
  match fn s with
  | (s', inr a) => (s', inr a)
  | (s', inl err) =>
      match remaining with
      | [] => (s', inl err)
      | t :: remaining' => attempt remaining' (sleep t s')
      end
  end.

Definition promiseRetry (opts : Options) (s : S) : S * (Js.Error + A) :=
  attempt (timeouts opts) s.
End Operation.

End PromiseRetry.

(** ** CloudService, the base class of the operations *)

(** The abstract members of [CloudService], which each operation
    implements. [getServerLogs] works on the output cursor of the service:
    given the number of earlier calls in this wait (the server's log grows
    between calls), the log location, the operation identifier and the
    cursor, it gives the new cursor, or [None] when it throws. *)
Class CloudService := {
  failedToStartError : string;
  failedError : string;
  getServerResults : IBuildServerResult -> list IServerItem;
  getServerLogs : nat -> string -> string -> Z -> option Z;
  getServerOperationOutputDirectory : IOutputDirectoryOptions -> string
}.

Module Poller.

Definition OPERATION_STATUS_CHECK_INTERVAL : Z := 1500.
Definition OPERATION_STATUS_CHECK_RETRY_COUNT : nat := 8.
Definition OPERATION_COMPLETE_STATUS : string := "Success".
Definition OPERATION_FAILED_STATUS : string := "Failed".
Definition OPERATION_IN_PROGRESS_STATUS : string := "Building".

(** What a wait does that can be seen from outside, with the time in
    milliseconds since the wait began. *)
Inductive Event : Type :=
| FetchStatus (time : Z) (url : string) (response : option string)
| GetServerLogs (time : Z) (cursor : Z)
| SetInterval (time : Z)
| ClearInterval (time : Z).

(** The state of one wait: the clock, the number of status requests sent,
    the number of invocations of the log emission, the fields and locals of
    the service
    ([outputCursorPosition], [serverStatus]), whether the interval timer is
    set, how the returned promise stands, and the events so far. *)
Record State := mkState {
  clock : Z;
  requests : nat;
  logCalls : nat;
  outputCursorPosition : Z;
  serverStatus : string;
  intervalActive : bool;
  promise : Completion unit;
  events : list Event
}.

Definition initial : State :=
  mkState 0 0 0 0 "" false Pending [].

Definition sleep (ms : Z) (st : State) : State :=
  mkState (clock st + ms) (requests st) (logCalls st) (outputCursorPosition st)
          (serverStatus st) (intervalActive st) (promise st) (events st).

Definition record (e : Event) (st : State) : State :=
  mkState (clock st) (requests st) (logCalls st) (outputCursorPosition st)
          (serverStatus st) (intervalActive st) (promise st) (events st ++ [e]).

Definition settle (c : Completion unit) (st : State) : State :=
  mkState (clock st) (requests st) (logCalls st) (outputCursorPosition st)
          (serverStatus st) (intervalActive st) c (events st).

Definition setStatus (s : string) (st : State) : State :=
  mkState (clock st) (requests st) (logCalls st) (outputCursorPosition st)
          s (intervalActive st) (promise st) (events st).

Definition setCursor (c : Z) (st : State) : State :=
  mkState (clock st) (requests st) (logCalls st) c
          (serverStatus st) (intervalActive st) (promise st) (events st).

Definition setInterval (st : State) : State :=
  record (SetInterval (clock st))
    (mkState (clock st) (requests st) (logCalls st) (outputCursorPosition st)
             (serverStatus st) true (promise st) (events st)).

Definition clearInterval (st : State) : State :=
  record (ClearInterval (clock st))
    (mkState (clock st) (requests st) (logCalls st) (outputCursorPosition st)
             (serverStatus st) false (promise st) (events st)).

(** The cursors the log emissions of a trace were called with, the times
    of its status requests, and the number of timers it sets and clears. *)
Fixpoint logCursors (l : list Event) : list Z :=
  match l with
  | [] => []
  | GetServerLogs _ cursor :: rest => cursor :: logCursors rest
  | _ :: rest => logCursors rest
  end.

Fixpoint requestTimes (l : list Event) : list Z :=
  match l with
  | [] => []
  | FetchStatus time _ _ :: rest => time :: requestTimes rest
  | _ :: rest => requestTimes rest
  end.

Definition isSetInterval (e : Event) : bool :=
  match e with SetInterval _ => true | _ => false end.

Definition isClearInterval (e : Event) : bool :=
  match e with ClearInterval _ => true | _ => false end.

(** *** The event loop of the polling phase

    The callback of the timer is an [async] function: it runs until it
    awaits something, and goes on when what it awaits has ended. Nothing
    holds the timer back in between, so the timer can fire again while
    earlier callbacks are still suspended. *)

(** How a callback goes on after the log emission it awaits. *)
Inductive AfterLogs : Type :=
| ThenResolve    (* clearInterval, resolve() *)
| ThenReject     (* clearInterval, reject(new Error(failedError)) *)
| ThenFetch.     (* the next status request *)

(** What a suspended callback awaits: the log emission that was its
    [call]-th invocation, or the answer to a status request, which is
    [response]. *)
Inductive Awaited : Type :=
| Logs (call : nat) (next : AfterLogs)
| Status (response : option string).

(** A step of the event loop: the timer fires, or what the callback of
    firing number [id] awaits ends, [delay] milliseconds after the latest
    firing. A schedule is a list of steps: it fixes in which order the
    firings and the ends of the awaited operations come. Nothing is assumed
    of a schedule: a firing of a timer that is not set, and the end of
    something nobody awaits, change nothing. *)
Inductive Action : Type :=
| Fire
| Settle (id : nat) (delay : Z).

(** The state of the polling phase: the state of the wait, the number of
    firings so far, the time of the latest firing (of [setInterval] before
    the first), and the suspended callbacks, each with the number of its
    firing. *)
Record Loop := mkLoop {
  state : State;
  fired : nat;
  firedAt : Z;
  awaiting : list (nat * Awaited)
}.

Definition isFire (a : Action) : bool :=
  match a with Fire => true | Settle _ _ => false end.

(** The number of firings a schedule asks for. *)
Definition firings (schedule : list Action) : nat :=
  List.length (filter isFire schedule).

(** The schedule in which every callback ends before the timer fires
    again: each firing is followed by the ends of the two operations its
    callback can await, at the given delays. The callbacks are numbered
    from [id] on. *)
Fixpoint inTurn (id : nat) (delays : list (Z * Z)) : list Action :=
  match delays with
  | [] => []
  | (d1, d2) :: rest => Fire :: Settle id d1 :: Settle id d2 :: inTurn (S id) rest
  end.

(** [n] firings whose callbacks end at once. *)
Definition promptly (n : nat) : list Action := inTurn 0 (repeat (0, 0)%Z n).

(** The callback that is suspended for firing [id], if any, and the
    others. *)
Fixpoint take (id : nat) (l : list (nat * Awaited))
  : option (Awaited * list (nat * Awaited)) :=
  match l with
  | [] => None
  | (i, a) :: rest =>
      if Nat.eqb i id then Some (a, rest)
      else match take id rest with
           | Some (found, others) => Some (found, (i, a) :: others)
           | None => None
           end
  end.

(** [resolve] and [reject] settle a promise that is pending and do
    nothing to a settled one. *)
Definition settleOnce (c : Completion unit) (st : State) : State :=
  match promise st with
  | Pending => settle c st
  | _ => st
  end.

Definition at_ (time : Z) (st : State) : State :=
  mkState time (requests st) (logCalls st) (outputCursorPosition st)
          (serverStatus st) (intervalActive st) (promise st) (events st).

Section Wait.
Context {service : CloudService}.

(** The object store: the answer to the [k]-th request for the status
    object at a location, [None] when the request or the parsing of its
    body throws. *)
Variable statusObject : string -> nat -> option string.

Variable operationId : string.
Variable serverInformation : IServerResponse.

(** [getObjectFromS3File<IServerStatus>(serverInformation.statusUrl)] *)
Definition getStatus (st : State) : State * option string :=
  let response := statusObject (statusUrl serverInformation) (requests st) in
  (record (FetchStatus (clock st) (statusUrl serverInformation) response)
     (mkState (clock st) (S (requests st)) (logCalls st)
              (outputCursorPosition st) (serverStatus st)
              (intervalActive st) (promise st) (events st)),
   response).

(** The function handed to [promiseRetry]: a failed request is traced
    and answered by a retry with the failed-to-start error. *)
Definition firstStatus (st : State) : State * (Js.Error + string) :=
  match getStatus st with
  | (st', Some status) => (st', inr status)
  | (st', None) => (st', inl (newError failedToStartError))
  end.

(** The invocation of [this.getServerLogs(serverInformation.outputUrl,
    operationId)]: the call is counted and traced with the cursor it finds. *)
Definition callLogs (st : State) : State :=
  record (GetServerLogs (clock st) (outputCursorPosition st))
    (mkState (clock st) (requests st) (S (logCalls st))
             (outputCursorPosition st) (serverStatus st)
             (intervalActive st) (promise st) (events st)).

(** The callback of firing [id] invokes the log emission, or sends a
    status request, and is suspended until that ends. *)
Definition awaitLogs (id : nat) (next : AfterLogs) (l : Loop) : Loop :=
  mkLoop (callLogs (state l)) (fired l) (firedAt l)
         (awaiting l ++ [(id, Logs (logCalls (state l)) next)]).

Definition awaitStatus (id : nat) (l : Loop) : Loop :=
  let (st, response) := getStatus (state l) in
  mkLoop st (fired l) (firedAt l) (awaiting l ++ [(id, Status response)]).

(** The timer fires, [OPERATION_STATUS_CHECK_INTERVAL] milliseconds after
    its latest firing: a new callback runs up to its first [await]. It
    reads [serverStatus] as the callbacks before it have left it. *)
Definition fire (l : Loop) : Loop :=
  if intervalActive (state l) then
    let time := (firedAt l + OPERATION_STATUS_CHECK_INTERVAL)%Z in
    let id := fired l in
    let l' := mkLoop (at_ time (state l)) (S id) time (awaiting l) in
    let status := serverStatus (state l) in
    if String.eqb status OPERATION_COMPLETE_STATUS then awaitLogs id ThenResolve l'
    else if String.eqb status OPERATION_FAILED_STATUS then awaitLogs id ThenReject l'
    else if String.eqb status OPERATION_IN_PROGRESS_STATUS then awaitLogs id ThenFetch l'
    else awaitStatus id l'
  else l.

(** What the callback of firing [id] awaits ends, and the callback runs
    up to its next [await] or to its end. A log emission works on the
    cursor as it is when the emission ends; when it throws, and when a
    status request fails, the callback ends there: the promise of the
    callback is rejected, which nobody awaits, and nothing else changes.
    [clearInterval] and [resolve] or [reject] are called whether or not
    an earlier callback has called them. *)
Definition resume (id : nat) (delay : Z) (l : Loop) : Loop :=
  match take id (awaiting l) with
  | None => l
  | Some (awaited, others) =>
      let st := at_ (firedAt l + delay) (state l) in
      match awaited with
      | Logs call next =>
          match getServerLogs call (outputUrl serverInformation) operationId
                              (outputCursorPosition st) with
          | None => mkLoop st (fired l) (firedAt l) others
          | Some cursor =>
              let st := setCursor cursor st in
              match next with
              | ThenResolve =>
                  mkLoop (settleOnce (Return tt) (clearInterval st))
                         (fired l) (firedAt l) others
              | ThenReject =>
                  mkLoop (settleOnce (Throw (newError failedError)) (clearInterval st))
                         (fired l) (firedAt l) others
              | ThenFetch =>
                  awaitStatus id (mkLoop st (fired l) (firedAt l) others)
              end
          end
      | Status (Some status) =>
          mkLoop (setStatus status st) (fired l) (firedAt l) others
      | Status None => mkLoop st (fired l) (firedAt l) others
      end
  end.

Definition step (a : Action) (l : Loop) : Loop :=
  match a with
  | Fire => fire l
  | Settle id delay => resume id delay l
  end.

Fixpoint run (schedule : list Action) (l : Loop) : Loop :=
  match schedule with
  | [] => l
  | a :: rest => run rest (step a l)
  end.

(** The polling phase begins: [outputCursorPosition = 0] and
    [setInterval]. *)
Definition poll (status : string) (st : State) : Loop :=
  mkLoop (setInterval (setCursor 0 (setStatus status st))) 0 (clock st) [].

Definition promiseRetryOptions : PromiseRetry.Options :=
  PromiseRetry.mkOptions OPERATION_STATUS_CHECK_RETRY_COUNT
                         OPERATION_STATUS_CHECK_INTERVAL.

(** [waitForServerOperationToFinish(operationId, serverInformation)]: the
    first phase, in which [promiseRetry] awaits each request before the
    next, and then the polling phase, observed after the steps of
    [schedule]. *)
Definition waitForServerOperationToFinish (schedule : list Action) : State :=
  match PromiseRetry.promiseRetry firstStatus sleep promiseRetryOptions initial with
  | (st, inl err) => settle (Throw err) st
  | (st, inr status) => state (run schedule (poll status st))
  end.

(** The state after the request [getStatus] sends. *)
Definition requested (st : State) : State := fst (getStatus st).

(** The contract of a log emission that works: it does not throw and it
    does not move the cursor back. *)
Definition LogsAdvance : Prop :=
  forall calls logsUrl buildId cursor,
    exists cursor', getServerLogs calls logsUrl buildId cursor = Some cursor'
                    /\ (cursor <= cursor')%Z.

(** How the wait is to end on a terminal status. *)
Definition expected (terminal : string) : Completion unit :=
  if String.eqb terminal OPERATION_COMPLETE_STATUS then Return tt
  else Throw (newError failedError).

End Wait.

End Poller.

(** The operations of this repository emit no logs; the build service
    reads the log location, which can fail. [throwingLogs] is a service
    whose log emission throws. *)
Definition throwingLogs : CloudService := {|
  failedToStartError := "Failed to start.";
  failedError := "Failed.";
  getServerResults := buildItems;
  getServerLogs := fun _ _ _ _ => None;
  getServerOperationOutputDirectory := Server.projectDir
|}.

(** Consecutive times of a list are at least [gap] apart. *)
Fixpoint spaced (gap : Z) (times : list Z) : Prop :=
  match times with
  | t1 :: ((t2 :: _) as rest) => (t1 + gap <= t2)%Z /\ spaced gap rest
  | _ => True
  end.

(** ** The result downloader and the soft-timeout fetcher *)

Module Downloader.

(** What a download does to the file system and the network. *)
Inductive Event : Type :=
| EnsureDirectoryExists (dir : string)
| CreateWriteStream (file : string)
| HttpRequest (url : string) (pipeTo : string) (ok : bool).

Section Download.
Context {runtime : Runtime} {service : CloudService}.

(** The transfer of a remote file into a local one: [None] when it
    succeeds, the error when the request throws. *)
Variable transfer : string -> string -> option Js.Error.

(** The [for ... of] loop over the selected items. *)
Fixpoint downloadEach (destinationDir : string) (serverResultObjs : list IServerItem)
         (targetFileNames : list string) (log : list Event)
  : list Event * Completion (list string) :=
  match serverResultObjs with
  | [] => (log, Return targetFileNames)
  | serverResultObj :: rest =>
      let targetFileName := path_join [destinationDir; filename serverResultObj] in
      let targetFileNames := (targetFileNames ++ [targetFileName])%list in
      let log := (log ++ [CreateWriteStream targetFileName])%list in
      match transfer (fullPath serverResultObj) targetFileName with
      | None =>
          downloadEach destinationDir rest targetFileNames
            (log ++ [HttpRequest (fullPath serverResultObj) targetFileName true])
      | Some err =>
          ((log ++ [HttpRequest (fullPath serverResultObj) targetFileName false])%list,
           Throw err)
      end
  end.

Definition downloadServerResults (serverResult : IBuildServerResult)
           (serverOutputOptions : IOutputDirectoryOptions)
  : list Event * Completion (list string) :=
  let destinationDir := getServerOperationOutputDirectory serverOutputOptions in
  let serverResultObjs := getServerResults serverResult in
  downloadEach destinationDir serverResultObjs [] [EnsureDirectoryExists destinationDir].

End Download.

(** The local files a download has filled, with the location each came
    from, in the order of the transfers. *)
Fixpoint written (log : list Event) : list (string * string) :=
  match log with
  | [] => []
  | HttpRequest url file true :: rest => (url, file) :: written rest
  | _ :: rest => written rest
  end.

(** The local files a download has opened for writing. *)
Fixpoint created (log : list Event) : list string :=
  match log with
  | [] => []
  | CreateWriteStream file :: rest => file :: created rest
  | _ :: rest => created rest
  end.

End Downloader.

Module TransformedResult.

Definition GET_TRANSFORMED_RESULT_MAX_WAIT : Z := 3 * 1000.
Definition GET_TRANSFORMED_RESULT_REQUEST_INTERVAL : Z := 500.
(** [Math.floor(MAX_WAIT / REQUEST_INTERVAL)] *)
Definition GET_TRANSFORMED_RESULT_RETRIES_COUNT : Z :=
  (GET_TRANSFORMED_RESULT_MAX_WAIT / GET_TRANSFORMED_RESULT_REQUEST_INTERVAL)%Z.

(** The state of one call: the time of the latest firing of the timer, the
    local [retriesCount], whether the interval timer is set, the returned
    promise ([None] is [null]), the times of the requests sent, and the
    requests that are not answered yet, by their numbers: each is awaited
    by the callback that sent it. *)
Record State := mkState {
  clock : Z;
  retriesCount : Z;
  intervalActive : bool;
  promise : Completion (option IBuildServerResult);
  requestTimes : list Z;
  awaiting : list nat
}.

(** A step of the event loop: the timer fires, or the request with the
    given number is answered. The callback is an [async] function, and the
    timer goes on firing while requests are awaited; a schedule fixes the
    order of the firings and the answers. A firing of a timer that is not
    set, and an answer nobody awaits, change nothing. *)
Inductive Action : Type :=
| Fire
| Answer (request : nat).

Definition isFire (a : Action) : bool :=
  match a with Fire => true | Answer _ => false end.

(** The number of firings a schedule asks for. *)
Definition firings (schedule : list Action) : nat :=
  List.length (filter isFire schedule).

(** The schedule in which every request is answered before the timer
    fires again; the requests are numbered from [request] on. *)
Fixpoint inTurn (request n : nat) : list Action :=
  match n with
  | O => []
  | S n' => Fire :: Answer request :: inTurn (S request) n'
  end.

Section Fetch.
(** The answer to the [k]-th request for the transformed result, [None]
    when the request or the parsing throws. *)
Variable transformedResult : string -> nat -> option IBuildServerResult.
Variable transformedBuildResultUrl : string.

Definition start : State := mkState 0 1 true Pending [] [].

(** [clearInterval(intervalId); return resolve(value)]: a promise that is
    settled stays as it is. *)
Definition resolve (value : option IBuildServerResult) (st : State) : State :=
  mkState (clock st) (retriesCount st) false
          (match promise st with Pending => Return value | settled => settled end)
          (requestTimes st) (awaiting st).

(** The timer fires, [GET_TRANSFORMED_RESULT_REQUEST_INTERVAL] milliseconds
    after its latest firing: the callback gives up, or counts and sends a
    request, which it awaits. *)
Definition fire (st : State) : State :=
  if intervalActive st then
    let time := (clock st + GET_TRANSFORMED_RESULT_REQUEST_INTERVAL)%Z in
    if (GET_TRANSFORMED_RESULT_RETRIES_COUNT <? retriesCount st)%Z then
      resolve None
        (mkState time (retriesCount st) (intervalActive st) (promise st)
                 (requestTimes st) (awaiting st))
    else
      mkState time (retriesCount st + 1) (intervalActive st) (promise st)
              (requestTimes st ++ [time])
              (awaiting st ++ [List.length (requestTimes st)])
  else st.

(** The request with number [k] is answered, and the callback that awaits
    it goes on: with an object it clears the timer and resolves, with a
    failure it traces and ends. *)
Definition answer (k : nat) (st : State) : State :=
  if existsb (Nat.eqb k) (awaiting st) then
    let st' := mkState (clock st) (retriesCount st) (intervalActive st) (promise st)
                       (requestTimes st)
                       (filter (fun j => negb (Nat.eqb k j)) (awaiting st)) in
    match transformedResult transformedBuildResultUrl k with
    | Some result => resolve (Some result) st'
    | None => st'
    end
  else st.

Definition step (a : Action) (st : State) : State :=
  match a with
  | Fire => fire st
  | Answer k => answer k st
  end.

Fixpoint run (schedule : list Action) (st : State) : State :=
  match schedule with
  | [] => st
  | a :: rest => run rest (step a st)
  end.

(** [getTransformedServerResult(transformedBuildResultUrl)], observed
    after the steps of [schedule]. *)
Definition getTransformedServerResult (schedule : list Action) : State :=
  run schedule start.

End Fetch.

(** The times of the first [n] firings of the timer. *)
Definition firingTimes (n : nat) : list Z :=
  map (fun i => (GET_TRANSFORMED_RESULT_REQUEST_INTERVAL * (Z.of_nat i + 1))%Z) (seq 0 n).

End TransformedResult.

(** ** CloudPublishService *)

Module CloudPublishService.

Definition quote : string := String "034"%char "".

(** The regular expressions of the class. All carry the [g] flag; each
    use below leaves [lastIndex] at 0, so no state passes from one call to
    the next. *)
Definition ITMS_ERROR_REGEX : RegExp.Pattern :=
  (RegExp.lits "[Transporter Error Output]:" ++ [RegExp.DotStar])%list.
Definition FASTLANE_MULTIPLE_TEAMS_FOUND_ERROR : string :=
  "Multiple iTunes Connect Teams found".
Definition GENERAL_ERROR_REGEX : RegExp.Pattern :=
  (RegExp.lits "[!]" ++ [RegExp.DotStar])%list.
Definition IOS_TEAMS_REGEX : RegExp.Pattern :=
  ([RegExp.DigitPlus] ++ RegExp.lits (") " ++ quote) ++ [RegExp.GroupDotStar]
     ++ RegExp.lits (quote ++ " (") ++ [RegExp.DotStar] ++ RegExp.lits ")")%list.

#[export] Instance service : CloudService := {
  failedError := "Publishing failed.";
  failedToStartError := "Failed to start publishing.";
  getServerResults := fun _ => [];
  getServerLogs := fun _ _ _ cursor => Some cursor;
  getServerOperationOutputDirectory := fun _ => ""
}.









Inductive Credentials : Type :=
| Apple (username password : string)
| GooglePlay (authJson : string).

Record IPublishRequestData := mkRequest {
  appIdentifier : string;
  credentials : Credentials;
  packagePaths : list string;
  platform : string;
  teamId : option string;
  track : option string
}.

Definition setPackagePaths (paths : list string) (r : IPublishRequestData)
  : IPublishRequestData :=
  mkRequest (appIdentifier r) (credentials r) paths (platform r) (teamId r) (track r).

(** [IPublishDataCore]: what both kinds of publish data share. *)
Record IPublishDataCore := mkCore {
  corePackagePaths : list string;
  projectDir : string
}.

Record IItunesConnectPublishData := mkItunes {
  itunesCore : IPublishDataCore;
  itunesCredentials : option (string * string);
  itunesTeamId : option string
}.

Record IGooglePlayPublishData := mkGooglePlay {
  googleCore : IPublishDataCore;
  pathToAuthJson : string;
  googleTrack : string
}.

(** What a publish does that can be seen from outside. *)
Inductive Event : Type :=
| Info (msg : string)
| Publish (request : IPublishRequestData)
| WaitEnded (how : Completion unit)
| GetResult (url : string).

(** The collaborators of the service: the file system, the upload
    service, the project data service, the server and the object store,
    and the identifier [uuid.v4()] gives. *)
Record Collaborators := mkCollaborators {
  exists_ : string -> bool;
  readJson : string -> option string;
  uploadToS3 : string -> string -> Js.Error + string;
  getProjectId : string -> Js.Error + string;
  publish : IPublishRequestData -> Js.Error + IServerResponse;
  statusObject : string -> nat -> option string;
  resultObject : string -> Js.Error + IBuildServerResult;
  uuid : string;
  iOS : string;
  Android : string
}.

Section Service.
Context {runtime : Runtime} {constants : Constants}.
Variable world : Collaborators.

(** [_.uniq(message.match(regex)).join(EOL)] *)
Definition getFormattedError (message : string) (regex : RegExp.Pattern) : string :=
  join EOL (Lodash.uniq (RegExp.matchGlobal regex message)).

(** The wording of the specification for [getFormattedError], to compare
    with: the lines of the text in which the pattern matches, without
    repetitions, joined by [EOL]. *)
Definition formattedErrorLines (message : string) (regex : RegExp.Pattern) : string :=
  join EOL
    (Lodash.uniq
       (Some (filter (fun line =>
                        match RegExp.search regex line 0 with
                        | Some _ => true
                        | None => false
                        end)
                     (RegExp.lines message)))).

(** The [while (matches = IOS_TEAMS_REGEX.exec(stdout))] loop, which
    pushes [matches[1]]. Every match holds a digit, so [lastIndex] grows
    with each iteration and [length stdout + 1] iterations are enough. *)
Fixpoint teamsLoop (fuel : nat) (stdout : string) (lastIndex : nat)
         (teamNames : list string) : list string :=
  match fuel with
  | O => teamNames
  | S fuel' =>
      match RegExp.exec IOS_TEAMS_REGEX stdout lastIndex with
      | (Some matches, lastIndex') =>
          teamsLoop fuel' stdout lastIndex'
            (teamNames ++ [nth 0 (RegExp.groups matches) ""])
      | (None, _) => teamNames
      end
  end.

Definition iosTeamNames (stdout : string) : list string :=
  teamsLoop (S (String.length stdout)) stdout 0 [].

(** [getError] of [publishToItunesConnect]. The closure reads
    [publishRequestData.packagePaths] when it is called, that is after
    [publishCore] has replaced the paths of the shared request object:
    the request is passed as it is at that time. *)
Definition itunesGetError (publishRequestData : IPublishRequestData)
           (publishResult : IBuildServerResult) : Js.Error :=
  let itmsMessage := getFormattedError (Server.stdout publishResult) ITMS_ERROR_REGEX in
  let generalMessage := getFormattedError (Server.stderr publishResult) GENERAL_ERROR_REGEX in
  let err := newError (errors publishResult ++ EOL ++ itmsMessage ++ EOL ++ generalMessage) in
  if includes (Server.stderr publishResult) FASTLANE_MULTIPLE_TEAMS_FOUND_ERROR then
    set_packagePaths (packagePaths publishRequestData)
      (set_teamNames (iosTeamNames (Server.stdout publishResult)) err)
  else err.

(** [getError] of [publishToGooglePlay]. *)
Definition googlePlayGetError (publishRequestData : IPublishRequestData)
           (publishResult : IBuildServerResult) : Js.Error :=
  let generalMessage := getFormattedError (Server.stderr publishResult) GENERAL_ERROR_REGEX in
  newError (errors publishResult ++ EOL ++ generalMessage).

Fixpoint preparePaths (paths preparedPackagePaths : list string)
  : Js.Error + list string :=
  match paths with
  | [] => inr preparedPackagePaths
  | packagePath :: rest =>
      if exists_ world packagePath then
        match uploadToS3 world packagePath (basename packagePath) with
        | inl err => inl err
        | inr url => preparePaths rest (preparedPackagePaths ++ [url])
        end
      else preparePaths rest (preparedPackagePaths ++ [packagePath])
  end.

Definition getPreparePackagePaths (publishData : IPublishDataCore)
  : Js.Error + list string :=
  preparePaths (corePackagePaths publishData) [].

(** [$errors.failWithoutHelp(message)] throws. *)
Definition failWithoutHelp (msg : string) : Js.Error := newError msg.

(** The first failed check of [validatePublishData], if any. *)
Definition validatePublishData (publishData : IPublishDataCore) : option Js.Error :=
  match corePackagePaths publishData with
  | [] => Some (failWithoutHelp "Cannot upload without packages")
  | _ =>
      if truthyString (projectDir publishData) then None
      else Some (failWithoutHelp "Cannot perform publish - projectDir is required.")
  end.

(** [publishCore], observed after the steps of [schedule] in the polling
    phase of its wait. The error of a failed wait is traced and dropped. *)
Definition publishCore (schedule : list Poller.Action)
           (publishRequestData : IPublishRequestData)
           (publishDataCore : IPublishDataCore)
           (getError : IPublishRequestData -> IBuildServerResult -> Js.Error)
  : list Event * Completion unit :=
  match getPreparePackagePaths publishDataCore with
  | inl err => ([], Throw err)
  | inr prepared =>
      let publishRequestData := setPackagePaths prepared publishRequestData in
      let log := [Info "Starting publishing."; Publish publishRequestData] in
      match publish world publishRequestData with
      | inl err => (log, Throw err)
      | inr response =>
          let buildId := uuid world in
          match Poller.promise
                  (Poller.waitForServerOperationToFinish
                     (statusObject world) buildId response schedule) with
          | Pending => (log, Pending)
          | waited =>
              let log := (log ++ [WaitEnded waited; GetResult (resultUrl response)])%list in
              match resultObject world (resultUrl response) with
              | inl err => (log, Throw err)
              | inr publishResult =>
                  if truthyNumber (code publishResult)
                     || truthyString (errors publishResult)
                  then
                    let err := getError publishRequestData publishResult in
                    let err := set_stderr (Server.stderr publishResult) err in
                    let err := set_stdout (Server.stdout publishResult) err in
                    (log, Throw err)
                  else
                    ((log ++ [Info "Publishing finished successfully."])%list,
                     Return tt)
              end
          end
      end
  end.

(** What [publishCore] throws for a result that reports a failure. *)
Definition classified (getError : IPublishRequestData -> IBuildServerResult -> Js.Error)
           (request : IPublishRequestData) (publishResult : IBuildServerResult) : Js.Error :=
  set_stdout (Server.stdout publishResult)
    (set_stderr (Server.stderr publishResult) (getError request publishResult)).

Definition publishToItunesConnect (schedule : list Poller.Action)
           (publishData : IItunesConnectPublishData)
  : list Event * Completion unit :=
  match validatePublishData (itunesCore publishData) with
  | Some err => ([], Throw err)
  | None =>
      match itunesCredentials publishData with
      | Some (username, password) =>
          if truthyString username && truthyString password then
            match getProjectId world (projectDir (itunesCore publishData)) with
            | inl err => ([], Throw err)
            | inr appIdentifier =>
                let publishRequestData :=
                  mkRequest appIdentifier (Apple username password)
                            (corePackagePaths (itunesCore publishData))
                            (iOS world) (itunesTeamId publishData) None in
                publishCore schedule publishRequestData (itunesCore publishData)
                            itunesGetError
            end
          else
            ([], Throw (failWithoutHelp
               "Cannot perform publish - credentials are required."))
      | None =>
          ([], Throw (failWithoutHelp
             "Cannot perform publish - credentials are required."))
      end
  end.

Definition publishToGooglePlay (schedule : list Poller.Action)
           (publishData : IGooglePlayPublishData)
  : list Event * Completion unit :=
  match validatePublishData (googleCore publishData) with
  | Some err => ([], Throw err)
  | None =>
      if negb (truthyString (pathToAuthJson publishData))
         || negb (exists_ world (pathToAuthJson publishData))
      then ([], Throw (failWithoutHelp
             "Cannot perform publish - auth json file is not supplied or missing."))
      else
        match readJson world (pathToAuthJson publishData) with
        | None =>
            ([], Throw (failWithoutHelp
               "Cannot perform publish - auth json file is not in JSON format."))
        | Some authJson =>
            let track :=
              if truthyString (googleTrack publishData) then googleTrack publishData
              else DEFAULT_ANDROID_PUBLISH_TRACK in
            match getProjectId world (projectDir (googleCore publishData)) with
            | inl err => ([], Throw err)
            | inr appIdentifier =>
                publishCore schedule
                  (mkRequest appIdentifier (GooglePlay authJson)
                             (corePackagePaths (googleCore publishData))
                             (Android world) None (Some track))
                  (googleCore publishData) googlePlayGetError
            end
        end
  end.

End Service.

End CloudPublishService.

(** ** CloudCodesignService *)

Module CloudCodesignService.

Section Class.
Context {runtime : Runtime} {constants : Constants}.

(** [_.filter] always gives an array, and an array is truthy: the
    [failWithoutHelp] branch of [getServerResults] is never taken. *)
#[export] Instance service : CloudService := {
  failedError := "Generation of codesign files failed.";
  failedToStartError := "Failed to start generation of codesign files.";
  getServerResults := fun codesignResult =>
    filter (fun b => String.eqb (disposition b) DISPOSITIONS_CERTIFICATE
                     || String.eqb (disposition b) DISPOSITIONS_PROVISION)
           (buildItems codesignResult);
  getServerLogs := fun _ _ _ cursor => Some cursor;
  getServerOperationOutputDirectory := fun options =>
    path_join [Server.projectDir options; CODESIGN_FILES_DIR_NAME;
               toLowerCase (outputPlatform options)]
}.
End Class.

Record ICodesignData := mkCodesignData {
  username : string;
  password : string;
  platform : string;
  clean : option bool
}.

Record ICodesignResultData := mkCodesignResult {
  cloudOperationId : string;
  buildId : string;
  stderr : string;
  stdout : string;
  outputFilesPaths : list string
}.

(** The collaborators of the service. The request is built and sent by
    [submit] (project data, [prepareCodesignRequest] and the server call).
    The wait of this service gives the result of the operation, and
    [getResult] gives what is known of an operation whose wait failed
    ([None] when nothing is); both belong to the base class. *)
Record Collaborators := mkCollaborators {
  uuid : string;
  submit : string -> ICodesignData -> string -> Js.Error + IServerResponse;
  waitForServerOperationToFinish : string -> IServerResponse -> Completion IBuildServerResult;
  getResult : string -> option IBuildServerResult;
  transfer : string -> string -> option Js.Error
}.

Section Service.
Context {runtime : Runtime} {constants : Constants}.
Variable world : Collaborators.

Definition failWithoutHelp (msg : string) : Js.Error := newError msg.

(** [validateParameteres]: the error of the first failed check, or the
    data, which is then known not to be [null]. *)
Definition validateParameteres (codesignData : option ICodesignData)
           (projectDir : string) : Js.Error + ICodesignData :=
  match codesignData with
  | Some data =>
      if truthyString (username data) && truthyString (password data) then
        if truthyString projectDir then inr data
        else inl (failWithoutHelp "Codesign failed. Reason is invalid project path.")
      else inl (failWithoutHelp
        "Codesign failed. Reason is missing code sign data. Apple Id and Apple Id password are required..")
  | None => inl (failWithoutHelp
        "Codesign failed. Reason is missing code sign data. Apple Id and Apple Id password are required..")
  end.

(** The part of [executeGeneration] after the wait. *)
Definition finishGeneration (codesignData : ICodesignData) (projectDir : string)
           (cloudOperationId : string) (codesignResult : IBuildServerResult)
  : Completion ICodesignResultData :=
  match buildItems codesignResult with
  | [] =>
      let errText := errors codesignResult in
      let errText :=
        if includes errText "403 Forbidden" then
          "The Code Signing Assistance service is temporary unavailable. Please try again later."
        else errText in
      Throw (set_stderr (Server.stderr codesignResult)
               (newError ("Codesign failed. Reason is: " ++ errText ++ ".")))
  | _ =>
      match snd (Downloader.downloadServerResults (transfer world) codesignResult
                   (mkOutputOptions projectDir (platform codesignData) false)) with
      | Return localCodesignResults =>
          Return (mkCodesignResult cloudOperationId cloudOperationId
                    (Server.stderr codesignResult) (Server.stdout codesignResult)
                    localCodesignResults)
      | Throw err => Throw err
      | Pending => Pending
      end
  end.

Definition executeGeneration (codesignData : ICodesignData) (projectDir : string)
           (cloudOperationId : string) : Completion ICodesignResultData :=
  match submit world cloudOperationId codesignData projectDir with
  | inl err => Throw err
  | inr codesignResponse =>
      match waitForServerOperationToFinish world cloudOperationId codesignResponse with
      | Return codesignResult =>
          finishGeneration codesignData projectDir cloudOperationId codesignResult
      | Throw ex =>
          match getResult world cloudOperationId with
          | Some codesignResult =>
              finishGeneration codesignData projectDir cloudOperationId codesignResult
          | None => Throw ex
          end
      | Pending => Pending
      end
  end.

(** [generateCodesignFiles]: whatever [executeGeneration] throws gets the
    identifier of the operation as [buildId] and [cloudOperationId]. *)
Definition generateCodesignFiles (codesignData : option ICodesignData)
           (projectDir : string) : Completion ICodesignResultData :=
  match validateParameteres codesignData projectDir with
  | inl err => Throw err
  | inr data =>
      let data := mkCodesignData (username data) (password data) (platform data)
                    (Some match clean data with Some c => c | None => true end) in
      let cloudOperationId := uuid world in
      match executeGeneration data projectDir cloudOperationId with
      | Return serverResult => Return serverResult
      | Throw err =>
          Throw (set_cloudOperationId cloudOperationId
                   (set_buildId cloudOperationId err))
      | Pending => Pending
      end
  end.

End Service.

End CloudCodesignService.

(** ** Sample inputs *)

Module Examples.

Definition newline : string := String "010"%char "".

(** A runtime with POSIX line ends. The paths of the samples need no
    normalization, so joining them puts a slash between the segments; the
    base name of a path is what follows its last slash. *)
Fixpoint afterLastSlash (s acc : string) : string :=
  match s with
  | EmptyString => acc
  | String c s' =>
      if Ascii.eqb c "/"%char then afterLastSlash s' s'
      else afterLastSlash s' acc
  end.

Definition lowerChar (c : ascii) : ascii :=
  let n := nat_of_ascii c in
  if ((65 <=? n) && (n <=? 90))%nat then ascii_of_nat (n + 32) else c.

Fixpoint lower (s : string) : string :=
  match s with
  | EmptyString => EmptyString
  | String c s' => String (lowerChar c) (lower s')
  end.

Definition posix : Runtime := {|
  EOL := newline;
  path_join := join "/";
  basename := fun s => afterLastSlash s s;
  toLowerCase := lower
|}.

Definition sampleConstants : Constants := {|
  DEFAULT_ANDROID_PUBLISH_TRACK := "beta";
  DISPOSITIONS_CERTIFICATE := "Certificate";
  DISPOSITIONS_PROVISION := "Provision";
  CODESIGN_FILES_DIR_NAME := "codesign_files"
|}.

(** An object store that answers the requests for the status object with
    the given answers, in order, and fails afterwards. *)
Definition answers (l : list (option string)) : string -> nat -> option string :=
  fun _ k => nth k l None.

Definition locations : IServerResponse :=
  mkResponse "https://store/status.json" "https://store/output.log"
             "https://store/result.json".

Definition operation : string := "7f3c2a1e-0000-4000-8000-000000000001".

(** A codesign result of three artifacts, two of which the codesign filter
    selects. *)
Definition certificate : IServerItem :=
  mkItem "Certificate" "dev.p12" "https://store/out/dev.p12" "ios" "p12".
Definition package : IServerItem :=
  mkItem "BuildResult" "app.ipa" "https://store/out/app.ipa" "ios" "ipa".
Definition provision : IServerItem :=
  mkItem "Provision" "dev.mobileprovision" "https://store/out/dev.mobileprovision"
         "ios" "mobileprovision".
Definition codesignResult : IBuildServerResult :=
  mkResult "" 0 "" "" [certificate; package; provision].

(** The collaborators of a publish: nothing is uploaded, the server takes
    the request, the status object answers as [status] says and the result
    object is [result]. *)
Definition store (status : string -> nat -> option string)
           (result : Js.Error + IBuildServerResult) : CloudPublishService.Collaborators :=
  CloudPublishService.mkCollaborators
    (fun path => String.prefix "/home/me/" path)
    (fun _ => Some "{}")
    (fun _ name => inr ("https://store/uploads/" ++ name))
    (fun _ => inr "org.nativescript.sample")
    (fun _ => inr locations)
    status
    (fun _ => result)
    operation
    "iOS"
    "Android".

Definition cleanResult : IBuildServerResult := mkResult "" 0 "Uploaded." "" [].

Definition teamsStdout : string :=
  "1) " ++ CloudPublishService.quote ++ "Team A" ++ CloudPublishService.quote ++ " (111)"
  ++ newline ++
  "2) " ++ CloudPublishService.quote ++ "Team B" ++ CloudPublishService.quote ++ " (222)".

(** The output of fastlane that the source quotes next to the teams loop. *)
Definition fastlaneOutput : string :=
  "Multiple iTunes Connect teams found, please enter the number of the team you want to use:"
  ++ newline ++
  "Note: to automatically choose the team, provide either the iTunes Connect Team ID, or the Team Name in your fastlane/Appfile:"
  ++ newline ++
  "Alternatively you can pass the team name or team ID using the `FASTLANE_ITC_TEAM_ID` or `FASTLANE_ITC_TEAM_NAME` environment variable"
  ++ newline ++ newline ++
  "itc_team_id " ++ CloudPublishService.quote ++ "944446" ++ CloudPublishService.quote
  ++ newline ++ newline ++ "or" ++ newline ++ newline ++
  "itc_team_name " ++ CloudPublishService.quote ++ "Telerik A D" ++ CloudPublishService.quote
  ++ newline ++ newline ++
  "1) " ++ CloudPublishService.quote ++ "Telerik A D" ++ CloudPublishService.quote
  ++ " (944446)" ++ newline ++
  "2) " ++ CloudPublishService.quote ++ "Telerik AD" ++ CloudPublishService.quote
  ++ " (115499815)" ++ newline ++
  "Multiple teams found on iTunes Connect, Your Terminal is running in non-interactive mode! Cannot continue from here."
  ++ newline ++
  "Please check that you set FASTLANE_ITC_TEAM_ID or FASTLANE_ITC_TEAM_NAME to the right value.".

Definition teamsStderr : string :=
  "[!] Multiple iTunes Connect Teams found; unable to choose, terminal not interactive!".

Definition teamsResult : IBuildServerResult :=
  mkResult "Publishing failed" 1 teamsStdout teamsStderr [].

Definition itunesData : CloudPublishService.IItunesConnectPublishData :=
  CloudPublishService.mkItunes
    (CloudPublishService.mkCore ["/home/me/app.ipa"] "/home/me/app")
    (Some ("me@example.com", "secret")) None.

Definition googlePlayData : CloudPublishService.IGooglePlayPublishData :=
  CloudPublishService.mkGooglePlay
    (CloudPublishService.mkCore ["https://store/uploads/app.apk"] "/home/me/app")
    "/home/me/key.json" "".

Definition sampleRequest : CloudPublishService.IPublishRequestData :=
  CloudPublishService.mkRequest "org.nativescript.sample"
    (CloudPublishService.Apple "me@example.com" "secret")
    ["/home/me/app.ipa"] "iOS" None None.

(** The collaborators of a codesign generation whose wait fails and of whose
    operation nothing is known afterwards. *)
Definition failingCodesign : CloudCodesignService.Collaborators :=
  CloudCodesignService.mkCollaborators
    operation
    (fun _ _ _ => inr locations)
    (fun _ _ => Throw (newError "Generation of codesign files failed."))
    (fun _ => None)
    (fun _ _ => None).

Definition codesignData : CloudCodesignService.ICodesignData :=
  CloudCodesignService.mkCodesignData "me@example.com" "secret" "iOS" None.

(** A text in which the same marked line comes three times, other lines
    in between. *)
Definition repeatedStderr : string :=
  "[!] Something failed" ++ newline ++ "retrying" ++ newline ++
  "[!] Something failed" ++ newline ++ "[!] Giving up" ++ newline ++
  "[!] Something failed".

End Examples.

(** ** Notions used in the further properties *)

Section PollerNotions.
Context {service : CloudService}.
Variable statusObject : string -> nat -> option string.
Variable serverInformation : IServerResponse.
Import Poller.

(** A status request of the wait was answered with [status]. *)
Definition Observed (status : string) (st : State) : Prop :=
  exists k, k < requests st /\ statusObject (statusUrl serverInformation) k = Some status.

(** A suspended callback goes on as an answer of the server says: one
    that will resolve or reject has read a terminal status that was
    answered, and an answer that is awaited is an answer to a request that
    was sent. *)
Definition Justified (st : State) (entry : nat * Awaited) : Prop :=
  match snd entry with
  | Logs _ ThenResolve => Observed OPERATION_COMPLETE_STATUS st
  | Logs _ ThenReject => Observed OPERATION_FAILED_STATUS st
  | Logs _ ThenFetch => True
  | Status (Some status) => Observed status st
  | Status None => True
  end.

(** The log emissions that have not ended yet. *)
Definition suspendedLogs (l : Loop) : nat :=
  List.length (filter (fun entry => match snd entry with
                                    | Logs _ _ => true
                                    | Status _ => false
                                    end) (awaiting l)).

(** What holds of the polling phase at every step: the timer was set once;
    it is set exactly while the promise is pending, and was never cleared
    while it is set; every call of [clearInterval] follows a log emission
    of its own that has ended; the promise is settled only as a terminal
    status that was answered says; and the status the callbacks read was
    answered by the server. *)
Definition Polling (l : Loop) : Prop :=
  let st := state l in
  List.length (filter isSetInterval (events st)) = 1
  /\ (intervalActive st = true <-> promise st = Pending)
  /\ (intervalActive st = true -> filter isClearInterval (events st) = [])
  /\ List.length (filter isClearInterval (events st)) + suspendedLogs l <= logCalls st
  /\ (promise st = Pending
      \/ (promise st = Return tt /\ Observed OPERATION_COMPLETE_STATUS st)
      \/ (promise st = Throw (newError failedError)
          /\ Observed OPERATION_FAILED_STATUS st))
  /\ Observed (serverStatus st) st
  /\ Forall (Justified st) (awaiting l).

(** A status on which the wait goes on. *)
Definition nonTerminal (status : string) : Prop :=
  status <> OPERATION_COMPLETE_STATUS /\ status <> OPERATION_FAILED_STATUS.

(** A status the poller does not know. *)
Definition unknownStatus (status : string) : Prop :=
  nonTerminal status /\ status <> OPERATION_IN_PROGRESS_STATUS.

End PollerNotions.

Section FetcherNotions.
Variable transformedResult : string -> nat -> option IBuildServerResult.
Variable transformedBuildResultUrl : string.
Import TransformedResult.

(** What holds of a call of [getTransformedServerResult] at every step:
    the count is one more than the number of requests; the requests were
    sent at the firings of the timer, at most 6 of them; the timer is set
    exactly while the promise is pending; the latest firing was the one of
    the latest request, or the seventh, which gave up; the promise is never
    rejected, and it is resolved with an object only if a request that was
    sent is answered with it; and only requests that were sent are
    awaited. *)
Definition Fetching (st : State) : Prop :=
  let sent := List.length (requestTimes st) in
  retriesCount st = (1 + Z.of_nat sent)%Z
  /\ requestTimes st = firingTimes sent
  /\ sent <= 6
  /\ (intervalActive st = true <-> promise st = Pending)
  /\ (clock st = (GET_TRANSFORMED_RESULT_REQUEST_INTERVAL * Z.of_nat sent)%Z
      \/ (clock st = 3500%Z /\ sent = 6 /\ intervalActive st = false))
  /\ (promise st = Return None -> clock st = 3500%Z /\ sent = 6)
  /\ (forall e, promise st <> Throw e)
  /\ (forall result, promise st = Return (Some result) ->
        exists k, k < sent
                  /\ transformedResult transformedBuildResultUrl k = Some result)
  /\ Forall (fun k => k < sent) (awaiting st).

End FetcherNotions.

Section PublishNotions.
Import CloudPublishService.

(** The error was thrown by a collaborator of the publish service: by an
    upload, by the project data service, by the request to the server or
    by the fetch of the result. *)
Definition ThrownByCollaborator (world : Collaborators) (err : Js.Error) : Prop :=
  (exists packagePath name, uploadToS3 world packagePath name = inl err)
  \/ (exists projectDir, getProjectId world projectDir = inl err)
  \/ (exists request, publish world request = inl err)
  \/ (exists url, resultObject world url = inl err).

(** The error carries no identifier of an operation. *)
Definition NoOperationId (err : Js.Error) : Prop :=
  Js.buildId err = None /\ Js.cloudOperationId err = None.

End PublishNotions.

Section CodesignNotions.
Import CloudCodesignService.

(** The codesign data as [generateCodesignFiles] hands them on: [clean] is
    [true] when it was not given. *)
Definition withCleanDefault (data : ICodesignData) : ICodesignData :=
  mkCodesignData (username data) (password data) (platform data)
    (Some match clean data with Some c => c | None => true end).

(** The text [executeGeneration] gives as the reason of a failure. *)
Definition codesignFailureReason (codesignResult : IBuildServerResult) : string :=
  if includes (errors codesignResult) "403 Forbidden" then
    "The Code Signing Assistance service is temporary unavailable. Please try again later."
  else errors codesignResult.

End CodesignNotions.

(** ** The publish commands *)

Module CloudPublishCommand.

(** What the commands are given besides the publish service: the helpers
    that may throw ([None] when they do not), whether the terminal is
    interactive, the [track] option, the prompter, the build that gives the
    package to publish, the credentials helper and the directory of the
    project. *)
Record Environment := mkEnvironment {
  ensureEulaIsAccepted : option Js.Error;
  showErrorForStoppedCloudBuilds : option Js.Error;
  validateNoAab : option Js.Error;
  isInteractive : bool;
  optionsTrack : option string;
  getString : string -> Js.Error + string;
  buildForPublishingPlatform : string -> Js.Error + string;
  getExtendedAppleCredentials : list string -> Js.Error + (string * string);
  projectDataDir : string
}.

Section Commands.
Context {runtime : Runtime} {constants : Constants}.
Variable world : CloudPublishService.Collaborators.
Variable env : Environment.
(** [ERROR_MESSAGES.COMMAND_REQUIRES_APPLE_USERNAME_PASS] *)
Variable COMMAND_REQUIRES_APPLE_USERNAME_PASS : string.

(** [$errors.failWithHelp(message)] throws. *)
Definition failWithHelp (msg : string) : Js.Error := newError msg.

(** [CloudPublish.canExecute] *)
Definition canExecute (args : list string) : Completion bool :=
  match showErrorForStoppedCloudBuilds env with
  | Some err => Throw err
  | None =>
      match validateNoAab env with
      | Some err => Throw err
      | None => Return true
      end
  end.

(** [CloudPublishAndroid.canExecute] *)
Definition canExecuteAndroid (args : list string) : Completion bool :=
  match ensureEulaIsAccepted env with
  | Some err => Throw err
  | None =>
      match canExecute args with
      | Return _ =>
          if (1 <? List.length args)%nat
             || (negb (isInteractive env) && (List.length args <? 1)%nat)
          then Throw (failWithHelp
                 "The command accepts only one parameter - Path to authentication JSON")
          else Return true
      | Throw err => Throw err
      | Pending => Pending
      end
  end.

(** [CloudPublishIos.canExecute] *)
Definition canExecuteIos (args : list string) : Completion bool :=
  match ensureEulaIsAccepted env with
  | Some err => Throw err
  | None =>
      match canExecute args with
      | Return _ =>
          if (2 <? List.length args)%nat
             || (negb (isInteractive env) && (List.length args <? 1)%nat)
          then Throw (failWithHelp COMMAND_REQUIRES_APPLE_USERNAME_PASS)
          else Return true
      | Throw err => Throw err
      | Pending => Pending
      end
  end.

(** A value or the answer of the prompter when the value is falsy. *)
Definition orAsk (value : option string) (question : string) : Js.Error + string :=
  match value with
  | Some (String c s) => inr (String c s)
  | _ => getString env question
  end.

(** [CloudPublishAndroid.executeCore], observed as the publish it ends in
    is. *)
Definition executeCoreAndroid (schedule : list Poller.Action) (args : list string)
  : list CloudPublishService.Event * Completion unit :=
  match orAsk (nth_error args 0) "Path to auth JSON" with
  | inl err => ([], Throw err)
  | inr pathToAuthJson =>
      match orAsk (optionsTrack env) "Track" with
      | inl err => ([], Throw err)
      | inr track =>
          match buildForPublishingPlatform env (CloudPublishService.Android world) with
          | inl err => ([], Throw err)
          | inr packagePath =>
              CloudPublishService.publishToGooglePlay world schedule
                (CloudPublishService.mkGooglePlay
                   (CloudPublishService.mkCore [packagePath] (projectDataDir env))
                   pathToAuthJson track)
          end
      end
  end.

(** [CloudPublishIos.executeCore] *)
Definition executeCoreIos (schedule : list Poller.Action) (args : list string)
  : list CloudPublishService.Event * Completion unit :=
  match getExtendedAppleCredentials env args with
  | inl err => ([], Throw err)
  | inr credentials =>
      match buildForPublishingPlatform env (CloudPublishService.iOS world) with
      | inl err => ([], Throw err)
      | inr packagePath =>
          CloudPublishService.publishToItunesConnect world schedule
            (CloudPublishService.mkItunes
               (CloudPublishService.mkCore [packagePath] (projectDataDir env))
               (Some credentials) None)
      end
  end.

End Commands.

End CloudPublishCommand.

(** ** Further samples *)

Module Scenarios.

(** An operation that is never done, and one whose status the poller does
    not know. *)
Definition stillBuilding : string -> nat -> option string := fun _ _ => Some "Building".
Definition queued : string -> nat -> option string := fun _ _ => Some "Queued".

(** Five firings of the timer whose callbacks are all suspended together:
    what they await ends in the reverse order. *)
Definition reversed : list Poller.Action :=
  (repeat Poller.Fire 5
   ++ map (fun id => Poller.Settle id 900) [4; 3; 2; 1; 0])%list.

Definition iosOutput : IOutputDirectoryOptions := mkOutputOptions "/home/me/app" "iOS" false.

(** A transfer that fails for the provisioning profile. *)
Definition brokenProvision : string -> string -> option Js.Error :=
  fun url _ =>
    if String.eqb url "https://store/out/dev.mobileprovision"
    then Some (newError "socket hang up")
    else None.

(** A codesign generation whose wait fails, while the result of the
    operation is known. *)
Definition recoveringCodesign : CloudCodesignService.Collaborators :=
  CloudCodesignService.mkCollaborators
    Examples.operation
    (fun _ _ _ => inr Examples.locations)
    (fun _ _ => Throw (newError "Generation of codesign files failed."))
    (fun _ => Some Examples.codesignResult)
    (fun _ _ => None).

(** A codesign generation that ends in the given result. *)
Definition codesignEndingIn (codesignResult : IBuildServerResult)
  : CloudCodesignService.Collaborators :=
  CloudCodesignService.mkCollaborators
    Examples.operation
    (fun _ _ _ => inr Examples.locations)
    (fun _ _ => Return codesignResult)
    (fun _ => None)
    (fun _ _ => None).

Definition forbiddenResult : IBuildServerResult :=
  mkResult "Request failed: 403 Forbidden" 1 "" "denied" [].

Definition packageOnlyResult : IBuildServerResult :=
  mkResult "" 0 "" "" [Examples.package].

(** A publish whose operation succeeds at once. *)
Definition quickStore : CloudPublishService.Collaborators :=
  Examples.store (Examples.answers [Some "Success"]) (inr Examples.cleanResult).

(** A terminal that is not interactive, with no [track] option and a
    prompter that answers with the empty string. *)
Definition terminal : CloudPublishCommand.Environment :=
  CloudPublishCommand.mkEnvironment
    None None None false None
    (fun _ => inr "")
    (fun platform => inr ("/home/me/app/build/" ++ platform ++ ".pkg"))
    (fun _ => inr ("me@example.com", "secret"))
    "/home/me/app".

End Scenarios.

(** * Properties *)

(** ** Strings and the regular expressions *)

Section StringFacts.

Lemma append_assoc (a b c : string) : (a ++ b) ++ c = a ++ (b ++ c).
Proof. induction a as [|x a IH]; simpl; [|rewrite IH]; reflexivity. Qed.

Lemma append_empty (a : string) : a ++ "" = a.
Proof. induction a as [|x a IH]; simpl; [|rewrite IH]; reflexivity. Qed.

Lemma length_append (a b : string) :
  String.length (a ++ b) = String.length a + String.length b.
Proof. induction a as [|x a IH]; simpl; [|rewrite IH]; reflexivity. Qed.

Lemma substring_prefix (b c : string) :
  substring 0 (String.length b) (b ++ c) = b.
Proof.
  induction b as [|x b IH]; simpl.
  - destruct c; reflexivity.
  - rewrite IH. reflexivity.
Qed.

Lemma substring_middle (a b c : string) :
  substring (String.length a) (String.length b) (a ++ b ++ c) = b.
Proof.
  induction a as [|x a IH]; simpl; [apply substring_prefix | exact IH].
Qed.

Lemma skip_split (n : nat) :
  forall str, n <= String.length str ->
    exists a, str = a ++ skip n str /\ String.length a = n.
Proof.
  induction n as [|n IH]; intros str Hn.
  - exists "". split; reflexivity.
  - destruct str as [|c str]; simpl in Hn; [lia|].
    destruct (IH str) as (a & E & L); [lia|].
    exists (String c a). simpl. rewrite <- E, L. split; reflexivity.
Qed.

End StringFacts.

Section RegExpFacts.
Import RegExp.

Lemma matchHere_lits (marker : string) (p : Pattern) :
  forall s r,
    matchHere (lits marker ++ p)%list s = Some r ->
    exists s', s = marker ++ s' /\ matchHere p s' = Some r.
Proof.
  induction marker as [|c marker IH]; intros s r H.
  - exists s. split; [reflexivity | exact H].
  - change (lits (String c marker) ++ p)%list with (Lit c :: (lits marker ++ p))%list in H.
    cbn [matchHere] in H. destruct s as [|c' s]; [discriminate|].
    destruct (Ascii.eqb c c') eqn:E; [|discriminate].
    apply Ascii.eqb_eq in E. subst c'.
    destruct (IH s r H) as (s' & -> & H'). exists s'. split; [reflexivity | exact H'].
Qed.

(** The dot star at the end of a pattern takes the rest of the line. *)
Lemma starDot_last (k : string -> option Matched) (s : string) :
  (forall s', k s' = Some ([], s')) ->
  forall r, starDot k s = Some r ->
    exists line,
      s = line ++ snd r /\ oneLine line = true /\ atLineEnd (snd r) = true /\ fst r = [].
Proof.
  intros Hk. induction s as [|c s IH]; intros r H; cbn [starDot] in H.
  - rewrite Hk in H. injection H as <-. exists "". repeat split.
  - destruct (isLineTerminator c) eqn:E.
    + rewrite Hk in H. injection H as <-. exists "". repeat split. exact E.
    + destruct (starDot k s) as [r'|] eqn:E'.
      * injection H as <-. destruct (IH r' eq_refl) as (line & Hs & Hl & He & Hc).
        exists (String c line). simpl. rewrite E, Hl, <- Hs. repeat split; assumption.
      * exfalso. clear - Hk E'. destruct s as [|c' s]; cbn [starDot] in E'.
        -- rewrite Hk in E'. discriminate.
        -- destruct (isLineTerminator c'); [rewrite Hk in E'; discriminate|].
           destruct (starDot k s); [discriminate | rewrite Hk in E'; discriminate].
Qed.

Lemma search_found (p : Pattern) :
  forall s i j r,
    search p s i = Some (j, r) ->
    exists pre s', s = pre ++ s' /\ j = i + String.length pre /\ matchHere p s' = Some r.
Proof.
  induction s as [|c s IH]; intros i j r H; simpl in H.
  - destruct (matchHere p "") as [m|] eqn:E; [|discriminate].
    injection H as <- <-. exists "", "". repeat split; [simpl; lia | exact E].
  - destruct (matchHere p (String c s)) as [m|] eqn:E.
    + injection H as <- <-. exists "", (String c s). repeat split; [simpl; lia | exact E].
    + destruct (IH _ _ _ H) as (pre & s' & -> & -> & Hm).
      exists (String c pre), s'. repeat split; [simpl; lia | exact Hm].
Qed.

(** A match of a marker followed by the dot star is the marker and what
    follows it on its line, up to the end of the line. *)
Lemma exec_marker (marker str : string) (lastIndex e : nat) (m : ExecResult) :
  exec (lits marker ++ [DotStar])%list str lastIndex = (Some m, e) ->
  exists before line rest,
    str = before ++ match0 m ++ rest
    /\ match0 m = marker ++ line
    /\ oneLine line = true
    /\ atLineEnd rest = true.
Proof.
  unfold exec. intros H.
  destruct (String.length str <? lastIndex)%nat eqn:Hlt; [discriminate|].
  apply Nat.ltb_ge in Hlt.
  destruct (search _ _ _) as [[i [caps rest]]|] eqn:Hs; [|discriminate].
  injection H as <- <-. cbn [match0].
  destruct (search_found _ _ _ _ _ Hs) as (pre & s' & Hskip & -> & Hm).
  destruct (matchHere_lits _ _ _ _ Hm) as (s'' & -> & Hstar).
  destruct (starDot_last _ _ (fun s => eq_refl) _ Hstar) as (line & -> & Hline & Hend & _).
  simpl snd in *.
  destruct (skip_split lastIndex str Hlt) as (a & Hstr & <-).
  rewrite Hskip in Hstr.
  assert (Hcut : substring (String.length a + String.length pre)
                   (String.length str - String.length rest
                    - (String.length a + String.length pre)) str = marker ++ line).
  { rewrite Hstr. rewrite !length_append.
    replace (String.length a + (String.length pre
               + (String.length marker + (String.length line + String.length rest)))
             - String.length rest - (String.length a + String.length pre))
      with (String.length (marker ++ line)) by (rewrite length_append; lia).
    rewrite <- length_append.
    replace (a ++ pre ++ marker ++ line ++ rest)
      with ((a ++ pre) ++ (marker ++ line) ++ rest)
      by (rewrite !append_assoc; reflexivity).
    apply substring_middle. }
  exists (a ++ pre), line, rest. rewrite Hcut.
  repeat split; try assumption.
  rewrite Hstr at 1. rewrite !append_assoc. reflexivity.
Qed.

Lemma matchLoop_marker (marker str : string) :
  forall fuel lastIndex x,
    In x (matchLoop fuel (lits marker ++ [DotStar])%list str lastIndex) ->
    exists before line rest,
      str = before ++ x ++ rest
      /\ x = marker ++ line
      /\ oneLine line = true
      /\ atLineEnd rest = true.
Proof.
  induction fuel as [|fuel IH]; intros lastIndex x H; simpl in H; [contradiction|].
  destruct (exec _ str lastIndex) as [[m|] e] eqn:E; [|contradiction].
  destruct H as [<- | H].
  - eapply exec_marker. exact E.
  - eapply IH. exact H.
Qed.

Lemma matchGlobal_marker (marker str : string) (found : list string) (x : string) :
  matchGlobal (lits marker ++ [DotStar])%list str = Some found -> In x found ->
  exists before line rest,
    str = before ++ x ++ rest
    /\ x = marker ++ line
    /\ oneLine line = true
    /\ atLineEnd rest = true.
Proof.
  unfold matchGlobal. intros H Hx.
  destruct (matchLoop _ _ _ _) as [|y l] eqn:E; [discriminate|].
  injection H as <-. rewrite <- E in Hx. eapply matchLoop_marker. exact Hx.
Qed.
End RegExpFacts.

Section MatchLength.
Import RegExp.

Lemma plusDigits_shrinks (k : string -> option Matched) :
  Shrinks k ->
  forall s r, plusDigits k s = Some r -> String.length (snd r) < String.length s.
Proof.
  intros Hk. induction s as [|c s IH]; intros r H; cbn [plusDigits] in H; [discriminate|].
  destruct (isDigit c); [|discriminate].
  destruct (plusDigits k s) as [r'|] eqn:E.
  - injection H as <-. specialize (IH r' eq_refl). simpl. lia.
  - apply Hk in H. simpl. lia.
Qed.

Lemma starDot_shrinks (k : string -> option Matched) :
  Shrinks k -> Shrinks (starDot k).
Proof.
  intros Hk. unfold Shrinks. induction s as [|c s IH]; intros r H; cbn [starDot] in H.
  - apply Hk in H. exact H.
  - destruct (isLineTerminator c); [apply Hk in H; exact H|].
    destruct (starDot k s) as [r'|] eqn:E.
    + injection H as <-. specialize (IH r' eq_refl). simpl. lia.
    + apply Hk in H. exact H.
Qed.

Lemma starDotGroup_shrinks (k : string -> option Matched) :
  Shrinks k ->
  forall s text r, starDotGroup k s = Some (text, r) ->
    String.length (snd r) <= String.length s.
Proof.
  intros Hk. induction s as [|c s IH]; intros text r H; cbn [starDotGroup] in H.
  - destruct (k "") as [r'|] eqn:E; [|discriminate]. injection H as _ <-.
    apply Hk in E. exact E.
  - assert (Hcap : forall t r0, capture "" (k (String c s)) = Some (t, r0) ->
                     String.length (snd r0) <= String.length (String c s)).
    { intros t r0 Hc. destruct (k (String c s)) as [r'|] eqn:E; [|discriminate].
      injection Hc as _ <-. apply Hk in E. exact E. }
    destruct (isLineTerminator c); [eapply Hcap; exact H|].
    destruct (starDotGroup k s) as [[t r']|] eqn:E.
    + injection H as _ <-. specialize (IH t r' eq_refl). simpl. lia.
    + eapply Hcap; exact H.
Qed.

Lemma matchHere_shrinks (p : Pattern) : Shrinks (matchHere p).
Proof.
  induction p as [|node p IH]; intros s r H.
  - injection H as <-. simpl. lia.
  - destruct node; cbn [matchHere] in H.
    + destruct s as [|c' s]; [discriminate|].
      destruct (Ascii.eqb c c'); [|discriminate]. apply IH in H. simpl. lia.
    + apply (plusDigits_shrinks _ IH) in H. lia.
    + apply (starDot_shrinks _ IH) in H. exact H.
    + destruct (starDotGroup (matchHere p) s) as [[text [caps rest]]|] eqn:E; [|discriminate].
      injection H as <-. apply (starDotGroup_shrinks _ IH) in E. exact E.
Qed.

Lemma substring_none (n : nat) : forall s, substring n 0 s = "".
Proof.
  induction n as [|n IH]; intros [|c s]; simpl; try reflexivity. apply IH.
Qed.

(** Where [exec] finds a match: not before [lastIndex]; the new [lastIndex]
    is the end of the match, within the string. *)
Lemma exec_bounds (p : Pattern) (str : string) (lastIndex e : nat) (m : ExecResult) :
  exec p str lastIndex = (Some m, e) ->
  lastIndex <= index m /\ index m <= e /\ e <= String.length str
  /\ (match0 m <> "" -> index m < e).
Proof.
  unfold exec. intros H.
  destruct (String.length str <? lastIndex)%nat eqn:Hlt; [discriminate|].
  apply Nat.ltb_ge in Hlt.
  destruct (search _ _ _) as [[i [caps rest]]|] eqn:Hs; [|discriminate].
  injection H as <- <-. cbn [index match0].
  destruct (search_found _ _ _ _ _ Hs) as (pre & s' & Hskip & -> & Hm).
  apply matchHere_shrinks in Hm. simpl in Hm.
  destruct (skip_split lastIndex str Hlt) as (a & Hstr & <-).
  rewrite Hskip in Hstr.
  assert (Hlen : String.length str
                 = String.length a + (String.length pre + String.length s')).
  { rewrite Hstr at 1. rewrite !length_append. reflexivity. }
  repeat split; try lia.
  intros Hne.
  destruct (Nat.le_gt_cases (String.length str - String.length rest)
              (String.length a + String.length pre)) as [Hle | Hgt]; [|exact Hgt].
  exfalso. apply Hne.
  replace (String.length str - String.length rest
           - (String.length a + String.length pre)) with 0 by lia.
  apply substring_none.
Qed.

(** [str.match]: more [exec] calls than [length str + 2] change nothing. *)
Lemma matchLoop_fuel (p : Pattern) (str : string) :
  forall fuel1 fuel2 lastIndex,
    String.length str + 1 - lastIndex < fuel1 ->
    String.length str + 1 - lastIndex < fuel2 ->
    matchLoop fuel1 p str lastIndex = matchLoop fuel2 p str lastIndex.
Proof.
  induction fuel1 as [|fuel1 IH]; intros fuel2 lastIndex H1 H2; [lia|].
  destruct fuel2 as [|fuel2]; [lia|]. cbn [matchLoop].
  destruct (exec p str lastIndex) as [[m|] e] eqn:E; [|reflexivity].
  destruct (exec_bounds _ _ _ _ _ E) as (Hi & He & Hs & Hne).
  f_equal. destruct (match0 m) eqn:Em.
  - apply IH; lia.
  - assert (index m < e) by (apply Hne; discriminate). apply IH; lia.
Qed.

Lemma matchGlobal_fuel (p : Pattern) (str : string) (fuel : nat) :
  String.length str + 2 <= fuel ->
  matchLoop fuel p str 0 = matchLoop (String.length str + 2) p str 0.
Proof. intros H. apply matchLoop_fuel; lia. Qed.
End MatchLength.

Section TeamsLoopFuel.
Import RegExp CloudPublishService.

(** A match of the teams expression takes at least its digit. *)
Lemma exec_teams_advances (str : string) (lastIndex e : nat) (m : ExecResult) :
  exec IOS_TEAMS_REGEX str lastIndex = (Some m, e) ->
  lastIndex < e /\ e <= String.length str.
Proof.
  unfold exec. intros H.
  destruct (String.length str <? lastIndex)%nat eqn:Hlt; [discriminate|].
  apply Nat.ltb_ge in Hlt.
  destruct (search _ _ _) as [[i [caps rest]]|] eqn:Hs; [|discriminate].
  injection H as _ <-.
  destruct (search_found _ _ _ _ _ Hs) as (pre & s' & Hskip & -> & Hm).
  unfold IOS_TEAMS_REGEX in Hm. cbn [List.app matchHere] in Hm.
  apply plusDigits_shrinks in Hm; [|apply matchHere_shrinks]. simpl in Hm.
  destruct (skip_split lastIndex str Hlt) as (a & Hstr & <-).
  rewrite Hskip in Hstr.
  assert (Hlen : String.length str
                 = String.length a + (String.length pre + String.length s')).
  { rewrite Hstr at 1. rewrite !length_append. reflexivity. }
  lia.
Qed.

(** The teams loop: more iterations than [length stdout + 1] change
    nothing, so the loop of [iosTeamNames] ends because [exec] finds no
    further match. *)
Lemma teamsLoop_fuel (stdout : string) :
  forall fuel1 fuel2 lastIndex teamNames,
    String.length stdout - lastIndex < fuel1 ->
    String.length stdout - lastIndex < fuel2 ->
    teamsLoop fuel1 stdout lastIndex teamNames = teamsLoop fuel2 stdout lastIndex teamNames.
Proof.
  induction fuel1 as [|fuel1 IH]; intros fuel2 lastIndex teamNames H1 H2; [lia|].
  destruct fuel2 as [|fuel2]; [lia|]. cbn [teamsLoop].
  destruct (exec IOS_TEAMS_REGEX stdout lastIndex) as [[m|] e] eqn:E; [|reflexivity].
  destruct (exec_teams_advances _ _ _ _ E) as (Hlt & Hle).
  apply IH; lia.
Qed.

Lemma iosTeamNames_fuel (stdout : string) (fuel : nat) :
  String.length stdout < fuel ->
  teamsLoop fuel stdout 0 [] = iosTeamNames stdout.
Proof. intros H. apply teamsLoop_fuel; lia. Qed.
End TeamsLoopFuel.

(** ** The values [_.uniq] keeps *)

Section UniqFacts.
Import Lodash.

Lemma sorted_add_last {A : Type} (R : A -> A -> Prop) (l : list A) (c : A) :
  StronglySorted R l -> Forall (fun x => R x c) l -> StronglySorted R (l ++ [c]).
Proof.
  induction 1 as [|x l Hs IH Hx]; intros Hall; simpl.
  - repeat constructor.
  - inversion Hall; subst. constructor; [auto|].
    apply Forall_app; split; [assumption|]. repeat constructor; assumption.
Qed.

Lemma includesValue_In (x : string) (l : list string) :
  includesValue x l = true <-> In x l.
Proof.
  unfold includesValue. rewrite existsb_exists. split.
  - intros (y & Hy & E). apply String.eqb_eq in E. subst. exact Hy.
  - intros H. exists x. split; [exact H | apply String.eqb_refl].
Qed.

Lemma firstIndex_In (x : string) (l : list string) :
  In x l -> firstIndex x l < List.length l.
Proof.
  induction l as [|y l IH]; simpl; [contradiction|].
  intros H. destruct (String.eqb x y) eqn:E; [lia|].
  destruct H as [H | H]; [subst; rewrite String.eqb_refl in E; discriminate|].
  apply IH in H. lia.
Qed.

Lemma firstIndex_new (x : string) (l : list string) :
  ~ In x l -> firstIndex x (l ++ [x]) = List.length l.
Proof.
  induction l as [|y l IH]; simpl; intros H.
  - rewrite String.eqb_refl. reflexivity.
  - destruct (String.eqb x y) eqn:E.
    + apply String.eqb_eq in E. subst. exfalso. apply H. left. reflexivity.
    + rewrite IH; [reflexivity|]. intros Hin. apply H. right. exact Hin.
Qed.

Lemma firstIndex_app (x : string) (l rest : list string) :
  In x l -> firstIndex x (l ++ rest) = firstIndex x l.
Proof.
  induction l as [|y l IH]; simpl; [contradiction|].
  intros H. destruct (String.eqb x y) eqn:E; [reflexivity|].
  destruct H as [H | H]; [subst; rewrite String.eqb_refl in E; discriminate|].
  rewrite IH by assumption. reflexivity.
Qed.

Lemma baseUniq_keeps (array : list string) :
  forall seen kept, Kept seen kept -> Kept (seen ++ array) (baseUniq kept array).
Proof.
  induction array as [|value rest IH]; intros seen kept [Hin Hsorted]; simpl.
  - rewrite app_nil_r. split; assumption.
  - replace (seen ++ value :: rest)%list with ((seen ++ [value]) ++ rest)%list
      by (rewrite <- app_assoc; reflexivity).
    assert (Hsame : map (fun x => firstIndex x (seen ++ [value])) kept
                    = map (fun x => firstIndex x seen) kept).
    { apply map_ext_in. intros x Hx. apply firstIndex_app. apply Hin. exact Hx. }
    destruct (includesValue value kept) eqn:E; apply IH.
    + apply includesValue_In in E. split.
      * intros x. rewrite in_app_iff, Hin. simpl. intuition (subst; auto).
        apply Hin. exact E.
      * rewrite Hsame. exact Hsorted.
    + assert (Hnew : ~ In value seen).
      { intros H. apply Hin in H. apply includesValue_In in H. congruence. }
      split.
      * intros x. rewrite !in_app_iff, Hin. simpl. tauto.
      * rewrite map_app, Hsame. simpl. apply sorted_add_last; [exact Hsorted|].
        rewrite firstIndex_new by exact Hnew.
        apply Forall_forall. intros n Hn. apply in_map_iff in Hn.
        destruct Hn as (x & <- & Hx). apply firstIndex_In. apply Hin. exact Hx.
Qed.

Lemma sorted_lt_NoDup (f : string -> nat) (l : list string) :
  StronglySorted lt (map f l) -> NoDup l.
Proof.
  induction l as [|x l IH]; simpl; intros H; [constructor|].
  inversion H as [|? ? Hs Hall]; subst. constructor; [|auto].
  intros Hin. rewrite Forall_forall in Hall.
  specialize (Hall (f x) (in_map f l x Hin)). lia.
Qed.
End UniqFacts.

(** ** The listing of the teams *)

Section TeamListing.
Import RegExp CloudPublishService.


Lemma matchHere_lits_app (marker : string) (p : Pattern) (s : string) :
  matchHere (lits marker ++ p)%list (marker ++ s) = matchHere p s.
Proof.
  induction marker as [|c marker IH]; [reflexivity|].
  change (lits (String c marker) ++ p)%list with (Lit c :: (lits marker ++ p))%list.
  simpl. rewrite Ascii.eqb_refl. exact IH.
Qed.










Lemma search_here (p : Pattern) (s : string) (i : nat) (r : Matched) :
  matchHere p s = Some r -> search p s i = Some (i, r).
Proof. intros H. destruct s; cbn [search]; rewrite H; reflexivity. Qed.







End TeamListing.

(** The teams loop on the output the source quotes: the two team names. *)
Lemma iosTeamNames_fastlane_output :
  CloudPublishService.iosTeamNames Examples.fastlaneOutput = ["Telerik A D"; "Telerik AD"].
Proof. vm_compute. reflexivity. Qed.

(** ** The status poller *)

(** The fields of a loop state after a step. *)
Ltac loop_fields :=
  cbv beta iota zeta delta
    [Poller.callLogs Poller.getStatus Poller.record Poller.at_ Poller.setCursor
     Poller.setStatus Poller.settle Poller.settleOnce Poller.clearInterval];
  cbn [Poller.state Poller.fired Poller.firedAt Poller.awaiting Poller.clock
       Poller.requests Poller.logCalls Poller.outputCursorPosition Poller.serverStatus
       Poller.intervalActive Poller.promise Poller.events Poller.take List.app].

Section PollerFacts.
Context {service : CloudService}.
Variable statusObject : string -> nat -> option string.
Variable operationId : string.
Variable serverInformation : IServerResponse.

Import Poller.

#[local] Abbreviation url := (statusUrl serverInformation).
#[local] Abbreviation firstStatus := (Poller.firstStatus statusObject serverInformation).
#[local] Abbreviation step := (Poller.step statusObject operationId serverInformation).
#[local] Abbreviation run := (Poller.run statusObject operationId serverInformation).
#[local] Abbreviation wait :=
  (Poller.waitForServerOperationToFinish statusObject operationId serverInformation).
#[local] Abbreviation observed := (Observed statusObject serverInformation).

Lemma logCursors_app (l1 l2 : list Event) :
  logCursors (l1 ++ l2) = (logCursors l1 ++ logCursors l2)%list.
Proof.
  induction l1 as [|e l1 IH]; simpl; [reflexivity|].
  destruct e; simpl; rewrite IH; reflexivity.
Qed.

Lemma requestTimes_app (l1 l2 : list Event) :
  requestTimes (l1 ++ l2) = (requestTimes l1 ++ requestTimes l2)%list.
Proof.
  induction l1 as [|e l1 IH]; simpl; [reflexivity|].
  destruct e; simpl; rewrite IH; reflexivity.
Qed.

#[local] Abbreviation requested := (Poller.requested statusObject serverInformation).

Lemma firstStatus_fails (st : State) :
  statusObject url (requests st) = None ->
  firstStatus st = (requested st, inl (newError failedToStartError)).
Proof.
  intros H. unfold Poller.requested, Poller.firstStatus, getStatus. rewrite H. reflexivity.
Qed.

Lemma firstStatus_answers (st : State) (status : string) :
  statusObject url (requests st) = Some status ->
  firstStatus st = (requested st, inr status).
Proof.
  intros H. unfold Poller.requested, Poller.firstStatus, getStatus. rewrite H. reflexivity.
Qed.

Lemma requested_fields (st : State) :
  requests (requested st) = S (requests st)
  /\ logCalls (requested st) = logCalls st
  /\ logCursors (events (requested st)) = logCursors (events st)
  /\ promise (requested st) = promise st
  /\ intervalActive (requested st) = intervalActive st
  /\ clock (requested st) = clock st
  /\ outputCursorPosition (requested st) = outputCursorPosition st
  /\ serverStatus (requested st) = serverStatus st.
Proof.
  unfold Poller.requested, getStatus; simpl. rewrite logCursors_app; simpl.
  rewrite app_nil_r. repeat split.
Qed.

(** The first phase: [f] failed requests and then an answer, with enough
    timeouts left, end in that answer. *)
Lemma attempt_answer (status : string) :
  forall (f : nat) (remaining : list Z) (st : State),
    f <= List.length remaining ->
    (forall k, k < f -> statusObject url (requests st + k) = None) ->
    statusObject url (requests st + f) = Some status ->
    exists st',
      PromiseRetry.attempt firstStatus sleep remaining st = (st', inr status)
      /\ requests st' = requests st + S f
      /\ logCalls st' = logCalls st
      /\ logCursors (events st') = logCursors (events st)
      /\ promise st' = promise st
      /\ intervalActive st' = intervalActive st.
Proof.
  induction f as [|f IH]; intros remaining st Hlen Hfail Hok.
  - rewrite Nat.add_0_r in Hok.
    exists (requested st).
    destruct (requested_fields st) as (R & L & C & P & I & _).
    destruct remaining; simpl; rewrite (firstStatus_answers _ _ Hok);
      repeat split; try assumption; lia.
  - destruct remaining as [|t remaining]; [simpl in Hlen; lia|].
    simpl. rewrite firstStatus_fails
      by (rewrite <- (Nat.add_0_r (requests st)); apply Hfail; lia).
    destruct (requested_fields st) as (R & L & C & P & I & _).
    destruct (IH remaining (sleep t (requested st))) as (st' & E & R' & L' & C' & P' & I').
    + simpl in Hlen. lia.
    + intros k Hk. simpl.
      replace (S (requests st + k)) with (requests st + S k) by lia.
      apply Hfail. lia.
    + simpl.
      replace (S (requests st + f)) with (requests st + S f) by lia. exact Hok.
    + exists st'. rewrite E. simpl in *.
      repeat split; try congruence; lia.
Qed.

(** *** Schedules *)

Lemma run_app (s1 s2 : list Action) :
  forall l, run (s1 ++ s2) l = run s2 (run s1 l).
Proof. induction s1 as [|a s1 IH]; intros l; [reflexivity | apply IH]. Qed.

Lemma firings_app (s1 s2 : list Action) :
  firings (s1 ++ s2) = firings s1 + firings s2.
Proof. unfold firings. rewrite filter_app, length_app. reflexivity. Qed.

(** What holds before a step and is kept by every step holds after every
    schedule. *)
Lemma run_keeps (P : Loop -> Prop) :
  (forall a l, P l -> P (step a l)) ->
  forall schedule l, P l -> P (run schedule l).
Proof.
  intros Hstep. induction schedule as [|a rest IH]; intros l H; [exact H|].
  apply IH. apply Hstep. exact H.
Qed.

Lemma take_found (id : nat) :
  forall (suspended others : list (nat * Awaited)) (found : Awaited),
    take id suspended = Some (found, others) ->
    In (id, found) suspended
    /\ (forall entry, In entry others -> In entry suspended)
    /\ List.length suspended = S (List.length others).
Proof.
  induction suspended as [|[i a] rest IH]; intros others found H; [discriminate|].
  cbn [take] in H. destruct (Nat.eqb i id) eqn:E.
  - injection H as <- <-. apply Nat.eqb_eq in E. subst i.
    repeat split; [left; reflexivity | intros entry He; right; exact He].
  - destruct (take id rest) as [[found' others']|] eqn:Et; [|discriminate].
    injection H as <- <-. destruct (IH _ _ eq_refl) as (Hin & Hothers & Hlen).
    split; [right; exact Hin|]. split.
    + intros entry [<- | He]; [left; reflexivity | right; apply Hothers; exact He].
    + simpl. rewrite Hlen. reflexivity.
Qed.

(** *** A callback that ends before the timer fires again *)

(** The turn of a callback that finds the status [Building]: the logs are
    emitted, then the status is requested; a failed request leaves the
    status as it is. *)
Lemma turn_in_progress (st : State) (id : nat) (time d1 d2 cursor' : Z)
      (rest : list Action) :
  intervalActive st = true ->
  serverStatus st = OPERATION_IN_PROGRESS_STATUS ->
  getServerLogs (logCalls st) (outputUrl serverInformation) operationId
                (outputCursorPosition st) = Some cursor' ->
  let fires := (time + OPERATION_STATUS_CHECK_INTERVAL)%Z in
  run (Fire :: Settle id d1 :: Settle id d2 :: rest) (mkLoop st id time []) =
  run rest
    (mkLoop
       (mkState (fires + d2) (S (requests st)) (S (logCalls st)) cursor'
          (match statusObject url (requests st) with
           | Some status => status
           | None => OPERATION_IN_PROGRESS_STATUS
           end)
          true (promise st)
          (events st ++ [GetServerLogs fires (outputCursorPosition st);
                         FetchStatus (fires + d1) url (statusObject url (requests st))]))
       (S id) fires []).
Proof.
  intros Ha Hs Hlogs fires. destruct st as [c r n p s a pr ev].
  cbn [intervalActive serverStatus logCalls outputCursorPosition requests promise events]
    in *.
  subst a s. cbn [Poller.run Poller.step]. unfold Poller.fire.
  cbn [state intervalActive serverStatus].
  cbn [String.eqb Ascii.eqb Bool.eqb OPERATION_IN_PROGRESS_STATUS OPERATION_COMPLETE_STATUS
       OPERATION_FAILED_STATUS].
  unfold awaitLogs. loop_fields.
  unfold resume at 2. loop_fields. rewrite Nat.eqb_refl. loop_fields.
  rewrite Hlogs. unfold awaitStatus. loop_fields.
  unfold resume. loop_fields. rewrite Nat.eqb_refl. fold fires.
  destruct (statusObject url r); loop_fields; rewrite <- ?app_assoc; reflexivity.
Qed.
(** The turn of a callback that finds a terminal status: the logs are
    emitted, the timer is cleared and the promise is settled. The second
    end the schedule holds finds nothing suspended. *)
Lemma turn_terminal (st : State) (id : nat) (time d1 d2 cursor' : Z)
      (rest : list Action) (terminal : string) :
  terminal = OPERATION_COMPLETE_STATUS \/ terminal = OPERATION_FAILED_STATUS ->
  intervalActive st = true ->
  promise st = Pending ->
  serverStatus st = terminal ->
  getServerLogs (logCalls st) (outputUrl serverInformation) operationId
                (outputCursorPosition st) = Some cursor' ->
  let fires := (time + OPERATION_STATUS_CHECK_INTERVAL)%Z in
  run (Fire :: Settle id d1 :: Settle id d2 :: rest) (mkLoop st id time []) =
  run rest
    (mkLoop
       (mkState (fires + d1) (requests st) (S (logCalls st)) cursor' terminal false
          (expected terminal)
          (events st ++ [GetServerLogs fires (outputCursorPosition st);
                         ClearInterval (fires + d1)]))
       (S id) fires []).
Proof.
  intros Hterm Ha Hp Hs Hlogs fires. destruct st as [c r n p s a pr ev].
  cbn [intervalActive serverStatus logCalls outputCursorPosition requests promise events]
    in *.
  subst a s pr. cbn [Poller.run Poller.step]. unfold Poller.fire, expected.
  cbn [state intervalActive serverStatus].
  destruct Hterm as [-> | ->];
    cbn [String.eqb Ascii.eqb Bool.eqb OPERATION_IN_PROGRESS_STATUS
         OPERATION_COMPLETE_STATUS OPERATION_FAILED_STATUS];
    unfold awaitLogs; loop_fields;
    unfold resume at 2; loop_fields; rewrite Nat.eqb_refl; loop_fields;
    rewrite Hlogs; loop_fields;
    unfold resume; loop_fields; fold fires;
    rewrite <- ?app_assoc; reflexivity.
Qed.

(** Once the timer is cleared and nothing is suspended, nothing happens. *)
Lemma inTurn_idle (st : State) (n : nat) (time : Z) :
  intervalActive st = false ->
  forall (delays : list (Z * Z)) (id : nat),
    run (inTurn id delays) (mkLoop st n time []) = mkLoop st n time [].
Proof.
  intros Ha. induction delays as [|[d1 d2] delays IH]; intros id; [reflexivity|].
  cbn [inTurn Poller.run Poller.step]. unfold Poller.fire, resume.
  cbn [state awaiting take]. rewrite Ha. cbn [state awaiting take]. apply IH.
Qed.

(** The polling phase, from a state whose status is the head of the
    sequence and whose coming answers are its tail, when every callback
    ends before the timer fires again. *)
Lemma inTurn_sequence (terminal : string) :
  terminal = OPERATION_COMPLETE_STATUS \/ terminal = OPERATION_FAILED_STATUS ->
  LogsAdvance ->
  forall (n : nat) (st : State) (id : nat) (time : Z) (delays : list (Z * Z)),
    intervalActive st = true ->
    promise st = Pending ->
    serverStatus st = nth 0 (repeat OPERATION_IN_PROGRESS_STATUS n ++ [terminal]) "" ->
    (forall k, k < n ->
       statusObject url (requests st + k) =
       Some (nth (S k) (repeat OPERATION_IN_PROGRESS_STATUS n ++ [terminal]) "")) ->
    StronglySorted Z.le (logCursors (events st)) ->
    Forall (fun c => (c <= outputCursorPosition st)%Z) (logCursors (events st)) ->
    S n <= List.length delays ->
    let st' := state (run (inTurn id delays) (mkLoop st id time [])) in
    promise st' = expected terminal
    /\ intervalActive st' = false
    /\ requests st' = requests st + n
    /\ logCalls st' = logCalls st + S n
    /\ List.length (logCursors (events st')) = List.length (logCursors (events st)) + S n
    /\ StronglySorted Z.le (logCursors (events st'))
    /\ List.length (filter isClearInterval (events st'))
       = S (List.length (filter isClearInterval (events st))).
Proof.
  intros Hterm HL.
  induction n as [|n IH];
    intros st id time delays Hact Hpending Hstatus Hfeed Hsorted Hbound Hlen;
    (destruct delays as [|[d1 d2] delays]; [simpl in Hlen; lia|]);
    destruct (HL (logCalls st) (outputUrl serverInformation) operationId
                 (outputCursorPosition st)) as (c' & Hlogs & Hle);
    cbn [inTurn]; cbv zeta.
  - simpl in Hstatus.
    rewrite (turn_terminal st id time d1 d2 c' _ terminal Hterm Hact Hpending Hstatus Hlogs).
    rewrite inTurn_idle by reflexivity.
    cbn [state promise intervalActive requests logCalls events].
    rewrite !filter_app, !logCursors_app. simpl. rewrite ?app_nil_r, !length_app. simpl.
    repeat split; try lia.
    apply sorted_add_last; assumption.
  - simpl in Hstatus.
    pose proof (Hfeed 0 ltac:(lia)) as Hnext. rewrite Nat.add_0_r in Hnext.
    set (next := nth 1 (repeat OPERATION_IN_PROGRESS_STATUS (S n) ++ [terminal]) "") in *.
    rewrite (turn_in_progress st id time d1 d2 c' _ Hact Hstatus Hlogs).
    rewrite Hnext.
    match goal with |- context [run _ (mkLoop ?s _ _ _)] => set (st1 := s) end.
    specialize (IH st1 (S id) (time + OPERATION_STATUS_CHECK_INTERVAL)%Z delays).
    cbv zeta in IH.
    assert (Hev : logCursors (events st1) =
                  (logCursors (events st) ++ [outputCursorPosition st])%list).
    { subst st1. cbn [events]. rewrite logCursors_app. reflexivity. }
    destruct IH as (P & I & R & L & Len & Srt & Clr).
    + reflexivity.
    + exact Hpending.
    + subst st1 next. simpl. reflexivity.
    + intros k Hk. subst st1. simpl.
      replace (S (requests st + k)) with (requests st + S k) by lia.
      rewrite (Hfeed (S k)) by lia. reflexivity.
    + rewrite Hev. apply sorted_add_last; assumption.
    + rewrite Hev. subst st1. simpl. apply Forall_app. split.
      * eapply Forall_impl; [|exact Hbound]. simpl. intros a Ha. lia.
      * repeat constructor. exact Hle.
    + simpl in Hlen. lia.
    + refine (conj P (conj I (conj _ (conj _ (conj _ (conj Srt _)))))).
      * rewrite R. subst st1. cbn [requests]. lia.
      * rewrite L. subst st1. cbn [logCalls]. lia.
      * rewrite Len, Hev, length_app. simpl. lia.
      * rewrite Clr. subst st1. cbn [events].
        rewrite !filter_app, !length_app. simpl. lia.
Qed.


(** C1, as the code has it. For a status sequence of [inProgress]
    in-progress statuses followed by one terminal status, observed after at
    most 8 failed first requests, a log emission that keeps its contract,
    and callbacks of the timer that each end before the timer fires again,
    whenever their awaited steps end: the wait ends as the terminal status
    says, it resolves with no payload on [Success] and rejects with the
    fixed failure message of the operation on [Failed]. The timer is
    cleared, the log emission is invoked once per observed status, that is
    [length statuses] times, and the cursors it is invoked with never
    decrease. *)
Theorem wait_follows_status_sequence
  (failures inProgress : nat) (terminal : string) (delays : list (Z * Z)) :
  let statuses := (repeat OPERATION_IN_PROGRESS_STATUS inProgress ++ [terminal])%list in
  LogsAdvance ->
  failures <= OPERATION_STATUS_CHECK_RETRY_COUNT ->
  terminal = OPERATION_COMPLETE_STATUS \/ terminal = OPERATION_FAILED_STATUS ->
  (forall k, k < failures -> statusObject url k = None) ->
  (forall k, k < List.length statuses ->
     statusObject url (failures + k) = Some (nth k statuses "")) ->
  List.length statuses <= List.length delays ->
  let st := wait (inTurn 0 delays) in
  (terminal = OPERATION_COMPLETE_STATUS -> promise st = Return tt)
  /\ (terminal = OPERATION_FAILED_STATUS -> promise st = Throw (newError failedError))
  /\ intervalActive st = false
  /\ logCalls st = List.length statuses
  /\ List.length (logCursors (events st)) = List.length statuses
  /\ StronglySorted Z.le (logCursors (events st))
  /\ requests st = failures + List.length statuses.
Proof.
  intros statuses HL Hf Hterm Hfail Hseq Hdelays st.
  assert (Hlen : List.length statuses = S inProgress).
  { unfold statuses. rewrite length_app, repeat_length. simpl. lia. }
  destruct (attempt_answer (nth 0 statuses "") failures
              (PromiseRetry.timeouts promiseRetryOptions) initial)
    as (st1 & E & R & L & C & P & I).
  - exact Hf.
  - intros k Hk. apply Hfail. exact Hk.
  - simpl requests. rewrite <- (Nat.add_0_r failures).
    change (0 + (failures + 0)) with (failures + 0). apply Hseq. lia.
  - subst st. unfold Poller.waitForServerOperationToFinish, PromiseRetry.promiseRetry.
    rewrite E. unfold poll.
    set (st2 := setInterval (setCursor 0 (setStatus (nth 0 statuses "") st1))).
    destruct (inTurn_sequence terminal Hterm HL inProgress st2 0 (clock st1) delays)
      as (P' & I' & R' & L' & Len & Srt & _).
    + reflexivity.
    + subst st2. cbn [setInterval record promise setCursor setStatus]. exact P.
    + reflexivity.
    + intros k Hk. subst st2. cbn [setInterval record requests setCursor setStatus].
      rewrite R. simpl. replace (S (failures + k)) with (failures + S k) by lia.
      apply Hseq. lia.
    + subst st2. cbn [setInterval record events setCursor setStatus].
      rewrite logCursors_app, C. simpl. constructor.
    + subst st2. cbn [setInterval record events setCursor setStatus].
      rewrite logCursors_app, C. simpl. constructor.
    + lia.
    + rewrite P', I', R', L', Len, Hlen. subst st2.
      cbn [setInterval record events requests logCalls setCursor setStatus].
      rewrite logCursors_app, C, R, L. simpl.
      unfold expected.
      repeat split; try assumption; try lia.
      * intros ->. reflexivity.
      * intros ->. reflexivity.
Qed.

(** C2, as the code has it. When every request of the first phase fails, the
    wait sends 9 requests, the first and 8 retries, each retry at least
    1500 ms after the request before it, and then rejects with the
    failed-to-start message of the operation. No timer is set and no request
    of the polling phase follows, whatever the schedule and however long
    the wait is observed. *)
Theorem failed_start_rejects_after_nine_attempts (schedule : list Action) :
  (forall k, k < 9 -> statusObject url k = None) ->
  let st := waitForServerOperationToFinish statusObject operationId serverInformation
              schedule in
  promise st = Throw (newError failedToStartError)
  /\ events st =
     map (fun t => FetchStatus t url None)
         [0; 1500; 4500; 10500; 22500; 46500; 94500; 190500; 382500]%Z
  /\ requests st = S OPERATION_STATUS_CHECK_RETRY_COUNT
  /\ spaced OPERATION_STATUS_CHECK_INTERVAL (requestTimes (events st))
  /\ filter isSetInterval (events st) = []
  /\ intervalActive st = false.
Proof.
  intros H st. subst st.
  unfold waitForServerOperationToFinish, PromiseRetry.promiseRetry.
  cbv beta iota zeta delta -[Server.statusUrl Poller.run].
  rewrite (H 0), (H 1), (H 2), (H 3), (H 4), (H 5), (H 6), (H 7), (H 8) by lia.
  repeat split; try reflexivity; intro Hcmp; discriminate Hcmp.
Qed.

(** While the status stays terminal and the log emission throws, the
    timer stays set, whatever the schedule: every firing invokes the log
    emission, and every callback ends where the emission throws. *)
Lemma run_throwing_logs (status : string) :
  status = OPERATION_COMPLETE_STATUS \/ status = OPERATION_FAILED_STATUS ->
  (forall calls logsUrl buildId cursor,
     getServerLogs calls logsUrl buildId cursor = None) ->
  forall (schedule : list Action) (l : Loop),
    serverStatus (state l) = status ->
    intervalActive (state l) = true ->
    Forall (fun entry => exists call next, snd entry = Logs call next) (awaiting l) ->
    let st' := state (run schedule l) in
    intervalActive st' = true
    /\ promise st' = promise (state l)
    /\ serverStatus st' = status
    /\ logCalls st' = logCalls (state l) + firings schedule
    /\ filter isClearInterval (events st') = filter isClearInterval (events (state l)).
Proof.
  intros Hstatus Hthrow.
  induction schedule as [|a rest IH]; intros l Hs Hact Hlogs; cbv zeta.
  - cbn [Poller.run]. unfold firings. simpl. repeat split; try assumption; lia.
  - cbn [Poller.run]. destruct l as [[c r n p s active pr ev] f t suspended].
    cbn [state serverStatus intervalActive awaiting promise logCalls events] in *.
    subst active s. destruct a as [|id delay]; cbn [Poller.step].
    + unfold Poller.fire. cbn [state intervalActive serverStatus].
      assert (E : (if String.eqb status OPERATION_COMPLETE_STATUS
                   then true else String.eqb status OPERATION_FAILED_STATUS) = true)
        by (destruct Hstatus as [-> | ->]; reflexivity).
      match goal with |- context [run rest ?l'] =>
        assert (El : exists next,
                  l' = mkLoop (mkState (t + OPERATION_STATUS_CHECK_INTERVAL) r (S n) p status
                                 true pr
                                 (ev ++ [GetServerLogs (t + OPERATION_STATUS_CHECK_INTERVAL) p]))
                         (S f) (t + OPERATION_STATUS_CHECK_INTERVAL)
                         (suspended ++ [(f, Logs n next)])) end.
      { destruct Hstatus as [-> | ->]; eexists; reflexivity. }
      destruct El as (next & ->).
      match goal with |- context [run rest ?l'] =>
        specialize (IH l' eq_refl eq_refl) end.
      cbv zeta in IH.
      destruct IH as (I & P & S' & L & C).
      { apply Forall_app. split; [exact Hlogs|]. repeat constructor. eexists. eexists.
        reflexivity. }
      rewrite I, P, S', L, C. cbn [state logCalls events promise].
      rewrite filter_app. simpl. rewrite app_nil_r.
      change (firings (Fire :: rest)) with (S (firings rest)).
      repeat split; lia.
    + unfold resume. cbn [awaiting state].
      change (firings (Settle id delay :: rest)) with (firings rest).
      destruct (take id suspended) as [[found others]|] eqn:Et.
      * destruct (take_found _ _ _ _ Et) as (Hin & Hothers & _).
        rewrite Forall_forall in Hlogs.
        destruct (Hlogs _ Hin) as (call & next & Hfound). cbn [snd] in Hfound. subst found.
        cbv zeta. rewrite Hthrow.
        match goal with |- context [run rest ?l'] =>
          specialize (IH l' eq_refl eq_refl) end.
        cbv zeta in IH. destruct IH as (I & P & S' & L & C).
        { apply Forall_forall. intros entry He. apply Hlogs. apply Hothers. exact He. }
        rewrite I, P, S', L, C. repeat split.
      * specialize (IH (mkLoop (mkState c r n p status true pr ev) f t suspended)
                       eq_refl eq_refl Hlogs).
        exact IH.
Qed.
End PollerFacts.

(** The log emission of the publish and of the codesign service does
    nothing, which keeps the contract. *)
Lemma publish_logs_advance : Poller.LogsAdvance (service := CloudPublishService.service).
Proof.
  intros calls logsUrl buildId cursor. exists cursor. split; [reflexivity | lia].
Qed.

Lemma codesign_logs_advance (runtime : Runtime) (constants : Constants) :
  Poller.LogsAdvance (service := CloudCodesignService.service).
Proof.
  intros calls logsUrl buildId cursor. exists cursor. split; [reflexivity | lia].
Qed.

(** C3, at the input where the code leaves the claim. The first status is
    terminal and the log emission throws: whatever the schedule, however
    often the timer fires and whenever the emissions end, the timer stays
    set, it is never cleared, and the promise of the wait never settles,
    while the log emission is called again at every firing. *)
Theorem timer_dangles_when_log_emission_throws
  (failed : bool) (schedule : list Poller.Action) :
  let status := if failed then Poller.OPERATION_FAILED_STATUS
                else Poller.OPERATION_COMPLETE_STATUS in
  let st := Poller.waitForServerOperationToFinish (service := throwingLogs)
              (fun _ _ => Some status) Examples.operation Examples.locations schedule in
  Poller.intervalActive st = true
  /\ Poller.promise st = Pending
  /\ filter Poller.isClearInterval (Poller.events st) = []
  /\ Poller.logCalls st = Poller.firings schedule.
Proof.
  intros status st. subst st.
  unfold Poller.waitForServerOperationToFinish, PromiseRetry.promiseRetry.
  change (PromiseRetry.timeouts Poller.promiseRetryOptions)
    with (PromiseRetry.createTimeout 0 Poller.promiseRetryOptions
          :: map (fun i => PromiseRetry.createTimeout i Poller.promiseRetryOptions) (seq 1 7)).
  cbn [PromiseRetry.attempt Poller.firstStatus Poller.getStatus].
  match goal with |- context [Poller.run _ _ _ schedule ?l] => set (l0 := l) end.
  destruct (run_throwing_logs (service := throwingLogs) (fun _ _ => Some status)
              Examples.operation Examples.locations status)
    with (schedule := schedule) (l := l0)
    as (I & P & _ & L & C).
  - destruct failed; [right | left]; reflexivity.
  - reflexivity.
  - reflexivity.
  - reflexivity.
  - constructor.
  - rewrite I, P, L, C. repeat split.
Qed.

(** C1 as the code has it, on a sample: one failed first request, then
    [Building] twice and [Success], for the publish service, whose log
    emission does nothing; every callback ends before the timer fires
    again, 200 ms and 700 ms after its firing. *)
Lemma wait_follows_status_sequence_sample :
  let st := Poller.waitForServerOperationToFinish
              (service := CloudPublishService.service)
              (Examples.answers [None; Some "Building"; Some "Building"; Some "Success"])
              Examples.operation Examples.locations
              (Poller.inTurn 0 [(200, 700); (200, 700); (200, 700)]%Z) in
  Poller.promise st = Return tt
  /\ Poller.intervalActive st = false
  /\ Poller.logCalls st = 3
  /\ StronglySorted Z.le (Poller.logCursors (Poller.events st)).
Proof.
  destruct (wait_follows_status_sequence
              (service := CloudPublishService.service)
              (Examples.answers [None; Some "Building"; Some "Building"; Some "Success"])
              Examples.operation Examples.locations 1 2 "Success"
              [(200, 700); (200, 700); (200, 700)]%Z)
    as (HS & _ & HI & HL & _ & HO & _).
  - intros calls logsUrl buildId cursor. exists cursor. split; [reflexivity | lia].
  - unfold Poller.OPERATION_STATUS_CHECK_RETRY_COUNT. lia.
  - left. reflexivity.
  - intros k Hk. destruct k; [reflexivity | lia].
  - intros k Hk. simpl in Hk.
    destruct k as [|[|[|k]]]; try reflexivity. lia.
  - simpl. lia.
  - exact (conj (HS eq_refl) (conj HI (conj HL HO))).
Defined.

(** C1, as the claim has it, fails, in two ways. When the log emission
    takes 2000 ms, the timer fires a second time while the first callback
    is suspended: for the one observed status [Success] the log emission is
    invoked twice, and the timer is cleared twice. And a status request of
    the polling phase that fails is no observed status, but the log
    emission is invoked again at the next firing: three times for the two
    observed statuses [Building] and [Success], with every callback ending
    at once. *)
Lemma log_emissions_exceed_the_observed_statuses :
  let slow := Poller.waitForServerOperationToFinish
                (service := CloudPublishService.service)
                (Examples.answers [Some "Success"])
                Examples.operation Examples.locations
                [Poller.Fire; Poller.Fire; Poller.Settle 0 500; Poller.Settle 1 2000] in
  let failing := Poller.waitForServerOperationToFinish
                   (service := CloudPublishService.service)
                   (Examples.answers [Some "Building"; None; Some "Success"])
                   Examples.operation Examples.locations (Poller.promptly 3) in
  (Poller.promise slow = Return tt
   /\ Poller.logCalls slow = 2
   /\ List.length (Poller.logCursors (Poller.events slow)) = 2
   /\ List.length (filter Poller.isClearInterval (Poller.events slow)) = 2
   /\ Poller.logCalls slow <> List.length ["Success"])
  /\ (Poller.promise failing = Return tt
      /\ Poller.logCalls failing = 3
      /\ Poller.requests failing = 3
      /\ Poller.logCalls failing <> List.length ["Building"; "Success"]).
Proof.
  cbv zeta. repeat split; try reflexivity; vm_compute; discriminate.
Qed.

(** C2, as the claim has it, fails: when no request is ever answered, the
    wait sends 9 requests, not at most 8. *)
Lemma nine_first_requests_not_eight :
  let st := Poller.waitForServerOperationToFinish
              (service := CloudPublishService.service)
              (fun _ _ => None) Examples.operation Examples.locations [] in
  Poller.requests st = 9
  /\ ~ (Poller.requests st <= 8)
  /\ List.length (Poller.requestTimes (Poller.events st)) = 9.
Proof.
  cbv zeta. repeat split; try reflexivity.
  change (~ (9 <= 8)). lia.
Qed.

(** C2 as the code has it, on a sample: an object store that never answers. *)
Lemma failed_start_sample :
  let st := Poller.waitForServerOperationToFinish
              (service := CloudPublishService.service)
              (fun _ _ => None) Examples.operation Examples.locations
              (Poller.promptly 5) in
  Poller.promise st = Throw (newError "Failed to start publishing.")
  /\ Poller.requests st = 9
  /\ spaced 1500 (Poller.requestTimes (Poller.events st))
  /\ filter Poller.isSetInterval (Poller.events st) = [].
Proof.
  destruct (failed_start_rejects_after_nine_attempts
              (service := CloudPublishService.service)
              (fun _ _ => None) Examples.operation Examples.locations (Poller.promptly 5))
    as (HP & _ & HR & HS & HI & _).
  - intros k Hk. reflexivity.
  - exact (conj HP (conj HR (conj HS HI))).
Defined.

(** ** The soft-timeout fetcher *)

Section TransformedResultFacts.
Variable transformedResult : string -> nat -> option IBuildServerResult.
Variable transformedBuildResultUrl : string.

Import TransformedResult.

#[local] Abbreviation fetch := (TransformedResult.run transformedResult transformedBuildResultUrl).
#[local] Abbreviation fetchStep :=
  (TransformedResult.step transformedResult transformedBuildResultUrl).
#[local] Abbreviation answered := (transformedResult transformedBuildResultUrl).
#[local] Abbreviation fetching := (Fetching transformedResult transformedBuildResultUrl).

Lemma retries_count : GET_TRANSFORMED_RESULT_RETRIES_COUNT = 6%Z.
Proof. reflexivity. Qed.



Lemma firingTimes_next (n : nat) :
  firingTimes (S n)
  = (firingTimes n ++ [GET_TRANSFORMED_RESULT_REQUEST_INTERVAL * (Z.of_nat n + 1)])%list%Z.
Proof. unfold firingTimes. rewrite seq_S, map_app. reflexivity. Qed.

(** A settled promise stays as it is. *)
Lemma step_settled (a : Action) (st : State) :
  promise st <> Pending -> promise (fetchStep a st) = promise st.
Proof.
  intros H. destruct a as [|k]; cbn [TransformedResult.step].
  - unfold fire. destruct (intervalActive st); [|reflexivity].
    destruct (_ <? _)%Z; [|reflexivity].
    unfold resolve. cbn [promise]. destruct (promise st); try reflexivity. contradiction.
  - unfold answer. destruct (existsb _ _); [|reflexivity].
    destruct (answered k); [|reflexivity].
    unfold resolve. cbn [promise]. destruct (promise st); try reflexivity. contradiction.
Qed.

Lemma fetch_settled (schedule : list Action) :
  forall st, promise st <> Pending -> promise (fetch schedule st) = promise st.
Proof.
  induction schedule as [|a rest IH]; intros st H; [reflexivity|].
  cbn [TransformedResult.run]. rewrite IH; rewrite step_settled by exact H; auto.
Qed.

(** Every step keeps what holds of a call. *)
Lemma step_keeps_fetching (a : Action) (st : State) :
  fetching st -> fetching (fetchStep a st).
Proof.
  intros Hall. pose proof Hall as (Hcount & Htimes & Hsent & Hiff & Hclock & Hnull & Hsoft
                                   & Hobject & Hawait).
  destruct st as [c n active pr times suspended].
  cbn [retriesCount requestTimes intervalActive promise clock awaiting] in *.
  destruct a as [|k]; cbn [TransformedResult.step].
  - unfold fire. cbn [intervalActive retriesCount clock promise requestTimes awaiting].
    destruct active; [|exact Hall].
    assert (Hpending : pr = Pending) by (apply Hiff; reflexivity). subst pr.
    destruct Hclock as [Hclock | (_ & _ & Hfalse)]; [|discriminate].
    rewrite retries_count.
    destruct (6 <? n)%Z eqn:E.
    + apply Z.ltb_lt in E. assert (Hsix : List.length times = 6) by lia.
      unfold Fetching, resolve.
      cbn [retriesCount requestTimes intervalActive promise clock awaiting].
      unfold GET_TRANSFORMED_RESULT_REQUEST_INTERVAL in *.
      repeat split; try assumption; try discriminate; try lia.
    + apply Z.ltb_ge in E. unfold Fetching.
      cbn [retriesCount requestTimes intervalActive promise clock awaiting].
      rewrite length_app. cbn [List.length]. rewrite Nat.add_1_r.
      unfold GET_TRANSFORMED_RESULT_REQUEST_INTERVAL in *.
      split; [lia|]. split.
      { rewrite firingTimes_next, <- Htimes.
        unfold GET_TRANSFORMED_RESULT_REQUEST_INTERVAL. do 2 f_equal. lia. }
      split; [lia|]. split; [split; reflexivity|]. split; [left; lia|].
      split; [discriminate|]. split; [discriminate|]. split; [discriminate|].
      apply Forall_app. split.
      * eapply Forall_impl; [|exact Hawait]. intros j Hj. simpl in Hj. lia.
      * repeat constructor.
  - unfold answer. cbn [intervalActive retriesCount clock promise requestTimes awaiting].
    destruct (existsb (Nat.eqb k) suspended) eqn:Ek; [|exact Hall].
    apply existsb_exists in Ek. destruct Ek as (j & Hj & Ekj).
    apply Nat.eqb_eq in Ekj. subst j.
    assert (Hk : k < List.length times) by (rewrite Forall_forall in Hawait; auto).
    assert (Hrest : Forall (fun j => j < List.length times)
                      (filter (fun j => negb (Nat.eqb k j)) suspended)).
    { rewrite Forall_forall in *. intros j Hin. apply filter_In in Hin. apply Hawait.
      apply Hin. }
    destruct (answered k) as [result|] eqn:Ea.
    + unfold Fetching, resolve.
      cbn [retriesCount requestTimes intervalActive promise clock awaiting].
      split; [exact Hcount|]. split; [exact Htimes|]. split; [exact Hsent|].
      split; [destruct pr; split; intros H; discriminate H|].
      split.
      { destruct Hclock as [H | (H1 & H2 & H3)]; [left; exact H|].
        right. repeat split; assumption. }
      split; [destruct pr as [[r|]|e|]; try discriminate; intros _; apply Hnull; reflexivity|].
      split; [destruct pr; try discriminate; exact Hsoft|].
      split; [|exact Hrest].
      intros r Hr. destruct pr as [v|e|].
      * apply Hobject. exact Hr.
      * discriminate.
      * injection Hr as <-. exists k. split; [exact Hk | exact Ea].
    + unfold Fetching.
      cbn [retriesCount requestTimes intervalActive promise clock awaiting].
      split; [exact Hcount|]. split; [exact Htimes|]. split; [exact Hsent|].
      split; [exact Hiff|]. split; [exact Hclock|]. split; [exact Hnull|].
      split; [exact Hsoft|]. split; [exact Hobject | exact Hrest].
Qed.

Lemma fetch_keeps_fetching (schedule : list Action) :
  forall st, fetching st -> fetching (fetch schedule st).
Proof.
  induction schedule as [|a rest IH]; intros st H; [exact H|].
  apply IH. apply step_keeps_fetching. exact H.
Qed.

Lemma start_fetching : fetching start.
Proof.
  unfold Fetching, start. cbn [retriesCount requestTimes intervalActive promise clock
    awaiting List.length].
  repeat split; try discriminate; try lia; try constructor.
Qed.

(** Seven firings settle the promise. *)
Lemma fetch_settles (schedule : list Action) :
  forall st,
    fetching st ->
    7 <= List.length (requestTimes st) + firings schedule ->
    promise (fetch schedule st) <> Pending.
Proof.
  induction schedule as [|a rest IH]; intros st Hall Hfires.
  - unfold firings in Hfires. simpl in Hfires.
    destruct Hall as (_ & _ & Hsent & _). cbv zeta in Hsent. lia.
  - cbn [TransformedResult.run].
    destruct (promise st) eqn:Ep;
      [rewrite fetch_settled; rewrite step_settled; rewrite ?Ep; discriminate
      |rewrite fetch_settled; rewrite step_settled; rewrite ?Ep; discriminate|].
    pose proof (step_keeps_fetching a st Hall) as Hnext.
    destruct a as [|k].
    + change (firings (Fire :: rest)) with (S (firings rest)) in Hfires.
      cbn [TransformedResult.step] in *. unfold fire in *.
      destruct Hall as (Hcount & _ & Hsent & Hiff & _). cbv zeta in *.
      rewrite (proj2 Hiff Ep) in *. rewrite retries_count in *.
      destruct (6 <? retriesCount st)%Z eqn:E.
      * rewrite fetch_settled; unfold resolve; cbn [promise]; rewrite Ep; discriminate.
      * apply IH; [exact Hnext|]. cbn [requestTimes]. rewrite length_app. simpl. lia.
    + change (firings (Answer k :: rest)) with (firings rest) in Hfires.
      destruct (promise (fetchStep (Answer k) st)) eqn:Ep'.
      * rewrite fetch_settled; rewrite Ep'; discriminate.
      * rewrite fetch_settled; rewrite Ep'; discriminate.
      * apply IH; [exact Hnext|].
        cbn [TransformedResult.step] in *. unfold answer in *.
        destruct (existsb _ _); [|exact Hfires].
        destruct (answered k); [|exact Hfires].
        unfold resolve in Ep'. cbn [promise] in Ep'. rewrite Ep in Ep'. discriminate.
Qed.




End TransformedResultFacts.


(** ** The result downloader *)

Section DownloaderFacts.
Context {runtime : Runtime} {service : CloudService}.
Variable transfer : string -> string -> option Js.Error.

Import Downloader.

Lemma written_app (l1 l2 : list Event) :
  written (l1 ++ l2) = (written l1 ++ written l2)%list.
Proof.
  induction l1 as [|e l1 IH]; simpl; [reflexivity|].
  destruct e as [d|f|u f [|]]; simpl; rewrite IH; reflexivity.
Qed.

Lemma created_app (l1 l2 : list Event) :
  created (l1 ++ l2) = (created l1 ++ created l2)%list.
Proof.
  induction l1 as [|e l1 IH]; simpl; [reflexivity|].
  destruct e; simpl; rewrite IH; reflexivity.
Qed.

(** The loop, when every transfer succeeds: one file per item, in order. *)
Lemma downloadEach_all (destinationDir : string) :
  forall (items : list IServerItem) (names : list string) (log : list Event),
    (forall item, In item items ->
       transfer (fullPath item) (path_join [destinationDir; filename item]) = None) ->
    exists log',
      downloadEach transfer destinationDir items names log =
        (log', Return (names ++ map (fun item => path_join [destinationDir; filename item]) items)%list)
      /\ written log' =
           (written log ++
            map (fun item => (fullPath item, path_join [destinationDir; filename item])) items)%list
      /\ created log' =
           (created log ++
            map (fun item => path_join [destinationDir; filename item]) items)%list.
Proof.
  induction items as [|item items IH]; intros names log Hok.
  - exists log. simpl. rewrite !app_nil_r. repeat split.
  - simpl. rewrite (Hok item) by (left; reflexivity).
    match goal with |- context [downloadEach _ _ _ ?n ?l] =>
      destruct (IH n l) as (log' & E & W & C) end.
    + intros i Hi. apply Hok. right. exact Hi.
    + exists log'. rewrite E, W, C.
      rewrite !written_app, !created_app. simpl.
      rewrite <- !app_assoc. simpl. repeat split.
Qed.

(** The loop only adds to the log. *)
Lemma downloadEach_extends (destinationDir : string) :
  forall (items : list IServerItem) (names : list string) (log : list Event),
    exists tail,
      fst (downloadEach transfer destinationDir items names log) = (log ++ tail)%list.
Proof.
  induction items as [|item items IH]; intros names log; simpl.
  - exists []. rewrite app_nil_r. reflexivity.
  - destruct (transfer _ _).
    + eexists. simpl. rewrite <- app_assoc. reflexivity.
    + match goal with |- context [downloadEach _ _ _ ?n ?l] =>
        destruct (IH n l) as (tail & E) end.
      rewrite E. eexists. rewrite <- !app_assoc. reflexivity.
Qed.

(** C7. When the transfers succeed, [downloadServerResults] creates the
    directory the policy of the operation computes, then writes exactly the
    items [getServerResults] selects, each from its remote location into the
    directory joined with the [filename] of the item, and returns the written
    paths in the order of the selected items. *)
Theorem downloadServerResults_writes_selected_items
  (serverResult : IBuildServerResult) (options : IOutputDirectoryOptions) :
  let destinationDir := getServerOperationOutputDirectory options in
  let selected := getServerResults serverResult in
  let target := fun item => path_join [destinationDir; filename item] in
  (forall item, In item selected -> transfer (fullPath item) (target item) = None) ->
  let done := downloadServerResults transfer serverResult options in
  snd done = Return (map target selected)
  /\ written (fst done) = map (fun item => (fullPath item, target item)) selected
  /\ created (fst done) = map target selected
  /\ hd_error (fst done) = Some (EnsureDirectoryExists destinationDir).
Proof.
  intros destinationDir selected target Hok done. subst done.
  unfold downloadServerResults. fold destinationDir. fold selected.
  destruct (downloadEach_all destinationDir selected []
              [EnsureDirectoryExists destinationDir] Hok) as (log' & E & W & C).
  rewrite E. simpl. split; [reflexivity|]. split; [exact W|]. split; [exact C|].
  destruct (downloadEach_extends destinationDir selected []
              [EnsureDirectoryExists destinationDir]) as (tail & T).
  rewrite E in T. simpl in T. rewrite T. reflexivity.
Qed.
End DownloaderFacts.

(** C7, on a sample: a result of three artifacts, two of which the codesign
    filter selects. *)
Lemma downloadServerResults_sample :
  let done := Downloader.downloadServerResults
                (runtime := Examples.posix)
                (service := CloudCodesignService.service (runtime := Examples.posix)
                              (constants := Examples.sampleConstants))
                (fun _ _ => None) Examples.codesignResult
                (mkOutputOptions "/home/me/app" "iOS" false) in
  snd done = Return ["/home/me/app/codesign_files/ios/dev.p12";
                     "/home/me/app/codesign_files/ios/dev.mobileprovision"]
  /\ Downloader.written (fst done) =
     [("https://store/out/dev.p12", "/home/me/app/codesign_files/ios/dev.p12");
      ("https://store/out/dev.mobileprovision",
       "/home/me/app/codesign_files/ios/dev.mobileprovision")].
Proof.
  destruct (downloadServerResults_writes_selected_items
              (runtime := Examples.posix)
              (service := CloudCodesignService.service (runtime := Examples.posix)
                            (constants := Examples.sampleConstants))
              (fun _ _ => None) Examples.codesignResult
              (mkOutputOptions "/home/me/app" "iOS" false))
    as (R & W & _).
  - intros item _. reflexivity.
  - exact (conj R W).
Defined.

(** ** The publish service *)

Section PublishFacts.
Context {runtime : Runtime} {constants : Constants}.
Variable world : CloudPublishService.Collaborators.

Import CloudPublishService.

Lemma truthy_result (r : IBuildServerResult) :
  truthyNumber (code r) || truthyString (errors r) = true
  <-> (code r <> 0%Z \/ errors r <> "").
Proof.
  unfold truthyNumber. rewrite orb_true_iff, negb_true_iff, Z.eqb_neq.
  destruct (errors r); simpl.
  - split; (intros [H | H]; [left; exact H|]); [discriminate H | contradiction].
  - split; intros _; right; [discriminate | reflexivity].
Qed.

Lemma falsy_result (r : IBuildServerResult) :
  truthyNumber (code r) || truthyString (errors r) = false
  <-> (code r = 0%Z /\ errors r = "").
Proof.
  unfold truthyNumber. rewrite orb_false_iff, negb_false_iff, Z.eqb_eq.
  destruct (errors r); simpl; split; intros [H1 H2]; split; auto; discriminate.
Qed.

(** [publishCore] once the request is sent and the wait has ended, whatever
    its end was: the result object decides. *)
Lemma publishCore_after_wait
  (schedule : list Poller.Action) (request : IPublishRequestData) (core : IPublishDataCore)
  (getError : IPublishRequestData -> IBuildServerResult -> Js.Error)
  (prepared : list string) (response : IServerResponse) :
  getPreparePackagePaths world core = inr prepared ->
  publish world (setPackagePaths prepared request) = inr response ->
  Poller.promise (Poller.waitForServerOperationToFinish
                    (statusObject world) (uuid world) response schedule) <> Pending ->
  publishCore world schedule request core getError =
  let waited := Poller.promise (Poller.waitForServerOperationToFinish
                                  (statusObject world) (uuid world) response schedule) in
  let log := [Info "Starting publishing."; Publish (setPackagePaths prepared request);
              WaitEnded waited; GetResult (resultUrl response)] in
  match resultObject world (resultUrl response) with
  | inl err => (log, Throw err)
  | inr publishResult =>
      if truthyNumber (code publishResult) || truthyString (errors publishResult)
      then (log, Throw (classified getError (setPackagePaths prepared request) publishResult))
      else ((log ++ [Info "Publishing finished successfully."])%list, Return tt)
  end.
Proof.
  intros Hprep Hpub Hwait. unfold publishCore. rewrite Hprep, Hpub.
  destruct (Poller.promise _) as [[]|e|]; try reflexivity. contradiction.
Qed.

(** C5. Once the result object is fetched, [publishCore] throws the error of
    the classifier, with the [stdout] and [stderr] of the result attached,
    if and only if the result has a non-zero [code] or a non-empty [errors];
    it completes if and only if [code] is zero and [errors] is empty. *)
Theorem publishCore_throws_iff_result_reports_failure
  (schedule : list Poller.Action) (request : IPublishRequestData) (core : IPublishDataCore)
  (getError : IPublishRequestData -> IBuildServerResult -> Js.Error)
  (prepared : list string) (response : IServerResponse)
  (publishResult : IBuildServerResult) :
  getPreparePackagePaths world core = inr prepared ->
  publish world (setPackagePaths prepared request) = inr response ->
  Poller.promise (Poller.waitForServerOperationToFinish
                    (statusObject world) (uuid world) response schedule) <> Pending ->
  resultObject world (resultUrl response) = inr publishResult ->
  let thrown := classified getError (setPackagePaths prepared request) publishResult in
  let outcome := snd (publishCore world schedule request core getError) in
  (outcome = Throw thrown <-> (code publishResult <> 0%Z \/ errors publishResult <> ""))
  /\ (outcome = Return tt <-> (code publishResult = 0%Z /\ errors publishResult = ""))
  /\ Js.stdout thrown = Some (Server.stdout publishResult)
  /\ Js.stderr thrown = Some (Server.stderr publishResult).
Proof.
  intros Hprep Hpub Hwait Hres thrown outcome. subst outcome.
  rewrite (publishCore_after_wait schedule request core getError prepared response)
    by assumption.
  cbv zeta. rewrite Hres.
  rewrite <- truthy_result, <- falsy_result.
  destruct (truthyNumber (code publishResult) || truthyString (errors publishResult));
    simpl; repeat split; intros H; try reflexivity; try discriminate.
Qed.


End PublishFacts.

Section FormattedErrorFacts.
Context {runtime : Runtime}.
Import RegExp CloudPublishService.

(** C9, as the code has it. [getFormattedError] joins with [EOL] the matches
    of the pattern in the text, each kept once, in the order of their first
    occurrences. For a marker followed by the dot star, each kept piece is a
    piece of the text: the marker with what follows it up to the end of its
    line, and not the line the marker stands in. A marked line that comes
    three times in a text, other lines in between, comes once in the
    result. *)
Theorem getFormattedError_joins_first_matches (message : string) (regex : Pattern) :
  let found := match matchGlobal regex message with Some l => l | None => [] end in
  exists kept,
    getFormattedError message regex = join EOL kept
    /\ NoDup kept
    /\ (forall x, In x kept <-> In x found)
    /\ StronglySorted lt (map (fun x => Lodash.firstIndex x found) kept)
    /\ (forall marker,
          regex = (lits marker ++ [DotStar])%list ->
          forall x, In x kept ->
          exists before line rest,
            message = before ++ x ++ rest
            /\ x = marker ++ line
            /\ oneLine line = true
            /\ atLineEnd rest = true)
    /\ getFormattedError Examples.repeatedStderr GENERAL_ERROR_REGEX
       = "[!] Something failed" ++ EOL ++ "[!] Giving up".
Proof.
  intros found. exists (Lodash.uniq (matchGlobal regex message)).
  assert (HK : Lodash.Kept found (Lodash.uniq (matchGlobal regex message))).
  { subst found. destruct (matchGlobal regex message) as [l|]; simpl.
    - apply (baseUniq_keeps l [] []). split; [tauto | constructor].
    - split; [tauto | constructor]. }
  destruct HK as [Hin Hsorted].
  split; [reflexivity|]. split; [eapply sorted_lt_NoDup; exact Hsorted|].
  split; [exact Hin|]. split; [exact Hsorted|]. split.
  - intros marker -> x Hx. apply Hin in Hx. subst found.
    destruct (matchGlobal _ message) as [l|] eqn:E; [|contradiction].
    eapply matchGlobal_marker; eassumption.
  - unfold getFormattedError.
    replace (Lodash.uniq (matchGlobal GENERAL_ERROR_REGEX Examples.repeatedStderr))
      with ["[!] Something failed"; "[!] Giving up"] by (vm_compute; reflexivity).
    reflexivity.
Qed.
End FormattedErrorFacts.

(** C9, as the claim has it, fails: for a line with text before the marker
    the result is the part of the line from the marker on, not the line. *)
Lemma formatted_error_is_not_the_marked_line :
  CloudPublishService.getFormattedError (runtime := Examples.posix)
    "12:00 [!] Something failed" CloudPublishService.GENERAL_ERROR_REGEX
  = "[!] Something failed"
  /\ CloudPublishService.formattedErrorLines (runtime := Examples.posix)
       "12:00 [!] Something failed" CloudPublishService.GENERAL_ERROR_REGEX
     = "12:00 [!] Something failed"
  /\ CloudPublishService.getFormattedError (runtime := Examples.posix)
       "12:00 [!] Something failed" CloudPublishService.GENERAL_ERROR_REGEX
     <> CloudPublishService.formattedErrorLines (runtime := Examples.posix)
          "12:00 [!] Something failed" CloudPublishService.GENERAL_ERROR_REGEX.
Proof.
  split; [vm_compute; reflexivity|]. split; [vm_compute; reflexivity|].
  vm_compute. discriminate.
Qed.

Section OperationIdFacts.
Context {runtime : Runtime} {constants : Constants}.
Variable codesign : CloudCodesignService.Collaborators.
Variable world : CloudPublishService.Collaborators.
Import CloudPublishService.

Lemma preparePaths_error :
  forall (paths acc : list string) (err : Js.Error),
    preparePaths world paths acc = inl err ->
    exists packagePath name, uploadToS3 world packagePath name = inl err.
Proof.
  induction paths as [|p paths IH]; intros acc err H; cbn [preparePaths] in H;
    [discriminate|].
  destruct (exists_ world p); [|eapply IH; exact H].
  destruct (uploadToS3 world p (basename p)) as [e | url] eqn:E; [|eapply IH; exact H].
  injection H as <-. exists p, (basename p). exact E.
Qed.

(** An error of [publishCore] is an error of a collaborator, as it was
    thrown, or the error the classifier makes of a failing result, with
    [stdout] and [stderr] attached. *)
Lemma publishCore_error (schedule : list Poller.Action) (request : IPublishRequestData)
      (core : IPublishDataCore)
      (getError : IPublishRequestData -> IBuildServerResult -> Js.Error) (err : Js.Error) :
  (forall r result, NoOperationId (getError r result)) ->
  snd (publishCore world schedule request core getError) = Throw err ->
  ThrownByCollaborator world err \/ NoOperationId err.
Proof.
  intros Hclassifier. unfold publishCore, getPreparePackagePaths.
  destruct (preparePaths world (corePackagePaths core) []) as [e | prepared] eqn:Ep.
  { cbn [snd]. intros H. injection H as <-. left. left.
    eapply preparePaths_error. exact Ep. }
  cbv zeta. destruct (publish world _) as [e | response] eqn:Epub.
  { cbn [snd]. intros H. injection H as <-. left. right. right. left.
    eexists. exact Epub. }
  assert (Hresult :
            snd match resultObject world (resultUrl response) with
                | inl e => (@nil Event, @Throw unit e)
                | inr publishResult =>
                    if truthyNumber (code publishResult) || truthyString (errors publishResult)
                    then ([], Throw (set_stdout (Server.stdout publishResult)
                                       (set_stderr (Server.stderr publishResult)
                                          (getError (setPackagePaths prepared request)
                                             publishResult))))
                    else ([], Return tt)
                end = Throw err ->
            ThrownByCollaborator world err \/ NoOperationId err).
  { destruct (resultObject world (resultUrl response)) as [e | publishResult] eqn:Er.
    - cbn [snd]. intros H. injection H as <-. left. right. right. right.
      eexists. exact Er.
    - destruct (truthyNumber _ || truthyString _); cbn [snd]; [|discriminate].
      intros H. injection H as <-. right.
      destruct (Hclassifier (setPackagePaths prepared request) publishResult) as [Hb Hc].
      split; [exact Hb | exact Hc]. }
  destruct (Poller.promise _) as [[] | ex |]; [| |cbn [snd]; discriminate];
    intros H; apply Hresult;
    destruct (resultObject world (resultUrl response)) as [e | publishResult];
    [exact H | destruct (truthyNumber _ || truthyString _); exact H
    |exact H | destruct (truthyNumber _ || truthyString _); exact H].
Qed.

(** C4, as the code has it. Whatever fails in [generateCodesignFiles] once
    its parameters are accepted, be it the request, the wait, the result or
    the download, reaches the caller with the identifier of the operation
    as [buildId] and as [cloudOperationId]. [publishToItunesConnect] and
    [publishToGooglePlay] attach no identifier: an error they surface,
    whatever the schedule of the wait, is either the error a collaborator
    threw (an upload, the project data service, the request to the server
    or the fetch of the result), passed on as it is, or an error they
    create themselves, which carries neither [buildId] nor
    [cloudOperationId]. *)
Theorem operation_id_is_attached_by_codesign_only (schedule : list Poller.Action) :
  (forall (codesignData : option CloudCodesignService.ICodesignData) (projectDir : string)
          (data : CloudCodesignService.ICodesignData) (err : Js.Error),
     CloudCodesignService.validateParameteres codesignData projectDir = inr data ->
     CloudCodesignService.generateCodesignFiles codesign codesignData projectDir
       = Throw err ->
     Js.buildId err = Some (CloudCodesignService.uuid codesign)
     /\ Js.cloudOperationId err = Some (CloudCodesignService.uuid codesign))
  /\ (forall (publishData : IItunesConnectPublishData) (err : Js.Error),
        snd (publishToItunesConnect world schedule publishData) = Throw err ->
        ThrownByCollaborator world err \/ NoOperationId err)
  /\ (forall (publishData : IGooglePlayPublishData) (err : Js.Error),
        snd (publishToGooglePlay world schedule publishData) = Throw err ->
        ThrownByCollaborator world err \/ NoOperationId err).
Proof.
  split; [|split].
  - intros codesignData projectDir data err Hvalid H.
    unfold CloudCodesignService.generateCodesignFiles in H. rewrite Hvalid in H.
    destruct (CloudCodesignService.executeGeneration _ _ _ _) as [result | e |];
      try discriminate.
    injection H as <-. split; reflexivity.
  - intros publishData err. unfold publishToItunesConnect, validatePublishData.
    destruct (corePackagePaths (itunesCore publishData)) as [|p paths] eqn:Ep;
      [cbn [snd]; intros H; injection H as <-; right; split; reflexivity|].
    destruct (truthyString (projectDir (itunesCore publishData)));
      [|cbn [snd]; intros H; injection H as <-; right; split; reflexivity].
    destruct (itunesCredentials publishData) as [[username password]|];
      [|cbn [snd]; intros H; injection H as <-; right; split; reflexivity].
    destruct (truthyString username && truthyString password);
      [|cbn [snd]; intros H; injection H as <-; right; split; reflexivity].
    destruct (getProjectId world _) as [e | identifier] eqn:Eg.
    { cbn [snd]. intros H. injection H as <-. left. right. left. eexists. exact Eg. }
    apply publishCore_error. intros r result. unfold itunesGetError. cbv zeta.
    destruct (includes _ _); split; reflexivity.
  - intros publishData err. unfold publishToGooglePlay, validatePublishData.
    destruct (corePackagePaths (googleCore publishData)) as [|p paths] eqn:Ep;
      [cbn [snd]; intros H; injection H as <-; right; split; reflexivity|].
    destruct (truthyString (projectDir (googleCore publishData)));
      [|cbn [snd]; intros H; injection H as <-; right; split; reflexivity].
    destruct (negb _ || negb _);
      [cbn [snd]; intros H; injection H as <-; right; split; reflexivity|].
    destruct (readJson world _) as [authJson|];
      [|cbn [snd]; intros H; injection H as <-; right; split; reflexivity].
    destruct (getProjectId world _) as [e | identifier] eqn:Eg.
    { cbn [snd]. intros H. injection H as <-. left. right. left. eexists. exact Eg. }
    apply publishCore_error. intros r result. split; reflexivity.
Qed.
End OperationIdFacts.

(** C4 as the code has it, on a sample: the wait of a codesign generation
    fails and nothing is known of the operation. *)
Lemma generateCodesignFiles_sample :
  exists err,
    CloudCodesignService.generateCodesignFiles
      (runtime := Examples.posix) (constants := Examples.sampleConstants)
      Examples.failingCodesign (Some Examples.codesignData) "/home/me/app" = Throw err
    /\ Js.buildId err = Some Examples.operation
    /\ Js.cloudOperationId err = Some Examples.operation.
Proof.
  eexists. split; [reflexivity|].
  exact (proj1 (operation_id_is_attached_by_codesign_only
                  (runtime := Examples.posix) (constants := Examples.sampleConstants)
                  Examples.failingCodesign Scenarios.quickStore [])
           (Some Examples.codesignData) "/home/me/app"
           Examples.codesignData _ eq_refl eq_refl).
Defined.

(** C4, as the claim has it, fails for the publish service: neither the
    error of a failed fetch of the result, which is passed on as the object
    store threw it, nor the error the classifier makes of a failing result
    carries an identifier of the operation. *)
Lemma publish_failure_carries_no_operation_id :
  (exists err,
      snd (CloudPublishService.publishToGooglePlay
             (runtime := Examples.posix) (constants := Examples.sampleConstants)
             (Examples.store (fun _ _ => None) (inl (newError "Not Found")))
             [] Examples.googlePlayData) = Throw err
      /\ Js.buildId err = None /\ Js.cloudOperationId err = None)
  /\ (exists err,
        snd (CloudPublishService.publishToItunesConnect
               (runtime := Examples.posix)
               (Examples.store (Examples.answers [Some "Success"]) (inr Examples.teamsResult))
               (Poller.promptly 1) Examples.itunesData) = Throw err
        /\ Js.buildId err = None /\ Js.cloudOperationId err = None).
Proof.
  split; eexists; (split; [vm_compute; reflexivity | split; reflexivity]).
Qed.

(** C5, on a sample: a publish whose wait succeeds and whose result reports
    a failure of the tool. *)
Lemma publishCore_sample :
  snd (CloudPublishService.publishCore (runtime := Examples.posix)
         (Examples.store (Examples.answers [Some "Success"]) (inr Examples.teamsResult))
         (Poller.promptly 1) Examples.sampleRequest (CloudPublishService.itunesCore Examples.itunesData)
         (CloudPublishService.googlePlayGetError (runtime := Examples.posix)))
  = Throw (CloudPublishService.classified
             (CloudPublishService.googlePlayGetError (runtime := Examples.posix))
             (CloudPublishService.setPackagePaths ["https://store/uploads/app.ipa"]
                Examples.sampleRequest)
             Examples.teamsResult).
Proof.
  apply (publishCore_throws_iff_result_reports_failure
           (runtime := Examples.posix)
           (Examples.store (Examples.answers [Some "Success"]) (inr Examples.teamsResult))
           (Poller.promptly 1) Examples.sampleRequest (CloudPublishService.itunesCore Examples.itunesData)
           (CloudPublishService.googlePlayGetError (runtime := Examples.posix))
           ["https://store/uploads/app.ipa"] Examples.locations Examples.teamsResult).
  - reflexivity.
  - reflexivity.
  - vm_compute. discriminate.
  - reflexivity.
  - left. discriminate.
Defined.



(** * Further properties *)

Ltac events_fields :=
  rewrite ?filter_app, ?length_app;
  cbn [filter Poller.isSetInterval Poller.isClearInterval List.length snd];
  rewrite ?app_nil_r, ?Nat.add_0_r.

Section PollerInvariants.
Context {service : CloudService}.
Variable statusObject : string -> nat -> option string.
Variable operationId : string.
Variable serverInformation : IServerResponse.

Import Poller.

#[local] Abbreviation pollUrl := (statusUrl serverInformation).
#[local] Abbreviation pollStep := (Poller.step statusObject operationId serverInformation).
#[local] Abbreviation polls := (Poller.run statusObject operationId serverInformation).
#[local] Abbreviation wait :=
  (Poller.waitForServerOperationToFinish statusObject operationId serverInformation).
#[local] Abbreviation seen := (Observed statusObject serverInformation).
#[local] Abbreviation justified := (Justified statusObject serverInformation).
#[local] Abbreviation polling := (Polling statusObject serverInformation).

Lemma seen_later (status : string) (st st' : State) :
  requests st <= requests st' -> seen status st -> seen status st'.
Proof. intros Hle (k & Hk & E). exists k. split; [lia | exact E]. Qed.

Lemma justified_later (st st' : State) (entry : nat * Awaited) :
  requests st <= requests st' -> justified st entry -> justified st' entry.
Proof.
  intros Hle. unfold Justified.
  destruct (snd entry) as [call [| |] | [status|]]; try (intros; exact I);
    apply seen_later; exact Hle.
Qed.

Lemma suspendedLogs_take (id : nat) :
  forall (suspended others : list (nat * Awaited)) (found : Awaited) (st : State)
         (f : nat) (t : Z),
    take id suspended = Some (found, others) ->
    suspendedLogs (mkLoop st f t suspended)
    = suspendedLogs (mkLoop st f t others)
      + match found with Logs _ _ => 1 | Status _ => 0 end.
Proof.
  unfold suspendedLogs. cbn [awaiting].
  induction suspended as [|[i a] rest IH]; intros others found st f t H; [discriminate|].
  cbn [take] in H. destruct (Nat.eqb i id).
  - injection H as <- <-. cbn [filter snd]. destruct a; simpl; lia.
  - destruct (take id rest) as [[found' others']|] eqn:Et; [|discriminate].
    injection H as <- <-. specialize (IH _ _ st f t eq_refl).
    cbn [filter snd]. destruct a; simpl; lia.
Qed.

(** Every step of the event loop keeps what holds of the polling phase. *)
Lemma step_keeps_polling (a : Action) (l : Loop) :
  polling l -> polling (pollStep a l).
Proof.
  destruct l as [[c r n p s active pr ev] f t suspended].
  intros Hall. pose proof Hall as (Hset & Hiff & Hclear & Hcount & Hend & Hseen & Hjust).
  unfold suspendedLogs in Hcount.
  cbn [state awaiting events intervalActive promise logCalls serverStatus]
    in Hset, Hiff, Hclear, Hcount, Hend, Hseen, Hjust.
  destruct a as [|id delay]; cbn [Poller.step].
  - unfold Poller.fire. cbn [state intervalActive serverStatus] in *.
    destruct active; [|exact Hall].
    assert (Hlogs : forall next,
              (next = ThenResolve -> s = OPERATION_COMPLETE_STATUS) ->
              (next = ThenReject -> s = OPERATION_FAILED_STATUS) ->
              polling (awaitLogs f next
                         (mkLoop (at_ (t + OPERATION_STATUS_CHECK_INTERVAL)
                                    (mkState c r n p s true pr ev))
                            (S f) (t + OPERATION_STATUS_CHECK_INTERVAL) suspended))).
    { intros next Hres Hrej. unfold Polling, suspendedLogs, awaitLogs.
      loop_fields. cbn [state awaiting events intervalActive promise logCalls serverStatus].
      events_fields.
      split; [exact Hset|]. split; [exact Hiff|]. split; [exact Hclear|].
      split; [simpl in *; lia|]. split; [exact Hend|]. split; [exact Hseen|].
      apply Forall_app. split; [exact Hjust|]. repeat constructor.
      unfold Justified. cbn [snd]. destruct next; try exact I.
      - rewrite <- (Hres eq_refl). exact Hseen.
      - rewrite <- (Hrej eq_refl). exact Hseen. }
    destruct (String.eqb s OPERATION_COMPLETE_STATUS) eqn:Ec.
    { apply String.eqb_eq in Ec. apply Hlogs; [intros _; exact Ec | discriminate]. }
    destruct (String.eqb s OPERATION_FAILED_STATUS) eqn:Ef.
    { apply String.eqb_eq in Ef. apply Hlogs; [discriminate | intros _; exact Ef]. }
    destruct (String.eqb s OPERATION_IN_PROGRESS_STATUS).
    { apply Hlogs; discriminate. }
    unfold Polling, suspendedLogs, awaitStatus. loop_fields.
    cbn [state awaiting events intervalActive promise logCalls serverStatus].
    events_fields.
    split; [exact Hset|]. split; [exact Hiff|]. split; [exact Hclear|].
    split; [simpl in *; lia|].
    assert (Hmore : forall status, seen status (mkState c r n p s true pr ev) ->
                      seen status (mkState (t + OPERATION_STATUS_CHECK_INTERVAL) (S r) n p s
                                     true pr
                                     (ev ++ [FetchStatus (t + OPERATION_STATUS_CHECK_INTERVAL)
                                               pollUrl (statusObject pollUrl r)])))
      by (intros status; apply seen_later; simpl; lia).
    split; [destruct Hend as [H | [[H1 H2] | [H1 H2]]]; auto|].
    split; [apply Hmore; exact Hseen|].
    apply Forall_app. split.
    + eapply Forall_impl; [|exact Hjust]. intros entry. apply justified_later. simpl. lia.
    + repeat constructor. unfold Justified. cbn [snd].
      destruct (statusObject pollUrl r) as [status|] eqn:E; [|exact I].
      exists r. split; [simpl; lia | exact E].
  - unfold resume. cbn [awaiting state].
    destruct (take id suspended) as [[found others]|] eqn:Et;
      [|exact Hall].
    destruct (take_found _ _ _ _ Et) as (Hin & Hothers & _).
    pose proof (suspendedLogs_take id suspended others found
                  (mkState c r n p s active pr ev) f t Et) as Hsus.
    unfold suspendedLogs in Hsus. cbn [awaiting] in Hsus.
    assert (Hjust' : Forall (justified (mkState c r n p s active pr ev)) others).
    { rewrite Forall_forall in *. intros entry He. apply Hjust. apply Hothers. exact He. }
    rewrite Forall_forall in Hjust. pose proof (Hjust _ Hin) as Hfound.
    unfold Justified in Hfound. cbn [snd] in Hfound.
    cbv zeta. loop_fields.
    destruct found as [call next | [status|]].
    + destruct (getServerLogs call (outputUrl serverInformation) operationId p)
        as [cursor|].
      * destruct next.
        -- destruct pr as [[]|e|]; unfold Polling, suspendedLogs; loop_fields;
             cbn [state awaiting events intervalActive promise logCalls serverStatus];
             events_fields;
             (split; [exact Hset|]);
             (split; [split; intros H; discriminate H|]);
             (split; [discriminate|]); (split; [simpl in *; lia|]);
             (split; [|split; [exact Hseen | exact Hjust']]).
           ++ destruct Hend as [H | [[H1 H2] | [H1 H2]]]; try discriminate.
              right. left. split; [reflexivity | exact H2].
           ++ destruct Hend as [H | [[H1 H2] | [H1 H2]]]; try discriminate.
              right. right. split; [exact H1 | exact H2].
           ++ right. left. split; [reflexivity | exact Hfound].
        -- destruct pr as [[]|e|]; unfold Polling, suspendedLogs; loop_fields;
             cbn [state awaiting events intervalActive promise logCalls serverStatus];
             events_fields;
             (split; [exact Hset|]);
             (split; [split; intros H; discriminate H|]);
             (split; [discriminate|]); (split; [simpl in *; lia|]);
             (split; [|split; [exact Hseen | exact Hjust']]).
           ++ destruct Hend as [H | [[H1 H2] | [H1 H2]]]; try discriminate.
              right. left. split; [reflexivity | exact H2].
           ++ destruct Hend as [H | [[H1 H2] | [H1 H2]]]; try discriminate.
              right. right. split; [exact H1 | exact H2].
           ++ right. right. split; [reflexivity | exact Hfound].
        -- unfold Polling, suspendedLogs, awaitStatus. loop_fields.
           cbn [state awaiting events intervalActive promise logCalls serverStatus].
           events_fields.
           split; [exact Hset|]. split; [exact Hiff|]. split; [exact Hclear|].
           split; [simpl in *; lia|].
           split; [destruct Hend as [H | [[H1 (k & Hk & E)] | [H1 (k & Hk & E)]]];
                   [left; exact H
                   | right; left; split; [exact H1 | exists k; split; [simpl in *; lia | exact E]]
                   | right; right; split; [exact H1 | exists k; split; [simpl in *; lia | exact E]]]|].
           split; [destruct Hseen as (k & Hk & E); exists k; split; [simpl in *; lia | exact E]|].
           apply Forall_app. split.
           ++ eapply Forall_impl; [|exact Hjust']. intros entry.
              apply justified_later. simpl. lia.
           ++ repeat constructor. unfold Justified. cbn [snd].
              destruct (statusObject pollUrl r) as [status|] eqn:E; [|exact I].
              exists r. split; [simpl; lia | exact E].
      * unfold Polling, suspendedLogs.
        cbn [state awaiting events intervalActive promise logCalls serverStatus].
        split; [exact Hset|]. split; [exact Hiff|]. split; [exact Hclear|].
        split; [simpl in *; lia|]. split; [exact Hend|]. split; [exact Hseen | exact Hjust'].
    + unfold Polling, suspendedLogs.
      cbn [state awaiting events intervalActive promise logCalls serverStatus].
      split; [exact Hset|]. split; [exact Hiff|]. split; [exact Hclear|].
      split; [simpl in *; lia|]. split; [exact Hend|]. split; [exact Hfound | exact Hjust'].
    + unfold Polling, suspendedLogs.
      cbn [state awaiting events intervalActive promise logCalls serverStatus].
      split; [exact Hset|]. split; [exact Hiff|]. split; [exact Hclear|].
      split; [simpl in *; lia|]. split; [exact Hend|]. split; [exact Hseen | exact Hjust'].
Qed.
(** The first phase sets no timer and settles nothing; when it fails, it
    fails with the failed-to-start error, and when it ends in a status,
    that status was answered by the server. *)
Lemma attempt_sets_no_timer :
  forall (remaining : list Z) (st st' : State) (r : Js.Error + string),
    PromiseRetry.attempt (Poller.firstStatus statusObject serverInformation) sleep remaining st
      = (st', r) ->
    intervalActive st' = intervalActive st
    /\ promise st' = promise st
    /\ filter isSetInterval (events st') = filter isSetInterval (events st)
    /\ filter isClearInterval (events st') = filter isClearInterval (events st)
    /\ logCalls st' = logCalls st
    /\ requests st < requests st'
    /\ (forall err, r = inl err -> err = newError failedToStartError)
    /\ (forall status, r = inr status -> seen status st').
Proof.
  assert (Hreq : forall st,
            intervalActive (requested statusObject serverInformation st) = intervalActive st
            /\ promise (requested statusObject serverInformation st) = promise st
            /\ filter isSetInterval (events (requested statusObject serverInformation st))
               = filter isSetInterval (events st)
            /\ filter isClearInterval (events (requested statusObject serverInformation st))
               = filter isClearInterval (events st)
            /\ logCalls (requested statusObject serverInformation st) = logCalls st
            /\ requests (requested statusObject serverInformation st) = S (requests st)).
  { intros st. unfold requested, getStatus. simpl. rewrite !filter_app. simpl.
    rewrite !app_nil_r. repeat split. }
  induction remaining as [|t remaining IH]; intros st st' r H; simpl in H;
    destruct (statusObject pollUrl (requests st)) as [status|] eqn:E.
  - rewrite (firstStatus_answers _ _ _ _ E) in H. injection H as <- <-.
    destruct (Hreq st) as (A & B & C & D & F & G).
    repeat split; try assumption; try lia; [discriminate|].
    intros status' Hs. injection Hs as <-. exists (requests st). split; [lia | exact E].
  - rewrite (firstStatus_fails _ _ _ E) in H. injection H as <- <-.
    destruct (Hreq st) as (A & B & C & D & F & G).
    repeat split; try assumption; try lia; [|discriminate].
    intros err Herr. injection Herr as <-. reflexivity.
  - rewrite (firstStatus_answers _ _ _ _ E) in H. injection H as <- <-.
    destruct (Hreq st) as (A & B & C & D & F & G).
    repeat split; try assumption; try lia; [discriminate|].
    intros status' Hs. injection Hs as <-. exists (requests st). split; [lia | exact E].
  - rewrite (firstStatus_fails _ _ _ E) in H. apply IH in H.
    destruct (Hreq st) as (A & B & C & D & F & G).
    destruct H as (A' & B' & C' & D' & F' & G' & K & K').
    simpl in *. repeat split; try congruence; try lia; [exact K | exact K'].
Qed.

(** A wait is in its polling phase, with all that holds of it, or its
    first phase has failed. *)
Lemma wait_polls_or_fails (schedule : list Action) :
  (exists l, wait schedule = state l /\ polling l)
  \/ (promise (wait schedule) = Throw (newError failedToStartError)
      /\ intervalActive (wait schedule) = false
      /\ filter isSetInterval (events (wait schedule)) = []
      /\ filter isClearInterval (events (wait schedule)) = []
      /\ logCalls (wait schedule) = 0).
Proof.
  unfold Poller.waitForServerOperationToFinish, PromiseRetry.promiseRetry.
  destruct (PromiseRetry.attempt _ _ _ _) as [st1 [err | status]] eqn:E;
    apply attempt_sets_no_timer in E; destruct E as (A & B & C & D & F & G & K & K').
  - right. rewrite (K err eq_refl). simpl in *. repeat split; assumption.
  - left. eexists. split; [reflexivity|].
    apply (run_keeps statusObject operationId serverInformation polling
             step_keeps_polling).
    unfold Polling, suspendedLogs, poll. cbn [state awaiting].
    cbn [setInterval record setCursor setStatus events intervalActive promise logCalls
         serverStatus clock requests outputCursorPosition].
    events_fields. rewrite C, D. cbn [initial events filter List.length].
    split; [reflexivity|]. split; [rewrite B; split; reflexivity|].
    split; [reflexivity|]. split; [simpl; lia|].
    split; [left; exact B|].
    split; [|constructor].
    destruct (K' status eq_refl) as (k & Hk & Ek). exists k. split; [exact Hk | exact Ek].
Qed.

(** X1. From the moment the timer of a wait is set, it is set exactly
    while the promise is pending, whatever the schedule; a timer that is
    set was never cleared. The timer is set at most once. It can be cleared
    more than once, by callbacks that were suspended together, but every
    call of [clearInterval] follows a log emission of its own: there are
    never more of them than invocations of the log emission. *)
Theorem wait_timer_is_set_while_pending (schedule : list Action) :
  let st := wait schedule in
  (intervalActive st = true -> promise st = Pending)
  /\ (filter isSetInterval (events st) <> [] ->
      promise st = Pending -> intervalActive st = true)
  /\ (intervalActive st = true -> filter isClearInterval (events st) = [])
  /\ List.length (filter isSetInterval (events st)) <= 1
  /\ List.length (filter isClearInterval (events st)) <= logCalls st.
Proof.
  cbv zeta.
  destruct (wait_polls_or_fails schedule)
    as [(l & -> & Hset & Hiff & Hclear & Hcount & _) | (Hp & Ha & Hs & Hc & Hl)].
  - split; [apply Hiff|]. split; [intros _; apply Hiff|]. split; [exact Hclear|].
    split; lia.
  - rewrite Ha, Hp, Hs, Hc. simpl.
    split; [discriminate|]. split; [intros H; contradiction|]. split; [discriminate|].
    split; lia.
Qed.

(** X2. A wait ends in one of three ways only, whatever the schedule: it
    resolves, and then a status request was answered [Success]; it rejects
    with the fixed failure message, and then a status request was answered
    [Failed]; or it rejects with the failed-to-start message, before any
    timer was set and any log emitted. The errors of the log emission and of
    the status requests of the polling phase never reach the caller. *)
Theorem wait_ends_in_one_of_three_ways (schedule : list Action) :
  let st := wait schedule in
  promise st = Pending
  \/ (promise st = Return tt /\ seen OPERATION_COMPLETE_STATUS st)
  \/ (promise st = Throw (newError failedError) /\ seen OPERATION_FAILED_STATUS st)
  \/ (promise st = Throw (newError failedToStartError)
      /\ filter isSetInterval (events st) = []
      /\ logCalls st = 0).
Proof.
  cbv zeta.
  destruct (wait_polls_or_fails schedule)
    as [(l & -> & _ & _ & _ & _ & [H | [H | H]] & _) | (Hp & Ha & Hs & Hc & Hl)];
    auto 10.
Qed.
End PollerInvariants.

Section PollerRuns.
Context {service : CloudService}.
Variable statusObject : string -> nat -> option string.
Variable operationId : string.
Variable serverInformation : IServerResponse.

Import Poller.

#[local] Abbreviation runUrl := (statusUrl serverInformation).
#[local] Abbreviation runStep := (Poller.step statusObject operationId serverInformation).
#[local] Abbreviation runs := (Poller.run statusObject operationId serverInformation).
#[local] Abbreviation waits :=
  (Poller.waitForServerOperationToFinish statusObject operationId serverInformation).

(** A suspended callback that will neither clear the timer nor settle the
    promise, and brings no terminal status. *)
#[local] Abbreviation goesOn :=
  (fun entry : nat * Awaited =>
     match snd entry with
     | Logs _ next => next = ThenFetch
     | Status (Some status) => nonTerminal status
     | Status None => True
     end).

(** A step on a status that is not terminal: the timer and the promise
    stay as they are. *)
Lemma step_goes_on (a : Action) (l : Loop) :
  (forall k status, statusObject runUrl k = Some status -> nonTerminal status) ->
  intervalActive (state l) = true ->
  nonTerminal (serverStatus (state l)) ->
  Forall goesOn (awaiting l) ->
  let l' := runStep a l in
  intervalActive (state l') = true
  /\ nonTerminal (serverStatus (state l'))
  /\ Forall goesOn (awaiting l')
  /\ promise (state l') = promise (state l)
  /\ filter isClearInterval (events (state l'))
     = filter isClearInterval (events (state l)).
Proof.
  intros Hall Ha Hs Hon. destruct l as [[c r n p s active pr ev] f t suspended].
  cbn [state awaiting intervalActive serverStatus promise events] in *. subst active.
  pose proof Hs as [Hc Hf]. apply String.eqb_neq in Hc, Hf.
  destruct a as [|id delay]; cbn [Poller.step]; cbv zeta.
  - unfold Poller.fire. cbn [state intervalActive serverStatus]. rewrite Hc, Hf.
    destruct (String.eqb s OPERATION_IN_PROGRESS_STATUS);
      unfold awaitLogs, awaitStatus; loop_fields;
      cbn [state awaiting intervalActive serverStatus promise events];
      events_fields;
      (split; [reflexivity|]); (split; [exact Hs|]);
      (split; [|split; reflexivity]);
      (apply Forall_app; split; [exact Hon|]); repeat constructor; cbn [snd].
    destruct (statusObject runUrl r) as [status|] eqn:E; [|exact I].
    eapply Hall. exact E.
  - unfold resume. cbn [awaiting state].
    destruct (take id suspended) as [[found others]|] eqn:Et;
      [|cbn [state awaiting intervalActive serverStatus promise events]; auto].
    destruct (take_found _ _ _ _ Et) as (Hin & Hothers & _).
    assert (Hon' : Forall goesOn others).
    { rewrite Forall_forall in *. intros entry He. apply Hon. apply Hothers. exact He. }
    rewrite Forall_forall in Hon. pose proof (Hon _ Hin) as Hfound. cbn [snd] in Hfound.
    cbv zeta. loop_fields.
    destruct found as [call next | [status|]].
    + subst next.
      destruct (getServerLogs call (outputUrl serverInformation) operationId p)
        as [cursor|];
        unfold awaitStatus; loop_fields;
        cbn [state awaiting intervalActive serverStatus promise events];
        events_fields; [|auto].
      split; [reflexivity|]. split; [exact Hs|]. split; [|split; reflexivity].
      apply Forall_app. split; [exact Hon'|]. repeat constructor. cbn [snd].
      destruct (statusObject runUrl r) as [status|] eqn:E; [|exact I].
      eapply Hall. exact E.
    + cbn [state awaiting intervalActive serverStatus promise events]. auto.
    + cbn [state awaiting intervalActive serverStatus promise events]. auto.
Qed.

Lemma runs_without_terminal_status :
  (forall k status, statusObject runUrl k = Some status -> nonTerminal status) ->
  forall (schedule : list Action) (l : Loop),
    intervalActive (state l) = true ->
    nonTerminal (serverStatus (state l)) ->
    Forall goesOn (awaiting l) ->
    let st' := state (runs schedule l) in
    intervalActive st' = true
    /\ promise st' = promise (state l)
    /\ filter isClearInterval (events st') = filter isClearInterval (events (state l)).
Proof.
  intros Hall. induction schedule as [|a rest IH]; intros l Ha Hs Hon; cbv zeta.
  - repeat split. exact Ha.
  - cbn [Poller.run].
    destruct (step_goes_on a l Hall Ha Hs Hon) as (Ha' & Hs' & Hon' & Hp & Hc).
    destruct (IH _ Ha' Hs' Hon') as (A & B & C).
    rewrite A, B, C, Hp, Hc. repeat split.
Qed.

(** X3. The polling phase has no deadline: when the first request is
    answered and no answer of the status object is ever terminal (later
    requests may also fail), the promise of the wait stays pending and the
    timer stays set, whatever the schedule: however often the timer fires
    and whenever the log emissions and the status requests end. *)
Theorem wait_has_no_deadline (schedule : list Action) (first : string) :
  statusObject runUrl 0 = Some first ->
  (forall k status, statusObject runUrl k = Some status -> nonTerminal status) ->
  let st := waits schedule in
  promise st = Pending
  /\ intervalActive st = true
  /\ filter isClearInterval (events st) = [].
Proof.
  intros Hfirst Hall. cbv zeta.
  unfold Poller.waitForServerOperationToFinish, PromiseRetry.promiseRetry.
  change (PromiseRetry.timeouts promiseRetryOptions)
    with (PromiseRetry.createTimeout 0 promiseRetryOptions
          :: map (fun i => PromiseRetry.createTimeout i promiseRetryOptions) (seq 1 7)).
  cbn [PromiseRetry.attempt].
  rewrite (firstStatus_answers _ _ initial first Hfirst).
  match goal with |- context [runs schedule ?l] =>
    destruct (runs_without_terminal_status Hall schedule l) as (A & B & C) end.
  - reflexivity.
  - eapply Hall. exact Hfirst.
  - constructor.
  - rewrite A, B, C. repeat split.
Qed.
(** A suspended callback that awaits the answer to a status request. *)
#[local] Abbreviation asks :=
  (fun entry : nat * Awaited =>
     match snd entry with
     | Logs _ _ => False
     | Status (Some status) => unknownStatus status
     | Status None => True
     end).

(** The polling phase while every answer is a status the poller does not
    know: every firing sends a status request, and nothing else happens. *)
Lemma runs_on_unknown_statuses :
  (forall k, exists status, statusObject runUrl k = Some status /\ unknownStatus status) ->
  forall (schedule : list Action) (l : Loop),
    intervalActive (state l) = true ->
    unknownStatus (serverStatus (state l)) ->
    Forall asks (awaiting l) ->
    let st' := state (runs schedule l) in
    logCalls st' = logCalls (state l)
    /\ logCursors (events st') = logCursors (events (state l))
    /\ requests st' = requests (state l) + firings schedule.
Proof.
  intros Hall. induction schedule as [|a rest IH]; intros l Ha Hs Hon; cbv zeta.
  - unfold firings. simpl. repeat split. lia.
  - cbn [Poller.run]. destruct l as [[c r n p s active pr ev] f t suspended].
    cbn [state awaiting intervalActive serverStatus logCalls events requests] in *.
    subst active. pose proof Hs as [[Hc Hf] Hb]. apply String.eqb_neq in Hc, Hf, Hb.
    destruct a as [|id delay]; cbn [Poller.step].
    + unfold Poller.fire. cbn [state intervalActive serverStatus]. rewrite Hc, Hf, Hb.
      unfold awaitStatus. loop_fields.
      match goal with |- context [runs rest ?l'] =>
        destruct (IH l') as (A & B & C) end.
      * reflexivity.
      * exact Hs.
      * cbn [awaiting]. apply Forall_app. split; [exact Hon|]. repeat constructor.
        cbn [snd]. destruct (Hall r) as (status & -> & Hu). exact Hu.
      * rewrite A, B, C. cbn [state logCalls events requests].
        rewrite logCursors_app. cbn [logCursors]. rewrite app_nil_r.
        change (firings (Fire :: rest)) with (S (firings rest)).
        repeat split. lia.
    + unfold resume. cbn [awaiting state].
      change (firings (Settle id delay :: rest)) with (firings rest).
      destruct (take id suspended) as [[found others]|] eqn:Et;
        [|apply (IH (mkLoop (mkState c r n p s true pr ev) f t suspended) eq_refl Hs Hon)].
      destruct (take_found _ _ _ _ Et) as (Hin & Hothers & _).
      assert (Hon' : Forall asks others).
      { rewrite Forall_forall in *. intros entry He. apply Hon. apply Hothers. exact He. }
      rewrite Forall_forall in Hon. pose proof (Hon _ Hin) as Hfound. cbn [snd] in Hfound.
      cbv zeta. loop_fields.
      destruct found as [call next | [status|]]; [contradiction| |].
      * match goal with |- context [runs rest ?l'] =>
          destruct (IH l' eq_refl Hfound Hon') as (A & B & C) end.
        rewrite A, B, C. repeat split.
      * match goal with |- context [runs rest ?l'] =>
          destruct (IH l' eq_refl Hs Hon') as (A & B & C) end.
        rewrite A, B, C. repeat split.
Qed.

(** X4. A status the poller does not know, that is none of [Success],
    [Failed] and [Building], is polled without any log emission: when every
    answer is such a status, each firing of the timer sends one status
    request and the log emission is never invoked, whatever the schedule. *)
Theorem unknown_statuses_emit_no_logs (schedule : list Action) :
  (forall k, exists status, statusObject runUrl k = Some status /\ unknownStatus status) ->
  let st := waits schedule in
  logCalls st = 0
  /\ logCursors (events st) = []
  /\ requests st = S (firings schedule).
Proof.
  intros Hall. cbv zeta.
  destruct (Hall 0) as (first & Hfirst & Hunknown).
  unfold Poller.waitForServerOperationToFinish, PromiseRetry.promiseRetry.
  change (PromiseRetry.timeouts promiseRetryOptions)
    with (PromiseRetry.createTimeout 0 promiseRetryOptions
          :: map (fun i => PromiseRetry.createTimeout i promiseRetryOptions) (seq 1 7)).
  cbn [PromiseRetry.attempt].
  rewrite (firstStatus_answers _ _ initial first Hfirst).
  match goal with |- context [runs schedule ?l] =>
    destruct (runs_on_unknown_statuses Hall schedule l) as (A & B & C) end.
  - reflexivity.
  - exact Hunknown.
  - constructor.
  - rewrite A, B, C. repeat split.
Qed.

(** The polling phase while the status is [Building], the status requests
    fail and every callback ends before the timer fires again: every
    firing emits the logs again. *)
Lemma inTurn_failed_requests :
  LogsAdvance ->
  forall (m : nat) (st : State) (id : nat) (time : Z) (delays : list (Z * Z)),
    intervalActive st = true ->
    serverStatus st = OPERATION_IN_PROGRESS_STATUS ->
    (forall k, k < m -> statusObject runUrl (requests st + k) = None) ->
    m <= List.length delays ->
    exists st' time',
      runs (inTurn id delays) (mkLoop st id time [])
      = runs (inTurn (id + m) (skipn m delays)) (mkLoop st' (id + m) time' [])
      /\ intervalActive st' = true
      /\ serverStatus st' = OPERATION_IN_PROGRESS_STATUS
      /\ promise st' = promise st
      /\ requests st' = requests st + m
      /\ logCalls st' = logCalls st + m.
Proof.
  intros HL. induction m as [|m IH]; intros st id time delays Ha Hs Hfail Hlen.
  - exists st, time. rewrite !Nat.add_0_r. cbn [skipn]. repeat split; assumption.
  - destruct delays as [|[d1 d2] delays]; [simpl in Hlen; lia|].
    destruct (HL (logCalls st) (outputUrl serverInformation) operationId
                 (outputCursorPosition st)) as (c' & Hlogs & _).
    cbn [inTurn skipn].
    rewrite (turn_in_progress statusObject operationId serverInformation
               st id time d1 d2 c' _ Ha Hs Hlogs).
    assert (Hnone : statusObject runUrl (requests st) = None)
      by (rewrite <- (Nat.add_0_r (requests st)); apply Hfail; lia).
    rewrite Hnone.
    match goal with |- context [runs (inTurn (S id) delays) (mkLoop ?s _ ?t _)] =>
      destruct (IH s (S id) t delays) as (st' & time' & E & A & B & C & D & F) end.
    + reflexivity.
    + reflexivity.
    + intros k Hk. cbn [requests].
      replace (S (requests st) + k) with (requests st + S k) by lia. apply Hfail. lia.
    + simpl in Hlen. lia.
    + exists st', time'. rewrite E. replace (S id + m) with (id + S m) by lia.
      cbn [promise requests logCalls] in C, D, F.
      repeat split; try assumption; lia.
Qed.

(** X5. A failed status request of the polling phase is not an observed
    status, and still the next firing emits the logs again: when every
    callback ends before the timer fires again and the status [Building]
    is followed by [m] failed requests and then by [Success], the wait
    resolves after [m + 2] log emissions for the two statuses it has
    observed. *)
Theorem failed_requests_repeat_the_log_emission (m : nat) (delays : list (Z * Z)) :
  LogsAdvance ->
  statusObject runUrl 0 = Some OPERATION_IN_PROGRESS_STATUS ->
  (forall k, 1 <= k <= m -> statusObject runUrl k = None) ->
  statusObject runUrl (S m) = Some OPERATION_COMPLETE_STATUS ->
  m + 2 <= List.length delays ->
  let st := waits (inTurn 0 delays) in
  promise st = Return tt
  /\ intervalActive st = false
  /\ logCalls st = m + 2
  /\ requests st = m + 2.
Proof.
  intros HL Hfirst Hfail Hlast Hlen. cbv zeta.
  unfold Poller.waitForServerOperationToFinish, PromiseRetry.promiseRetry.
  change (PromiseRetry.timeouts promiseRetryOptions)
    with (PromiseRetry.createTimeout 0 promiseRetryOptions
          :: map (fun i => PromiseRetry.createTimeout i promiseRetryOptions) (seq 1 7)).
  cbn [PromiseRetry.attempt].
  rewrite (firstStatus_answers _ _ initial _ Hfirst).
  unfold poll.
  match goal with |- context [runs _ (mkLoop ?s _ ?t _)] =>
    destruct (inTurn_failed_requests HL m s 0 t delays)
      as (st1 & time1 & E & A & B & C & D & F) end.
  - reflexivity.
  - reflexivity.
  - intros k Hk. simpl. apply Hfail. lia.
  - lia.
  - rewrite E. cbn [Nat.add].
    assert (Hrest : 2 <= List.length (skipn m delays)) by (rewrite length_skipn; lia).
    destruct (skipn m delays) as [|[d1 d2] [|[d3 d4] rest]];
      [simpl in Hrest; lia | simpl in Hrest; lia|].
    cbn [inTurn].
    destruct (HL (logCalls st1) (outputUrl serverInformation) operationId
                 (outputCursorPosition st1)) as (c1 & Hlogs1 & _).
    rewrite (turn_in_progress statusObject operationId serverInformation
               st1 m time1 d1 d2 c1 _ A B Hlogs1).
    replace (statusObject runUrl (requests st1)) with (Some OPERATION_COMPLETE_STATUS)
      by (rewrite D; simpl; symmetry; exact Hlast).
    match goal with |- context [runs _ (mkLoop ?s _ ?t _)] =>
      destruct (HL (logCalls s) (outputUrl serverInformation) operationId
                   (outputCursorPosition s)) as (c2 & Hlogs2 & _);
      rewrite (turn_terminal statusObject operationId serverInformation
                 s (S m) t d3 d4 c2 _ OPERATION_COMPLETE_STATUS
                 (or_introl eq_refl) eq_refl C eq_refl Hlogs2) end.
    rewrite (inTurn_idle statusObject operationId serverInformation) by reflexivity.
    cbn [state promise intervalActive logCalls requests].
    rewrite D, F. simpl. unfold expected. simpl. repeat split; lia.
Qed.
End PollerRuns.

Section TransformedResultBounds.
Variable transformedResult : string -> nat -> option IBuildServerResult.
Variable transformedBuildResultUrl : string.

Import TransformedResult.

(** X6. Whatever the object store answers and whenever its answers come,
    [getTransformedServerResult] is settled and its timer is cleared once
    the timer has fired seven times. At every moment it has sent at most 6
    requests, one at each firing of the timer, 500 ms apart, and the timer
    has not fired later than 3500 ms after the call. *)
Theorem getTransformedServerResult_settles_in_seven_firings (schedule : list Action) :
  let st := getTransformedServerResult transformedResult transformedBuildResultUrl
              schedule in
  (7 <= firings schedule -> promise st <> Pending /\ intervalActive st = false)
  /\ List.length (requestTimes st) <= 6
  /\ requestTimes st = firingTimes (List.length (requestTimes st))
  /\ (clock st <= 3500)%Z.
Proof.
  cbv zeta. unfold getTransformedServerResult.
  pose proof (fetch_keeps_fetching transformedResult transformedBuildResultUrl schedule
                start (start_fetching transformedResult transformedBuildResultUrl))
    as (_ & Htimes & Hsent & Hiff & Hclock & _).
  cbv zeta in *. split.
  - intros Hfires.
    assert (Hp : promise (run transformedResult transformedBuildResultUrl schedule start)
                 <> Pending).
    { apply fetch_settles; [apply start_fetching | simpl; lia]. }
    split; [exact Hp|].
    destruct (intervalActive _) eqn:E; [|reflexivity].
    exfalso. apply Hp. apply Hiff. reflexivity.
  - split; [exact Hsent|]. split; [exact Htimes|].
    unfold GET_TRANSFORMED_RESULT_REQUEST_INTERVAL in Hclock.
    destruct Hclock as [-> | (-> & _)]; lia.
Qed.
End TransformedResultBounds.

Section DownloaderFailures.
Context {runtime : Runtime} {service : CloudService}.
Variable transfer : string -> string -> option Js.Error.

Import Downloader.

Lemma downloadEach_fails (destinationDir : string) (item : IServerItem)
      (after : list IServerItem) (err : Js.Error) :
  transfer (fullPath item) (path_join [destinationDir; filename item]) = Some err ->
  forall (before : list IServerItem) (names : list string) (log : list Event),
    (forall i, In i before ->
       transfer (fullPath i) (path_join [destinationDir; filename i]) = None) ->
    exists log',
      downloadEach transfer destinationDir (before ++ item :: after) names log
        = (log', Throw err)
      /\ written log' =
           (written log ++
            map (fun i => (fullPath i, path_join [destinationDir; filename i])) before)%list
      /\ created log' =
           (created log ++
            map (fun i => path_join [destinationDir; filename i]) (before ++ [item]))%list.
Proof.
  intros Hfail. induction before as [|b before IH]; intros names log Hok.
  - simpl. rewrite Hfail. eexists. split; [reflexivity|].
    rewrite !written_app, !created_app. simpl. rewrite !app_nil_r. split; reflexivity.
  - simpl. rewrite (Hok b) by (left; reflexivity).
    match goal with |- context [downloadEach _ _ _ ?n ?l] =>
      destruct (IH n l) as (log' & E & W & C) end.
    + intros i Hi. apply Hok. right. exact Hi.
    + exists log'. rewrite E, W, C. rewrite !written_app, !created_app. simpl.
      rewrite <- !app_assoc. simpl. repeat split.
Qed.

(** X7. A failed transfer ends the download at once: the function throws
    the error of that transfer, the files of the items before it stay
    written, the file of the failed item has been opened for writing, and no
    later item is touched. *)
Theorem downloadServerResults_stops_at_first_failure
  (serverResult : IBuildServerResult) (options : IOutputDirectoryOptions)
  (before after : list IServerItem) (item : IServerItem) (err : Js.Error) :
  let destinationDir := getServerOperationOutputDirectory options in
  let target := fun i => path_join [destinationDir; filename i] in
  getServerResults serverResult = (before ++ item :: after)%list ->
  (forall i, In i before -> transfer (fullPath i) (target i) = None) ->
  transfer (fullPath item) (target item) = Some err ->
  let done := downloadServerResults transfer serverResult options in
  snd done = Throw err
  /\ written (fst done) = map (fun i => (fullPath i, target i)) before
  /\ created (fst done) = map target (before ++ [item]).
Proof.
  intros destinationDir target Hsel Hok Hfail done. subst done.
  unfold downloadServerResults. fold destinationDir. rewrite Hsel.
  destruct (downloadEach_fails destinationDir item after err Hfail before []
              [EnsureDirectoryExists destinationDir] Hok) as (log' & E & W & C).
  rewrite E. simpl. split; [reflexivity|]. split; [exact W | exact C].
Qed.

(** Whatever the transfers do, every file the loop fills comes from one of
    its items. *)
Lemma downloadEach_written_from (destinationDir : string) :
  forall (items : list IServerItem) (names : list string) (log : list Event)
         (url file : string),
    In (url, file) (written (fst (downloadEach transfer destinationDir items names log))) ->
    In (url, file) (written log)
    \/ exists item, In item items /\ url = fullPath item
                    /\ file = path_join [destinationDir; filename item].
Proof.
  induction items as [|item items IH]; intros names log url file H; simpl in H.
  - left. exact H.
  - destruct (transfer (fullPath item) (path_join [destinationDir; filename item])).
    + simpl in H. rewrite !written_app in H. simpl in H. rewrite !app_nil_r in H.
      left. exact H.
    + apply IH in H. destruct H as [H | (i & Hi & Hu & Hf)].
      * rewrite !written_app in H. simpl in H. rewrite app_nil_r in H.
        apply in_app_or in H. destruct H as [H | [H | []]]; [left; exact H|].
        injection H as <- <-. right. exists item. repeat split. left. reflexivity.
      * right. exists i. repeat split; try assumption. right. exact Hi.
Qed.
End DownloaderFailures.

Section CodesignDownloads.
Context {runtime : Runtime} {constants : Constants}.
Variable transfer : string -> string -> option Js.Error.

(** X8. Whatever the transfers do, the download of a codesign result only
    ever fills files for items of the result whose disposition is the
    certificate or the provision one, each from the location of its item and
    under the output directory of the codesign service. *)
Theorem codesign_download_writes_only_codesign_files
  (codesignResult : IBuildServerResult) (options : IOutputDirectoryOptions)
  (url file : string) :
  let done := Downloader.downloadServerResults
                (service := CloudCodesignService.service) transfer codesignResult options in
  In (url, file) (Downloader.written (fst done)) ->
  exists item,
    In item (buildItems codesignResult)
    /\ (disposition item = DISPOSITIONS_CERTIFICATE
        \/ disposition item = DISPOSITIONS_PROVISION)
    /\ url = fullPath item
    /\ file = path_join [path_join [Server.projectDir options; CODESIGN_FILES_DIR_NAME;
                                    toLowerCase (outputPlatform options)];
                         filename item].
Proof.
  cbv zeta. unfold Downloader.downloadServerResults. intros H.
  apply downloadEach_written_from in H. destruct H as [[] | (item & Hi & Hu & Hf)].
  exists item. cbn [getServerResults CloudCodesignService.service] in Hi.
  apply filter_In in Hi. destruct Hi as [Hi Hd].
  apply orb_true_iff in Hd. rewrite !String.eqb_eq in Hd.
  repeat split; assumption.
Qed.
End CodesignDownloads.

Section CodesignGeneration.
Context {runtime : Runtime} {constants : Constants}.
Variable world : CloudCodesignService.Collaborators.
Import CloudCodesignService.

#[local] Abbreviation codesignTarget projectDir data :=
  (fun item : IServerItem =>
     path_join [getServerOperationOutputDirectory (CloudService := service)
                  (mkOutputOptions projectDir (platform data) false);
                filename item]).

(** The part of the generation after the wait, for a result with items
    whose selected files are all transferred. *)
Lemma finishGeneration_downloads (data : ICodesignData) (projectDir id : string)
      (codesignResult : IBuildServerResult) :
  buildItems codesignResult <> [] ->
  (forall item, In item (getServerResults (CloudService := service) codesignResult) ->
     transfer world (fullPath item) (codesignTarget projectDir data item) = None) ->
  finishGeneration world data projectDir id codesignResult =
  Return (mkCodesignResult id id (Server.stderr codesignResult)
            (Server.stdout codesignResult)
            (map (codesignTarget projectDir data)
                 (getServerResults (CloudService := service) codesignResult))).
Proof.
  intros Hitems Hok. unfold finishGeneration.
  destruct (buildItems codesignResult) as [|i items] eqn:E; [contradiction|].
  unfold Downloader.downloadServerResults.
  destruct (downloadEach_all (transfer world) _ _ []
              [Downloader.EnsureDirectoryExists
                 (getServerOperationOutputDirectory (CloudService := service)
                    (mkOutputOptions projectDir (platform data) false))] Hok)
    as (log' & D & _).
  rewrite D. reflexivity.
Qed.

(** X9. A failed wait does not fail the generation when the result of the
    operation is known all the same: if [getResult] gives a result with
    items and the selected files are transferred, [generateCodesignFiles]
    returns their paths, in the order of the selected items, with the
    identifier of the operation and the output of the server. *)
Theorem generateCodesignFiles_recovers_from_failed_wait
  (codesignData : option ICodesignData) (projectDir : string) (data : ICodesignData)
  (codesignResponse : IServerResponse) (ex : Js.Error)
  (codesignResult : IBuildServerResult) :
  validateParameteres codesignData projectDir = inr data ->
  submit world (uuid world) (withCleanDefault data) projectDir = inr codesignResponse ->
  waitForServerOperationToFinish world (uuid world) codesignResponse = Throw ex ->
  getResult world (uuid world) = Some codesignResult ->
  buildItems codesignResult <> [] ->
  (forall item, In item (getServerResults (CloudService := service) codesignResult) ->
     transfer world (fullPath item) (codesignTarget projectDir data item) = None) ->
  generateCodesignFiles world codesignData projectDir =
  Return (mkCodesignResult (uuid world) (uuid world) (Server.stderr codesignResult)
            (Server.stdout codesignResult)
            (map (codesignTarget projectDir data)
                 (getServerResults (CloudService := service) codesignResult))).
Proof.
  intros Hvalid Hsubmit Hwait Hresult Hitems Hok.
  unfold generateCodesignFiles. rewrite Hvalid. fold (withCleanDefault data).
  unfold executeGeneration. rewrite Hsubmit, Hwait, Hresult.
  rewrite (finishGeneration_downloads (withCleanDefault data) projectDir (uuid world)
             codesignResult Hitems Hok).
  reflexivity.
Qed.

(** X10. A result without items fails the generation, also after a wait
    that succeeded: the error says [Codesign failed] with the errors of the
    result as the reason, or, when these mention [403 Forbidden], with the
    fixed text that the service is unavailable in their place; it carries
    the [stderr] of the result and the identifier of the operation. *)
Theorem generateCodesignFiles_fails_without_items
  (codesignData : option ICodesignData) (projectDir : string) (data : ICodesignData)
  (codesignResponse : IServerResponse) (codesignResult : IBuildServerResult) :
  validateParameteres codesignData projectDir = inr data ->
  submit world (uuid world) (withCleanDefault data) projectDir = inr codesignResponse ->
  waitForServerOperationToFinish world (uuid world) codesignResponse
    = Return codesignResult ->
  buildItems codesignResult = [] ->
  exists err,
    generateCodesignFiles world codesignData projectDir = Throw err
    /\ Js.message err
       = "Codesign failed. Reason is: " ++ codesignFailureReason codesignResult ++ "."
    /\ (includes (errors codesignResult) "403 Forbidden" = false ->
        Js.message err = "Codesign failed. Reason is: " ++ errors codesignResult ++ ".")
    /\ Js.stderr err = Some (Server.stderr codesignResult)
    /\ Js.buildId err = Some (uuid world)
    /\ Js.cloudOperationId err = Some (uuid world).
Proof.
  intros Hvalid Hsubmit Hwait Hitems.
  unfold generateCodesignFiles. rewrite Hvalid. fold (withCleanDefault data).
  unfold executeGeneration. rewrite Hsubmit, Hwait.
  unfold finishGeneration. rewrite Hitems.
  eexists. split; [reflexivity|]. cbn [Js.message set_cloudOperationId set_buildId set_stderr
    newError Js.stderr Js.buildId Js.cloudOperationId].
  unfold codesignFailureReason. repeat split.
  intros ->. reflexivity.
Qed.

(** X11. Parameters that [validateParameteres] refuses fail the generation
    before anything is asked of the collaborators and before the operation
    has an identifier: the error is the same whatever the collaborators are,
    and it carries no identifier. Missing credentials are reported before a
    missing project directory. *)
Theorem generateCodesignFiles_refuses_before_the_operation
  (codesignData : option ICodesignData) (projectDir : string) (err : Js.Error) :
  validateParameteres codesignData projectDir = inl err ->
  generateCodesignFiles world codesignData projectDir = Throw err
  /\ Js.buildId err = None
  /\ Js.cloudOperationId err = None
  /\ ((codesignData = None
       \/ exists data, codesignData = Some data
                       /\ (username data = "" \/ password data = "")) ->
      Js.message err =
      "Codesign failed. Reason is missing code sign data. Apple Id and Apple Id password are required..").
Proof.
  intros Hvalid. unfold generateCodesignFiles. rewrite Hvalid.
  split; [reflexivity|].
  unfold validateParameteres in Hvalid.
  destruct codesignData as [data|].
  - destruct (truthyString (username data) && truthyString (password data)) eqn:Et.
    + destruct (truthyString projectDir); [discriminate|].
      injection Hvalid as <-. repeat split.
      intros [Hn | (d & Hd & Hempty)]; [discriminate|].
      injection Hd as <-. apply andb_true_iff in Et. destruct Et as [Hu Hp].
      destruct Hempty as [H | H]; rewrite H in *; discriminate.
    + injection Hvalid as <-. repeat split.
  - injection Hvalid as <-. repeat split.
Qed.

(** X12. The guard of [getServerResults] against a missing selection never
    fires: for a result whose items are all of other dispositions the
    generation succeeds, with no file transferred and an empty list of
    paths. *)
Theorem generateCodesignFiles_succeeds_without_codesign_items
  (codesignData : option ICodesignData) (projectDir : string) (data : ICodesignData)
  (codesignResponse : IServerResponse) (codesignResult : IBuildServerResult) :
  validateParameteres codesignData projectDir = inr data ->
  submit world (uuid world) (withCleanDefault data) projectDir = inr codesignResponse ->
  waitForServerOperationToFinish world (uuid world) codesignResponse
    = Return codesignResult ->
  buildItems codesignResult <> [] ->
  (forall item, In item (buildItems codesignResult) ->
     disposition item <> DISPOSITIONS_CERTIFICATE
     /\ disposition item <> DISPOSITIONS_PROVISION) ->
  generateCodesignFiles world codesignData projectDir =
  Return (mkCodesignResult (uuid world) (uuid world) (Server.stderr codesignResult)
            (Server.stdout codesignResult) [])
  /\ Downloader.written
       (fst (Downloader.downloadServerResults (service := service) (transfer world)
               codesignResult (mkOutputOptions projectDir (platform data) false))) = [].
Proof.
  intros Hvalid Hsubmit Hwait Hitems Hother.
  assert (Hsel : getServerResults (CloudService := service) codesignResult = []).
  { cbn [getServerResults service].
    clear Hitems Hwait. revert Hother.
    generalize (buildItems codesignResult) as items.
    induction items as [|i items IH]; intros Hother; [reflexivity|].
    cbn [filter]. destruct (Hother i (or_introl eq_refl)) as [Hc Hp].
    apply String.eqb_neq in Hc, Hp. rewrite Hc, Hp. cbn [orb].
    apply IH. intros item Hin. apply Hother. right. exact Hin. }
  split.
  - unfold generateCodesignFiles. rewrite Hvalid. fold (withCleanDefault data).
    unfold executeGeneration. rewrite Hsubmit, Hwait.
    rewrite (finishGeneration_downloads (withCleanDefault data) projectDir (uuid world)
               codesignResult Hitems); rewrite Hsel; [reflexivity|].
    intros item [].
  - unfold Downloader.downloadServerResults. rewrite Hsel. reflexivity.
Qed.
End CodesignGeneration.

Section PublishTraces.
Context {runtime : Runtime} {constants : Constants}.
Variable world : CloudPublishService.Collaborators.
Import CloudPublishService.

(** How a local package and a remote one are prepared. *)
#[local] Abbreviation preparedAs :=
  (fun packagePath prepared : string =>
     if exists_ world packagePath
     then uploadToS3 world packagePath (basename packagePath) = inr prepared
     else prepared = packagePath).

Lemma preparePaths_succeeds :
  forall (paths acc out : list string),
    preparePaths world paths acc = inr out ->
    exists tail, out = (acc ++ tail)%list /\ Forall2 preparedAs paths tail.
Proof.
  induction paths as [|p paths IH]; intros acc out H; cbn [preparePaths] in H.
  - injection H as <-. exists []. rewrite app_nil_r. split; [reflexivity | constructor].
  - destruct (exists_ world p) eqn:Ex.
    + destruct (uploadToS3 world p (basename p)) as [err | url] eqn:Eu; [discriminate|].
      destruct (IH _ _ H) as (tail & -> & F).
      exists (url :: tail). rewrite <- app_assoc. split; [reflexivity|].
      constructor; [rewrite Ex; exact Eu | exact F].
    + destruct (IH _ _ H) as (tail & -> & F).
      exists (p :: tail). rewrite <- app_assoc. split; [reflexivity|].
      constructor; [rewrite Ex; reflexivity | exact F].
Qed.

Lemma preparePaths_fails :
  forall (paths acc : list string) (err : Js.Error),
    preparePaths world paths acc = inl err ->
    exists before packagePath after,
      paths = (before ++ packagePath :: after)%list
      /\ exists_ world packagePath = true
      /\ uploadToS3 world packagePath (basename packagePath) = inl err
      /\ Forall (fun p => exists_ world p = true ->
                          exists url, uploadToS3 world p (basename p) = inr url) before.
Proof.
  induction paths as [|p paths IH]; intros acc err H; cbn [preparePaths] in H;
    [discriminate|].
  destruct (exists_ world p) eqn:Ex.
  - destruct (uploadToS3 world p (basename p)) as [e | url] eqn:Eu.
    + injection H as <-. exists [], p, paths. repeat split; [exact Ex | exact Eu | constructor].
    + destruct (IH _ _ H) as (before & q & after & -> & Hq & Hu & F).
      exists (p :: before), q, after. repeat split; try assumption.
      constructor; [intros _; exists url; exact Eu | exact F].
  - destruct (IH _ _ H) as (before & q & after & -> & Hq & Hu & F).
    exists (p :: before), q, after. repeat split; try assumption.
    constructor; [rewrite Ex; discriminate | exact F].
Qed.

(** X13. [getPreparePackagePaths] gives one path for each package, in the
    order of the packages: for a package that exists as a local file the
    address its upload gave, for any other the path as it is, so that a
    path that names no local file goes to the server unchanged. It fails
    with the error of the first upload that fails, and uploads nothing
    after it. *)
Theorem getPreparePackagePaths_uploads_local_packages (publishData : IPublishDataCore) :
  match getPreparePackagePaths world publishData with
  | inr prepared => Forall2 preparedAs (corePackagePaths publishData) prepared
  | inl err =>
      exists before packagePath after,
        corePackagePaths publishData = (before ++ packagePath :: after)%list
        /\ exists_ world packagePath = true
        /\ uploadToS3 world packagePath (basename packagePath) = inl err
        /\ Forall (fun p => exists_ world p = true ->
                            exists url, uploadToS3 world p (basename p) = inr url) before
  end.
Proof.
  unfold getPreparePackagePaths.
  destruct (preparePaths world (corePackagePaths publishData) []) as [err | prepared] eqn:E.
  - eapply preparePaths_fails. exact E.
  - destruct (preparePaths_succeeds _ _ _ E) as (tail & -> & F). exact F.
Qed.

(** The request [publishCore] sends is the one it was given, with the
    prepared paths in place of the paths of the packages. *)
Lemma publishCore_publishes (schedule : list Poller.Action) (publishRequestData request : IPublishRequestData)
      (publishDataCore : IPublishDataCore)
      (getError : IPublishRequestData -> IBuildServerResult -> Js.Error) :
  In (Publish request)
     (fst (publishCore world schedule publishRequestData publishDataCore getError)) ->
  exists prepared,
    getPreparePackagePaths world publishDataCore = inr prepared
    /\ request = setPackagePaths prepared publishRequestData.
Proof.
  unfold publishCore.
  destruct (getPreparePackagePaths world publishDataCore) as [err | prepared];
    [intros []|].
  intros H. exists prepared. split; [reflexivity|].
  assert (Hin : forall l, In (Publish request) l ->
            (forall e, In e l -> e = Info "Starting publishing."
                                 \/ e = Publish (setPackagePaths prepared publishRequestData)
                                 \/ (exists w, e = WaitEnded w)
                                 \/ (exists u, e = GetResult u)
                                 \/ e = Info "Publishing finished successfully.") ->
            request = setPackagePaths prepared publishRequestData).
  { intros l Hl Hall. destruct (Hall _ Hl) as [E | [E | [[w E] | [[u E] | E]]]];
      try discriminate. injection E as <-. reflexivity. }
  eapply Hin; [exact H|]. clear H Hin. intros e He.
  cbv zeta in He.
  destruct (publish world _) as [err | response]; cbn [fst] in He.
  { simpl in He. intuition. }
  destruct (Poller.promise _) as [[] | ex |]; cbn [fst] in He.
  3: { simpl in He. intuition. }
  all: destruct (resultObject world _) as [err | publishResult]; cbn [fst] in He;
    [simpl in He; intuition eauto|];
    destruct (truthyNumber _ || truthyString _); cbn [fst] in He;
    simpl in He; intuition eauto.
Qed.

(** X14. [publishToItunesConnect] sends a request to the server only for
    publish data that passed every check: at least one package, a project
    directory, a user name and a password that are not empty, and an
    identifier of the project that could be read. The request carries these
    credentials, the platform iOS, the team of the publish data, no track,
    and the prepared paths of the packages. *)
Theorem publishToItunesConnect_sends_only_validated_data
  (schedule : list Poller.Action) (publishData : IItunesConnectPublishData) (request : IPublishRequestData) :
  In (Publish request) (fst (publishToItunesConnect world schedule publishData)) ->
  corePackagePaths (itunesCore publishData) <> []
  /\ projectDir (itunesCore publishData) <> ""
  /\ exists username password identifier,
       itunesCredentials publishData = Some (username, password)
       /\ username <> "" /\ password <> ""
       /\ getProjectId world (projectDir (itunesCore publishData)) = inr identifier
       /\ getPreparePackagePaths world (itunesCore publishData)
          = inr (packagePaths request)
       /\ request = mkRequest identifier (Apple username password)
                      (packagePaths request) (iOS world)
                      (itunesTeamId publishData) None.
Proof.
  unfold publishToItunesConnect, validatePublishData.
  destruct (corePackagePaths (itunesCore publishData)) as [|p paths] eqn:Ep; [intros []|].
  destruct (projectDir (itunesCore publishData)) as [|c dir] eqn:Ed; [intros []|].
  cbn [truthyString].
  destruct (itunesCredentials publishData) as [[username password]|]; [|intros []].
  destruct (truthyString username && truthyString password) eqn:Et; [|intros []].
  destruct (getProjectId world _) as [err | identifier]; [intros []|].
  intros H. apply publishCore_publishes in H. destruct H as (prepared & Hp & ->).
  apply andb_true_iff in Et. destruct Et as [Hu Hw].
  split; [discriminate|]. split; [discriminate|].
  exists username, password, identifier.
  split; [reflexivity|].
  split; [intros ->; discriminate|]. split; [intros ->; discriminate|].
  split; [reflexivity|]. split; [exact Hp | reflexivity].
Qed.

(** X15. [publishToGooglePlay] sends a request to the server only for
    publish data that passed every check: at least one package, a project
    directory, and a path to an existing file that could be read as JSON.
    The request carries what was read, the platform Android, no team, and a
    track in any case: the one of the publish data, or the default track
    when that is empty. *)
Theorem publishToGooglePlay_sends_only_validated_data
  (schedule : list Poller.Action) (publishData : IGooglePlayPublishData) (request : IPublishRequestData) :
  In (Publish request) (fst (publishToGooglePlay world schedule publishData)) ->
  corePackagePaths (googleCore publishData) <> []
  /\ projectDir (googleCore publishData) <> ""
  /\ pathToAuthJson publishData <> ""
  /\ exists_ world (pathToAuthJson publishData) = true
  /\ exists authJson identifier,
       readJson world (pathToAuthJson publishData) = Some authJson
       /\ getProjectId world (projectDir (googleCore publishData)) = inr identifier
       /\ getPreparePackagePaths world (googleCore publishData)
          = inr (packagePaths request)
       /\ request = mkRequest identifier (GooglePlay authJson)
                      (packagePaths request) (Android world) None
                      (Some (if truthyString (googleTrack publishData)
                             then googleTrack publishData
                             else DEFAULT_ANDROID_PUBLISH_TRACK)).
Proof.
  unfold publishToGooglePlay, validatePublishData.
  destruct (corePackagePaths (googleCore publishData)) as [|p paths] eqn:Ep; [intros []|].
  destruct (projectDir (googleCore publishData)) as [|c dir] eqn:Ed; [intros []|].
  cbn [truthyString].
  destruct (pathToAuthJson publishData) as [|c' path] eqn:Ea; [intros []|].
  cbn [truthyString negb orb].
  destruct (exists_ world (String c' path)) eqn:Ex; [|intros []].
  cbn [negb].
  destruct (readJson world (String c' path)) as [authJson|] eqn:Er; [|intros []].
  destruct (getProjectId world _) as [err | identifier]; [intros []|].
  intros H. apply publishCore_publishes in H. destruct H as (prepared & Hp & ->).
  split; [discriminate|]. split; [discriminate|]. split; [discriminate|].
  split; [reflexivity|].
  exists authJson, identifier.
  split; [reflexivity|]. split; [reflexivity|]. split; [exact Hp | reflexivity].
Qed.

(** X16. [publishCore] reads the result of the operation only after the
    wait has ended, whichever way it ended, and only for a request the
    server accepted; while the wait is pending, and when the request failed,
    the result is not asked for. The result is read from the address the
    answer to the request gave, once. *)
Theorem publishCore_reads_result_after_the_wait
  (schedule : list Poller.Action) (publishRequestData : IPublishRequestData)
  (publishDataCore : IPublishDataCore)
  (getError : IPublishRequestData -> IBuildServerResult -> Js.Error) (url : string) :
  let trace := fst (publishCore world schedule publishRequestData publishDataCore getError) in
  In (GetResult url) trace ->
  exists prepared response,
    getPreparePackagePaths world publishDataCore = inr prepared
    /\ publish world (setPackagePaths prepared publishRequestData) = inr response
    /\ url = resultUrl response
    /\ Poller.promise
         (Poller.waitForServerOperationToFinish (statusObject world) (uuid world)
            response schedule) <> Pending
    /\ List.length (filter (fun e => match e with GetResult _ => true | _ => false end)
                      trace) = 1
    /\ exists rest,
         trace = ([Info "Starting publishing.";
                   Publish (setPackagePaths prepared publishRequestData);
                   WaitEnded (Poller.promise
                                (Poller.waitForServerOperationToFinish
                                   (statusObject world) (uuid world) response schedule));
                   GetResult url] ++ rest)%list.
Proof.
  cbv zeta. unfold publishCore.
  destruct (getPreparePackagePaths world publishDataCore) as [err | prepared];
    [intros []|].
  cbv zeta.
  destruct (publish world _) as [err | response] eqn:Epub; cbn [fst].
  { simpl. intros [H | [H | []]]; discriminate. }
  destruct (Poller.promise _) as [[] | ex |] eqn:Ew; cbn [fst].
  3: { simpl. intros [H | [H | []]]; discriminate. }
  all: intros H; exists prepared, response;
    split; [reflexivity|]; split; [exact Epub|]; rewrite Ew;
    destruct (resultObject world _) as [err | publishResult]; cbn [fst] in *;
    [|destruct (truthyNumber _ || truthyString _); cbn [fst] in *];
    simpl in H;
    repeat (destruct H as [H | H]; try discriminate; try contradiction);
    injection H as <-;
    (split; [reflexivity|]); (split; [discriminate|]); (split; [reflexivity|]);
    eexists; simpl; reflexivity.
Qed.
End PublishTraces.

Section MarkerFacts.
Import RegExp.

Lemma includes_unfold (s target : string) :
  includes s target
  = (String.prefix target s
     || match s with EmptyString => false | String _ s' => includes s' target end).
Proof. destruct s; reflexivity. Qed.

Lemma prefix_append (marker rest : string) : String.prefix marker (marker ++ rest) = true.
Proof.
  induction marker as [|c marker IH]; simpl; [destruct rest; reflexivity|].
  destruct (ascii_dec c c) as [_ | N]; [exact IH | contradiction].
Qed.

Lemma prefix_split (marker : string) :
  forall s, String.prefix marker s = true -> exists rest, s = marker ++ rest.
Proof.
  induction marker as [|c marker IH]; intros s H.
  - exists s. reflexivity.
  - destruct s as [|c' s]; simpl in H; [discriminate|].
    destruct (ascii_dec c c') as [<- | N]; [|discriminate].
    destruct (IH s H) as (rest & ->). exists rest. reflexivity.
Qed.

Lemma includes_append (before marker rest : string) :
  includes (before ++ marker ++ rest) marker = true.
Proof.
  induction before as [|c before IH].
  - rewrite includes_unfold. change ("" ++ marker ++ rest) with (marker ++ rest).
    rewrite prefix_append. reflexivity.
  - change (includes (String c before ++ marker ++ rest) marker)
      with (String.prefix marker (String c (before ++ marker ++ rest))
            || includes (before ++ marker ++ rest) marker).
    rewrite IH. apply orb_true_r.
Qed.

Lemma includes_split (marker : string) :
  forall s, includes s marker = true -> exists before rest, s = before ++ marker ++ rest.
Proof.
  induction s as [|c s IH]; intros H; rewrite includes_unfold in H;
    apply orb_true_iff in H; destruct H as [H | H].
  - destruct (prefix_split _ _ H) as (rest & E). exists "", rest. exact E.
  - discriminate.
  - destruct (prefix_split _ _ H) as (rest & E). exists "", rest. exact E.
  - destruct (IH H) as (before & rest & ->). exists (String c before), rest. reflexivity.
Qed.

(** The dot star at the end of a pattern matches wherever it is tried. *)
Lemma starDot_end (s : string) :
  exists r, starDot (matchHere []) s = Some r.
Proof.
  induction s as [|c s [r IH]]; cbn [starDot].
  - eexists. reflexivity.
  - destruct (isLineTerminator c); [eexists; reflexivity|].
    rewrite IH. eexists. reflexivity.
Qed.

Lemma search_reaches (p : Pattern) (s' : string) (r : Matched) :
  matchHere p s' = Some r ->
  forall before i, exists found, search p (before ++ s') i = Some found.
Proof.
  intros Hm. induction before as [|c before IH]; intros i.
  - exists (i, r). apply search_here. exact Hm.
  - change (String c before ++ s') with (String c (before ++ s')). cbn [search].
    destruct (matchHere p (String c (before ++ s'))) as [m|]; [eexists; reflexivity|].
    apply IH.
Qed.

Lemma baseUniq_extends (array : list string) :
  forall result, exists tail, Lodash.baseUniq result array = (result ++ tail)%list.
Proof.
  induction array as [|value rest IH]; intros result; simpl.
  - exists []. rewrite app_nil_r. reflexivity.
  - destruct (Lodash.includesValue value result); [apply IH|].
    destruct (IH (result ++ [value])%list) as (tail & ->).
    exists (value :: tail). rewrite <- app_assoc. reflexivity.
Qed.

Lemma join_first (sep x : string) (l : list string) :
  exists tail, join sep (x :: l) = x ++ tail
               /\ (tail = "" \/ exists more, tail = sep ++ more).
Proof.
  destruct l as [|y l].
  - exists "". simpl. rewrite append_empty. split; [reflexivity | left; reflexivity].
  - eexists. split; [reflexivity|]. right. eexists. reflexivity.
Qed.

(** The search finds the leftmost match. *)
Lemma search_first (p : Pattern) :
  forall s i j r,
    search p s i = Some (j, r) ->
    forall pre s', s = pre ++ s' -> i + String.length pre < j -> matchHere p s' = None.
Proof.
  induction s as [|c s IH]; intros i j r H pre s' Hs Hlt; simpl in H.
  - destruct (matchHere p "") as [m|]; [|discriminate].
    injection H as <- _. lia.
  - destruct (matchHere p (String c s)) as [m|] eqn:E.
    + injection H as <- _. lia.
    + destruct pre as [|c' pre].
      * simpl in Hs. subst s'. exact E.
      * simpl in Hs. injection Hs as _ ->.
        eapply (IH _ _ _ H pre s' eq_refl). simpl in Hlt. lia.
Qed.

(** The first match of a marker followed by the dot star, searched from
    the start of the text: the first occurrence of the marker and what
    follows it on its line. *)
Lemma exec_marker_first (marker str : string) (e : nat) (m : ExecResult) :
  exec (lits marker ++ [DotStar])%list str 0 = (Some m, e) ->
  exists before line rest,
    str = before ++ marker ++ line ++ rest
    /\ match0 m = marker ++ line
    /\ oneLine line = true
    /\ atLineEnd rest = true
    /\ (forall before' rest',
          str = before' ++ marker ++ rest' ->
          String.length before <= String.length before').
Proof.
  unfold exec. cbn [Nat.ltb Nat.leb skip].
  replace (skip 0 str) with str by (destruct str; reflexivity).
  intros H.
  destruct (search _ _ _) as [[i [caps rest]]|] eqn:Hs; [|discriminate].
  injection H as <- <-. cbn [match0].
  destruct (search_found _ _ _ _ _ Hs) as (pre & s' & Hstr & Hi & Hm).
  destruct (matchHere_lits _ _ _ _ Hm) as (s'' & -> & Hstar).
  destruct (starDot_last _ _ (fun s => eq_refl) _ Hstar) as (line & -> & Hline & Hend & _).
  simpl snd in *. simpl in Hi. subst i.
  exists pre, line, rest. split; [exact Hstr|]. split.
  { rewrite Hstr. rewrite !length_append.
    replace (String.length pre + (String.length marker
               + (String.length line + String.length rest))
             - String.length rest - String.length pre)
      with (String.length (marker ++ line)) by (rewrite length_append; lia).
    replace (pre ++ marker ++ line ++ rest) with (pre ++ (marker ++ line) ++ rest)
      by (rewrite !append_assoc; reflexivity).
    apply substring_middle. }
  split; [exact Hline|]. split; [exact Hend|].
  intros before' rest' Hocc.
  destruct (Nat.le_gt_cases (String.length pre) (String.length before')) as [Hle | Hgt];
    [exact Hle|].
  exfalso.
  pose proof (search_first _ _ _ _ _ Hs before' (marker ++ rest') Hocc) as Hnone.
  rewrite matchHere_lits_app in Hnone.
  destruct (starDot_end rest') as (r & Hr).
  change (matchHere [DotStar] rest') with (starDot (matchHere []) rest') in Hnone.
  rewrite Hr in Hnone.
  specialize (Hnone ltac:(simpl; lia)). discriminate.
Qed.
End MarkerFacts.

Section FormattedErrorMarker.
Context {runtime : Runtime}.
Import RegExp CloudPublishService.

(** X17. For a pattern that is a marker followed by the dot star,
    [getFormattedError] gives the empty string for a text without the
    marker: [uniq] makes the [null] of [match] an empty array. For a text
    that holds the marker, the result begins with the first occurrence of
    the marker and all that follows it on its line, up to the end of the
    line; after these the result ends, or goes on with [EOL]. *)
Theorem getFormattedError_is_empty_without_the_marker (message marker : string) :
  (includes message marker = false ->
   getFormattedError message (lits marker ++ [DotStar])%list = "")
  /\ (includes message marker = true ->
      exists before line rest tail,
        message = before ++ marker ++ line ++ rest
        /\ oneLine line = true
        /\ atLineEnd rest = true
        /\ (forall before' rest',
              message = before' ++ marker ++ rest' ->
              String.length before <= String.length before')
        /\ getFormattedError message (lits marker ++ [DotStar])%list
           = marker ++ line ++ tail
        /\ (tail = "" \/ exists more, tail = EOL ++ more)).
Proof.
  unfold getFormattedError. split; intros H.
  - destruct (matchGlobal (lits marker ++ [DotStar])%list message) as [found|] eqn:E;
      [|reflexivity].
    exfalso. assert (Hne : found <> []).
    { unfold matchGlobal in E. destruct (matchLoop _ _ _ _); [discriminate|].
      injection E as <-. discriminate. }
    destruct found as [|x found]; [contradiction|].
    destruct (matchGlobal_marker _ _ _ x E (or_introl eq_refl))
      as (before & line & rest & Hm & -> & _).
    rewrite Hm, append_assoc, includes_append in H. discriminate.
  - destruct (includes_split _ _ H) as (somewhere & after & Hm).
    assert (Hfound : exists m e found,
              exec (lits marker ++ [DotStar])%list message 0 = (Some m, e)
              /\ matchGlobal (lits marker ++ [DotStar])%list message
                 = Some (match0 m :: found)).
    { unfold matchGlobal. rewrite Nat.add_comm. cbn [Nat.add matchLoop].
      destruct (exec (lits marker ++ [DotStar])%list message 0) as [[m|] e] eqn:Ee.
      - eexists. eexists. eexists. split; reflexivity.
      - exfalso. unfold exec in Ee. cbn [Nat.ltb Nat.leb skip] in Ee.
        replace (skip 0 message) with message in Ee by (destruct message; reflexivity).
        destruct (starDot_end after) as (r & Hr).
        destruct (search_reaches (lits marker ++ [DotStar])%list (marker ++ after) r
                    ltac:(rewrite matchHere_lits_app; exact Hr) somewhere 0)
          as ([i [caps left]] & Hs).
        rewrite <- Hm in Hs. rewrite Hs in Ee. discriminate. }
    destruct Hfound as (m & e & found & Ee & E). rewrite E.
    destruct (exec_marker_first _ _ _ _ Ee)
      as (before & line & rest & Hmessage & Hmatch & Hline & Hend & Hfirst).
    rewrite Hmatch.
    cbn [Lodash.uniq Lodash.baseUniq Lodash.includesValue existsb].
    cbn [List.app].
    destruct (baseUniq_extends found [marker ++ line]) as (kept & ->).
    cbn [List.app].
    destruct (join_first EOL (marker ++ line) kept) as (tail & -> & Htail).
    exists before, line, rest, tail. rewrite append_assoc.
    repeat split; assumption.
Qed.
End FormattedErrorMarker.

Section TeamNames.
Context {runtime : Runtime} {constants : Constants}.
Import RegExp CloudPublishService.

Lemma teamsLoop_count (stdout : string) :
  forall fuel lastIndex teamNames,
    List.length (teamsLoop fuel stdout lastIndex teamNames)
    <= List.length teamNames + (String.length stdout - lastIndex).
Proof.
  induction fuel as [|fuel IH]; intros lastIndex teamNames; cbn [teamsLoop]; [lia|].
  destruct (exec IOS_TEAMS_REGEX stdout lastIndex) as [[m|] e] eqn:E; [|lia].
  destruct (exec_teams_advances _ _ _ _ E) as (Hlt & Hle).
  specialize (IH e (teamNames ++ [nth 0 (groups m) ""])%list).
  rewrite length_app in IH. simpl in IH. lia.
Qed.

(** X18. The loop that collects the team names ends: every match of the
    teams expression holds a digit, so [lastIndex] grows with each
    iteration, [length stdout + 1] iterations are always enough, more of
    them change nothing, and there are at most as many team names as
    [stdout] has characters. *)
Theorem iosTeamNames_loop_ends (stdout : string) (more : nat) :
  teamsLoop (S (String.length stdout) + more) stdout 0 [] = iosTeamNames stdout
  /\ List.length (iosTeamNames stdout) <= String.length stdout.
Proof.
  split.
  - apply teamsLoop_fuel; lia.
  - unfold iosTeamNames.
    pose proof (teamsLoop_count stdout (S (String.length stdout)) 0 []) as H.
    cbn [List.length Nat.add] in H. rewrite Nat.sub_0_r in H. exact H.
Qed.

Lemma plusDigits_continues (k : string -> option Matched) :
  forall s r, plusDigits k s = Some r ->
    exists digits s', s = digits ++ s' /\ k s' = Some r.
Proof.
  induction s as [|c s IH]; intros r H; cbn [plusDigits] in H; [discriminate|].
  destruct (isDigit c); [|discriminate].
  destruct (plusDigits k s) as [r'|] eqn:E.
  - injection H as <-. destruct (IH _ eq_refl) as (digits & s' & -> & Hk).
    exists (String c digits), s'. split; [reflexivity | exact Hk].
  - exists (String c ""), s. split; [reflexivity | exact H].
Qed.

Lemma starDotGroup_continues (k : string -> option Matched) :
  forall s text r, starDotGroup k s = Some (text, r) ->
    exists s', s = text ++ s' /\ oneLine text = true /\ k s' = Some r.
Proof.
  assert (Hcap : forall s text r, capture "" (k s) = Some (text, r) ->
            exists s', s = text ++ s' /\ oneLine text = true /\ k s' = Some r).
  { intros s text r H. destruct (k s) as [r'|] eqn:E; [|discriminate].
    injection H as <- <-. exists s. repeat split. exact E. }
  induction s as [|c s IH]; intros text r H; cbn [starDotGroup] in H.
  - apply Hcap. exact H.
  - destruct (isLineTerminator c) eqn:Ec; [apply Hcap; exact H|].
    destruct (starDotGroup k s) as [[text' r']|] eqn:E; [|apply Hcap; exact H].
    injection H as <- <-. destruct (IH _ _ eq_refl) as (s' & -> & Hl & Hk).
    exists s'. simpl. rewrite Ec, Hl. repeat split. exact Hk.
Qed.

(** A name the teams expression captures stands in the text between the
    quote that follows a closing parenthesis and a space, and the quote
    that a space and an opening parenthesis follow. *)
#[local] Abbreviation quotedIn stdout :=
  (fun name : string =>
     oneLine name = true
     /\ exists before after,
          stdout = before ++ (") " ++ quote) ++ name ++ (quote ++ " (") ++ after).

Lemma exec_teams_capture (stdout : string) (lastIndex e : nat) (m : ExecResult) :
  exec IOS_TEAMS_REGEX stdout lastIndex = (Some m, e) ->
  quotedIn stdout (nth 0 (groups m) "").
Proof.
  unfold exec. intros H.
  destruct (String.length stdout <? lastIndex)%nat eqn:Hlt; [discriminate|].
  apply Nat.ltb_ge in Hlt.
  destruct (search _ _ _) as [[i [caps rest]]|] eqn:Hs; [|discriminate].
  injection H as <- _. cbn [groups].
  destruct (search_found _ _ _ _ _ Hs) as (pre & s' & Hskip & _ & Hm).
  destruct (skip_split lastIndex stdout Hlt) as (a & Hstr & _).
  rewrite Hskip in Hstr. clear Hs Hskip Hlt.
  unfold IOS_TEAMS_REGEX in Hm.
  change ([DigitPlus] ++ lits (") " ++ quote) ++ [GroupDotStar]
            ++ lits (quote ++ " (") ++ [DotStar] ++ lits ")")%list
    with (DigitPlus :: (lits (") " ++ quote) ++ (GroupDotStar
            :: (lits (quote ++ " (") ++ ([DotStar] ++ lits ")")))))%list in Hm.
  cbn [matchHere] in Hm.
  destruct (plusDigits_continues _ _ _ Hm) as (digits & s1 & -> & H1).
  destruct (matchHere_lits _ _ _ _ H1) as (s2 & -> & H2).
  cbn [matchHere] in H2.
  destruct (starDotGroup _ s2) as [[text [caps' rest']]|] eqn:Eg; [|discriminate].
  injection H2 as <- <-.
  destruct (starDotGroup_continues _ _ _ _ Eg) as (s3 & -> & Hl & H3).
  destruct (matchHere_lits _ _ _ _ H3) as (s4 & -> & _).
  cbn [nth]. split; [exact Hl|].
  exists (a ++ pre ++ digits), s4. rewrite Hstr.
  rewrite !append_assoc. reflexivity.
Qed.

Lemma teamsLoop_captures (stdout : string) :
  forall fuel lastIndex teamNames,
    Forall (quotedIn stdout) teamNames ->
    Forall (quotedIn stdout) (teamsLoop fuel stdout lastIndex teamNames).
Proof.
  induction fuel as [|fuel IH]; intros lastIndex teamNames H; cbn [teamsLoop];
    [exact H|].
  destruct (exec IOS_TEAMS_REGEX stdout lastIndex) as [[m|] e] eqn:E; [|exact H].
  apply IH. apply Forall_app. split; [exact H|].
  constructor; [|constructor]. eapply exec_teams_capture. exact E.
Qed.

(** X19. Every team name the error of an iTunes Connect publish carries is
    a piece of the output of the server: it stands there on one line,
    between quotes, after a closing parenthesis and a space and before a
    space and an opening parenthesis. This holds for every result, also
    for one whose output is no list of teams. *)
Theorem itunes_team_names_are_quoted_in_stdout
  (request : IPublishRequestData) (publishResult : IBuildServerResult) :
  Forall (quotedIn (Server.stdout publishResult))
    (match Js.teamNames (itunesGetError request publishResult) with
     | Some names => names
     | None => []
     end)
  /\ (Js.teamNames (itunesGetError request publishResult) <> None <->
      includes (Server.stderr publishResult) FASTLANE_MULTIPLE_TEAMS_FOUND_ERROR = true).
Proof.
  unfold itunesGetError. cbv zeta.
  destruct (includes (Server.stderr publishResult) FASTLANE_MULTIPLE_TEAMS_FOUND_ERROR).
  - cbn [Js.teamNames set_packagePaths set_teamNames]. split.
    + unfold iosTeamNames. apply teamsLoop_captures. constructor.
    + split; [reflexivity | discriminate].
  - cbn [Js.teamNames newError]. split; [constructor|].
    split; [intros H; contradiction | discriminate].
Qed.
End TeamNames.

Section PublishCommands.
Context {runtime : Runtime} {constants : Constants}.
Variable world : CloudPublishService.Collaborators.
Variable env : CloudPublishCommand.Environment.
Variable COMMAND_REQUIRES_APPLE_USERNAME_PASS : string.
Import CloudPublishService CloudPublishCommand.

(** X20. The checks of the publish commands never answer [false]: each
    throws or returns [true]. Once the EULA is accepted and the helpers of
    the base command have not thrown, the Android command accepts exactly
    one argument, or none on an interactive terminal; the iOS command
    accepts up to two arguments, and needs one only when the terminal is
    not interactive, so that a user name without a password passes the
    check. *)
Theorem publish_commands_accept_by_argument_count (args : list string) :
  let helpersPass :=
    ensureEulaIsAccepted env = None
    /\ showErrorForStoppedCloudBuilds env = None
    /\ validateNoAab env = None in
  (canExecuteAndroid env args = Return true <->
   helpersPass
   /\ (List.length args = 1 \/ (isInteractive env = true /\ args = [])))
  /\ (canExecuteIos env COMMAND_REQUIRES_APPLE_USERNAME_PASS args = Return true <->
      helpersPass
      /\ List.length args <= 2
      /\ (isInteractive env = true \/ args <> []))
  /\ canExecuteAndroid env args <> Return false
  /\ canExecuteIos env COMMAND_REQUIRES_APPLE_USERNAME_PASS args <> Return false
  /\ canExecuteAndroid env args <> Pending
  /\ canExecuteIos env COMMAND_REQUIRES_APPLE_USERNAME_PASS args <> Pending.
Proof.
  cbv zeta. unfold canExecuteAndroid, canExecuteIos, canExecute.
  destruct (ensureEulaIsAccepted env) as [e1|];
    [repeat split; try discriminate; intros (H & _); destruct H as (H & _); discriminate|].
  destruct (showErrorForStoppedCloudBuilds env) as [e2|];
    [repeat split; try discriminate; intros (H & _); destruct H as (_ & H & _);
     discriminate|].
  destruct (validateNoAab env) as [e3|];
    [repeat split; try discriminate; intros (H & _); destruct H as (_ & _ & H);
     discriminate|].
  destruct (isInteractive env); cbn [negb andb orb];
    rewrite ?orb_false_r;
    destruct args as [|a [|b [|c args]]]; cbn [List.length Nat.ltb Nat.leb];
    repeat split; try discriminate; try reflexivity; try (simpl; lia);
    try (left; reflexivity); try (right; discriminate);
    try (right; split; reflexivity);
    try (intros (_ & [H | [H H']]); discriminate);
    try (intros (_ & H & _); simpl in H; lia);
    try (intros (_ & _ & [H | H]); [discriminate | contradiction]).
Qed.

(** A value that is given is used, and the prompter is asked for one
    that is missing or empty. *)
Lemma orAsk_answer (value : option string) (question answer : string) :
  orAsk env value question = inr answer ->
  match value with
  | Some (String c s) => answer = String c s
  | _ => getString env question = inr answer
  end.
Proof.
  destruct value as [[|c s]|]; cbn [orAsk]; intros H; [exact H | | exact H].
  injection H as <-. reflexivity.
Qed.

(** X21. A request the Android command sends is fixed by its arguments,
    its options and the answers of the prompter. The path to the
    authentication file is the first argument, or, when that is missing or
    empty, the answer of the prompter to [Path to auth JSON]; the file at
    that path is what the credentials are read from. The track is the
    [track] option, or, when that is missing or empty, the answer of the
    prompter to [Track], or, when that answer is empty, the default track
    of the service. The request holds one package, the prepared path of the
    package the build gave, for the platform Android and without a team. *)
Theorem android_command_publishes_one_package_on_a_track
  (schedule : list Poller.Action) (args : list string) (request : IPublishRequestData) :
  In (Publish request) (fst (executeCoreAndroid world env schedule args)) ->
  exists path wanted packagePath authJson identifier,
    match nth_error args 0 with
    | Some (String c s) => path = String c s
    | _ => getString env "Path to auth JSON" = inr path
    end
    /\ match optionsTrack env with
       | Some (String c s) => wanted = String c s
       | _ => getString env "Track" = inr wanted
       end
    /\ buildForPublishingPlatform env (Android world) = inr packagePath
    /\ readJson world path = Some authJson
    /\ getProjectId world (projectDataDir env) = inr identifier
    /\ getPreparePackagePaths world (mkCore [packagePath] (projectDataDir env))
       = inr (packagePaths request)
    /\ List.length (packagePaths request) = 1
    /\ request = mkRequest identifier (GooglePlay authJson) (packagePaths request)
                   (Android world) None
                   (Some (if truthyString wanted then wanted
                          else DEFAULT_ANDROID_PUBLISH_TRACK)).
Proof.
  unfold executeCoreAndroid.
  destruct (orAsk env (nth_error args 0) "Path to auth JSON") as [e | authPath] eqn:Ea;
    [intros []|].
  destruct (orAsk env (optionsTrack env) "Track") as [e | chosenTrack] eqn:Et; [intros []|].
  destruct (buildForPublishingPlatform env (Android world)) as [e | packagePath] eqn:Eb;
    [intros []|].
  unfold publishToGooglePlay, validatePublishData.
  cbn [googleCore CloudPublishService.pathToAuthJson googleTrack corePackagePaths projectDir].
  destruct (truthyString (projectDataDir env)); [|intros []].
  destruct (negb (truthyString authPath) || negb (exists_ world authPath)); [intros []|].
  destruct (readJson world authPath) as [authJson|] eqn:Hr; [|intros []].
  destruct (getProjectId world (projectDataDir env)) as [e | identifier] eqn:Eg;
    [intros []|].
  intros H. apply publishCore_publishes in H. destruct H as (prepared & Hp & Hreq).
  unfold setPackagePaths in Hreq.
  cbn [appIdentifier credentials platform teamId track] in Hreq.
  assert (Hpaths : packagePaths request = prepared) by (rewrite Hreq; reflexivity).
  rewrite <- Hpaths in Hp.
  exists authPath, chosenTrack, packagePath, authJson, identifier.
  split; [apply orAsk_answer; exact Ea|].
  split; [apply orAsk_answer; exact Et|].
  split; [reflexivity|]. split; [exact Hr|]. split; [reflexivity|]. split; [exact Hp|].
  split.
  { unfold getPreparePackagePaths in Hp. cbn [corePackagePaths] in Hp.
    destruct (preparePaths_succeeds _ _ _ _ Hp) as (tail & E & F).
    rewrite E. apply Forall2_length in F. simpl in F. simpl. lia. }
  rewrite Hreq at 1. rewrite Hpaths. reflexivity.
Qed.

(** X22. The iOS command publishes one package, the one the build gave,
    with the credentials of the helper, and never names a team: when
    several teams are found, the command has no way to send the chosen
    one. *)
Theorem ios_command_publishes_one_package_without_team
  (schedule : list Poller.Action) (args : list string) (request : IPublishRequestData) :
  In (Publish request) (fst (executeCoreIos world env schedule args)) ->
  List.length (packagePaths request) = 1
  /\ platform request = iOS world
  /\ teamId request = None
  /\ track request = None
  /\ exists username password packagePath,
       getExtendedAppleCredentials env args = inr (username, password)
       /\ username <> "" /\ password <> ""
       /\ credentials request = Apple username password
       /\ buildForPublishingPlatform env (iOS world) = inr packagePath
       /\ getPreparePackagePaths world (mkCore [packagePath] (projectDataDir env))
          = inr (packagePaths request).
Proof.
  unfold executeCoreIos.
  destruct (getExtendedAppleCredentials env args) as [e | [username password]] eqn:Ec;
    [intros []|].
  destruct (buildForPublishingPlatform env (iOS world)) as [e | packagePath] eqn:Eb;
    [intros []|].
  unfold publishToItunesConnect, validatePublishData.
  cbn [itunesCore itunesCredentials itunesTeamId corePackagePaths projectDir].
  destruct (truthyString (projectDataDir env)); [|intros []].
  destruct (truthyString username && truthyString password) eqn:Et; [|intros []].
  destruct (getProjectId world (projectDataDir env)) as [e | identifier]; [intros []|].
  intros H. apply publishCore_publishes in H. destruct H as (prepared & Hp & Hreq).
  unfold setPackagePaths in Hreq.
  cbn [appIdentifier credentials platform teamId track] in Hreq.
  assert (Hpaths : packagePaths request = prepared) by (rewrite Hreq; reflexivity).
  rewrite <- Hpaths in Hp.
  apply andb_true_iff in Et. destruct Et as [Hu Hw].
  split.
  { unfold getPreparePackagePaths in Hp. cbn [corePackagePaths] in Hp.
    destruct (preparePaths_succeeds _ _ _ _ Hp) as (tail & E & F).
    rewrite E. apply Forall2_length in F. simpl in F. simpl. lia. }
  split; [rewrite Hreq; reflexivity|].
  split; [rewrite Hreq; reflexivity|].
  split; [rewrite Hreq; reflexivity|].
  exists username, password, packagePath.
  split; [reflexivity|].
  split; [intros ->; discriminate|]. split; [intros ->; discriminate|].
  split; [rewrite Hreq; reflexivity|]. split; [reflexivity | exact Hp].
Qed.
End PublishCommands.

(** ** The further properties on samples *)

(** X3, on a sample: an operation that stays [Building], after forty
    firings of the timer, none of whose callbacks has ended. *)
Lemma wait_has_no_deadline_sample :
  let st := Poller.waitForServerOperationToFinish
              (service := CloudPublishService.service)
              Scenarios.stillBuilding Examples.operation Examples.locations
              (repeat Poller.Fire 40) in
  Poller.promise st = Pending
  /\ Poller.intervalActive st = true
  /\ filter Poller.isClearInterval (Poller.events st) = [].
Proof.
  apply (wait_has_no_deadline (service := CloudPublishService.service)
           Scenarios.stillBuilding Examples.operation Examples.locations
           (repeat Poller.Fire 40) "Building").
  - reflexivity.
  - intros k status H. injection H as <-. split; discriminate.
Defined.

(** X4, on a sample: an operation whose status is [Queued], after five
    firings whose status requests are answered in the reverse order. *)
Lemma unknown_statuses_emit_no_logs_sample :
  let st := Poller.waitForServerOperationToFinish
              (service := CloudPublishService.service)
              Scenarios.queued Examples.operation Examples.locations
              Scenarios.reversed in
  Poller.logCalls st = 0
  /\ Poller.logCursors (Poller.events st) = []
  /\ Poller.requests st = 6.
Proof.
  apply (unknown_statuses_emit_no_logs (service := CloudPublishService.service)
           Scenarios.queued Examples.operation Examples.locations
           Scenarios.reversed).
  intros k. exists "Queued". split; [reflexivity|]. repeat split; discriminate.
Defined.

(** X5, on a sample: [Building], two failed requests, [Success], with
    callbacks that end at once. *)
Lemma failed_requests_repeat_the_log_emission_sample :
  let st := Poller.waitForServerOperationToFinish
              (service := CloudPublishService.service)
              (Examples.answers [Some "Building"; None; None; Some "Success"])
              Examples.operation Examples.locations (Poller.promptly 5) in
  Poller.promise st = Return tt
  /\ Poller.intervalActive st = false
  /\ Poller.logCalls st = 4
  /\ Poller.requests st = 4.
Proof.
  apply (failed_requests_repeat_the_log_emission
           (service := CloudPublishService.service)
           (Examples.answers [Some "Building"; None; None; Some "Success"])
           Examples.operation Examples.locations 2 (repeat (0, 0)%Z 5)).
  - intros calls logsUrl buildId cursor. exists cursor. split; [reflexivity | lia].
  - reflexivity.
  - intros k Hk. destruct k as [|[|[|k]]]; try reflexivity; lia.
  - reflexivity.
  - simpl. lia.
Defined.

(** X7, on a sample: the transfer of the provisioning profile fails after
    the certificate was written. *)
Lemma downloadServerResults_stops_at_first_failure_sample :
  let done := Downloader.downloadServerResults
                (runtime := Examples.posix)
                (service := CloudCodesignService.service (runtime := Examples.posix)
                              (constants := Examples.sampleConstants))
                Scenarios.brokenProvision Examples.codesignResult Scenarios.iosOutput in
  snd done = Throw (newError "socket hang up")
  /\ Downloader.written (fst done)
     = [("https://store/out/dev.p12", "/home/me/app/codesign_files/ios/dev.p12")]
  /\ Downloader.created (fst done)
     = ["/home/me/app/codesign_files/ios/dev.p12";
        "/home/me/app/codesign_files/ios/dev.mobileprovision"].
Proof.
  apply (downloadServerResults_stops_at_first_failure
           (runtime := Examples.posix)
           (service := CloudCodesignService.service (runtime := Examples.posix)
                         (constants := Examples.sampleConstants))
           Scenarios.brokenProvision Examples.codesignResult Scenarios.iosOutput
           [Examples.certificate] [] Examples.provision (newError "socket hang up")).
  - reflexivity.
  - intros i [<- | []]. reflexivity.
  - reflexivity.
Defined.

(** X8, on a sample: the file written for the certificate. *)
Lemma codesign_download_writes_only_codesign_files_sample :
  exists item,
    In item (buildItems Examples.codesignResult)
    /\ (disposition item = "Certificate" \/ disposition item = "Provision")
    /\ "https://store/out/dev.p12" = fullPath item
    /\ "/home/me/app/codesign_files/ios/dev.p12"
       = Examples.posix.(path_join)
           [Examples.posix.(path_join) ["/home/me/app"; "codesign_files"; "ios"];
            filename item].
Proof.
  apply (codesign_download_writes_only_codesign_files
           (runtime := Examples.posix) (constants := Examples.sampleConstants)
           (fun _ _ => None) Examples.codesignResult Scenarios.iosOutput
           "https://store/out/dev.p12" "/home/me/app/codesign_files/ios/dev.p12").
  left. reflexivity.
Defined.

(** X9, on a sample: the wait fails, the result is known. *)
Lemma generateCodesignFiles_recovers_from_failed_wait_sample :
  CloudCodesignService.generateCodesignFiles
    (runtime := Examples.posix) (constants := Examples.sampleConstants)
    Scenarios.recoveringCodesign (Some Examples.codesignData) "/home/me/app"
  = Return (CloudCodesignService.mkCodesignResult Examples.operation Examples.operation
              "" ""
              ["/home/me/app/codesign_files/ios/dev.p12";
               "/home/me/app/codesign_files/ios/dev.mobileprovision"]).
Proof.
  apply (generateCodesignFiles_recovers_from_failed_wait
           (runtime := Examples.posix) (constants := Examples.sampleConstants)
           Scenarios.recoveringCodesign (Some Examples.codesignData) "/home/me/app"
           Examples.codesignData Examples.locations
           (newError "Generation of codesign files failed.") Examples.codesignResult).
  - reflexivity.
  - reflexivity.
  - reflexivity.
  - reflexivity.
  - discriminate.
  - intros item _. reflexivity.
Defined.

(** X10, on a sample: a result without items that reports [403 Forbidden]. *)
Lemma generateCodesignFiles_fails_without_items_sample :
  exists err,
    CloudCodesignService.generateCodesignFiles
      (runtime := Examples.posix) (constants := Examples.sampleConstants)
      (Scenarios.codesignEndingIn Scenarios.forbiddenResult)
      (Some Examples.codesignData) "/home/me/app" = Throw err
    /\ Js.message err
       = "Codesign failed. Reason is: The Code Signing Assistance service is temporary unavailable. Please try again later.."
    /\ Js.stderr err = Some "denied"
    /\ Js.buildId err = Some Examples.operation.
Proof.
  destruct (generateCodesignFiles_fails_without_items
              (runtime := Examples.posix) (constants := Examples.sampleConstants)
              (Scenarios.codesignEndingIn Scenarios.forbiddenResult)
              (Some Examples.codesignData) "/home/me/app"
              Examples.codesignData Examples.locations Scenarios.forbiddenResult
              eq_refl eq_refl eq_refl eq_refl)
    as (err & Hthrow & Hmessage & _ & Hstderr & Hid & _).
  exists err. exact (conj Hthrow (conj Hmessage (conj Hstderr Hid))).
Defined.

(** X11, on a sample: codesign data without a password. *)
Lemma generateCodesignFiles_refuses_before_the_operation_sample :
  let err := newError
    "Codesign failed. Reason is missing code sign data. Apple Id and Apple Id password are required.." in
  CloudCodesignService.generateCodesignFiles
    (runtime := Examples.posix) (constants := Examples.sampleConstants)
    Scenarios.recoveringCodesign
    (Some (CloudCodesignService.mkCodesignData "me@example.com" "" "iOS" None))
    "/home/me/app" = Throw err
  /\ Js.buildId err = None
  /\ Js.cloudOperationId err = None.
Proof.
  destruct (generateCodesignFiles_refuses_before_the_operation
              (runtime := Examples.posix) (constants := Examples.sampleConstants)
              Scenarios.recoveringCodesign
              (Some (CloudCodesignService.mkCodesignData "me@example.com" "" "iOS" None))
              "/home/me/app"
              (newError
                 "Codesign failed. Reason is missing code sign data. Apple Id and Apple Id password are required..")
              eq_refl)
    as (Hthrow & Hb & Hc & _).
  exact (conj Hthrow (conj Hb Hc)).
Defined.

(** X12, on a sample: a result whose only item is the package. *)
Lemma generateCodesignFiles_succeeds_without_codesign_items_sample :
  CloudCodesignService.generateCodesignFiles
    (runtime := Examples.posix) (constants := Examples.sampleConstants)
    (Scenarios.codesignEndingIn Scenarios.packageOnlyResult)
    (Some Examples.codesignData) "/home/me/app"
  = Return (CloudCodesignService.mkCodesignResult Examples.operation Examples.operation
              "" "" []).
Proof.
  apply (generateCodesignFiles_succeeds_without_codesign_items
           (runtime := Examples.posix) (constants := Examples.sampleConstants)
           (Scenarios.codesignEndingIn Scenarios.packageOnlyResult)
           (Some Examples.codesignData) "/home/me/app"
           Examples.codesignData Examples.locations Scenarios.packageOnlyResult).
  - reflexivity.
  - reflexivity.
  - reflexivity.
  - discriminate.
  - intros item [<- | []]. split; discriminate.
Defined.

(** X14, on a sample: the request of a publish to iTunes Connect, whose
    package was uploaded. *)
Lemma publishToItunesConnect_sends_only_validated_data_sample :
  let request := CloudPublishService.mkRequest "org.nativescript.sample"
                   (CloudPublishService.Apple "me@example.com" "secret")
                   ["https://store/uploads/app.ipa"] "iOS" None None in
  CloudPublishService.getPreparePackagePaths (runtime := Examples.posix)
    Scenarios.quickStore (CloudPublishService.itunesCore Examples.itunesData)
  = inr (CloudPublishService.packagePaths request)
  /\ CloudPublishService.projectDir (CloudPublishService.itunesCore Examples.itunesData)
     <> "".
Proof.
  intros request.
  destruct (publishToItunesConnect_sends_only_validated_data
              (runtime := Examples.posix) Scenarios.quickStore (Poller.promptly 1) Examples.itunesData
              request (or_intror (or_introl eq_refl)))
    as (_ & Hdir & username & password & identifier & _ & _ & _ & _ & Hp & _).
  exact (conj Hp Hdir).
Defined.

(** X15, on a sample: the request of a publish to Google Play without a
    track. *)
Lemma publishToGooglePlay_sends_only_validated_data_sample :
  let request := CloudPublishService.mkRequest "org.nativescript.sample"
                   (CloudPublishService.GooglePlay "{}")
                   ["https://store/uploads/app.apk"] "Android" None (Some "beta") in
  CloudPublishService.exists_ Scenarios.quickStore
    (CloudPublishService.pathToAuthJson Examples.googlePlayData) = true
  /\ CloudPublishService.getPreparePackagePaths (runtime := Examples.posix)
       Scenarios.quickStore (CloudPublishService.googleCore Examples.googlePlayData)
     = inr (CloudPublishService.packagePaths request).
Proof.
  intros request.
  destruct (publishToGooglePlay_sends_only_validated_data
              (runtime := Examples.posix) (constants := Examples.sampleConstants)
              Scenarios.quickStore (Poller.promptly 1) Examples.googlePlayData
              request (or_intror (or_introl eq_refl)))
    as (_ & _ & _ & Hexists & authJson & identifier & _ & _ & Hp & _).
  exact (conj Hexists Hp).
Defined.

(** X16, on a sample: the result of a publish that succeeded at once is
    read once. *)
Lemma publishCore_reads_result_after_the_wait_sample :
  List.length
    (filter (fun e => match e with
                      | CloudPublishService.GetResult _ => true
                      | _ => false
                      end)
       (fst (CloudPublishService.publishCore (runtime := Examples.posix)
               Scenarios.quickStore (Poller.promptly 1) Examples.sampleRequest
               (CloudPublishService.itunesCore Examples.itunesData)
               (CloudPublishService.itunesGetError (runtime := Examples.posix))))) = 1.
Proof.
  destruct (publishCore_reads_result_after_the_wait
              (runtime := Examples.posix) Scenarios.quickStore (Poller.promptly 1) Examples.sampleRequest
              (CloudPublishService.itunesCore Examples.itunesData)
              (CloudPublishService.itunesGetError (runtime := Examples.posix))
              "https://store/result.json"
              (or_intror (or_intror (or_intror (or_introl eq_refl)))))
    as (prepared & response & _ & _ & _ & _ & Hone & _).
  exact Hone.
Defined.

(** X21, on a sample: the Android command with the path to the
    authentication file, no [track] option and an empty answer of the
    prompter publishes one package on the default track. *)
Lemma android_command_publishes_one_package_on_a_track_sample :
  let request := CloudPublishService.mkRequest "org.nativescript.sample"
                   (CloudPublishService.GooglePlay "{}")
                   ["https://store/uploads/Android.pkg"] "Android" None (Some "beta") in
  exists wanted,
    CloudPublishCommand.getString Scenarios.terminal "Track" = inr wanted
    /\ List.length (CloudPublishService.packagePaths request) = 1
    /\ CloudPublishService.track request
       = Some (if truthyString wanted then wanted else "beta").
Proof.
  intros request.
  destruct (android_command_publishes_one_package_on_a_track
              (runtime := Examples.posix) (constants := Examples.sampleConstants)
              Scenarios.quickStore Scenarios.terminal (Poller.promptly 1)
              ["/home/me/key.json"] request (or_intror (or_introl eq_refl)))
    as (path & wanted & packagePath & authJson & identifier
        & _ & Hwanted & _ & _ & _ & _ & Hone & Hrequest).
  exists wanted.
  exact (conj Hwanted (conj Hone (f_equal CloudPublishService.track Hrequest))).
Defined.

(** X22, on a sample: the iOS command with a user name and a password. *)
Lemma ios_command_publishes_one_package_without_team_sample :
  let request := CloudPublishService.mkRequest "org.nativescript.sample"
                   (CloudPublishService.Apple "me@example.com" "secret")
                   ["https://store/uploads/iOS.pkg"] "iOS" None None in
  List.length (CloudPublishService.packagePaths request) = 1
  /\ CloudPublishService.teamId request = None.
Proof.
  intros request.
  destruct (ios_command_publishes_one_package_without_team
              (runtime := Examples.posix)
              Scenarios.quickStore Scenarios.terminal (Poller.promptly 1) ["me@example.com"; "secret"]
              request (or_intror (or_introl eq_refl)))
    as (Hone & _ & Hteam & _).
  exact (conj Hone Hteam).
Defined.
